(** * FishPass: a shallow embedding of [FishPass.py]

    The three functions of the module ([find_main_stems], [find_origins],
    [fish_passage]) are embedded as executable Rocq functions.

    Conventions of the embedding.
    - A reach identifier is a Python string or a Python integer ([ident]).
    - A pandas DataFrame is the list of its rows, restricted to its first
      two columns; an argument that may be of another Python type is a
      [pyarg].
    - Python numbers are exact rationals ([Q]); the rounding of binary
      floating point is not part of the model.
    - Python exceptions are values of [exn]; [sys.exit] is [SystemExit].
    - Loops over a list that grows while it is iterated are run by index
      with a fuel bound, exactly as the list iterator of Python does. *)

From Stdlib Require Import String Ascii ZArith QArith Qpower Lia Lqa Bool Arith PeanoNat List.
Import ListNotations.

Open Scope string_scope.
Open Scope list_scope.
Open Scope Q_scope.

(* ===================================================================== *)
(** ** Identifiers, exceptions and outcomes *)
(* ===================================================================== *)

(** A reach (tributary, dam) identifier: [str] or [int]. *)
Inductive ident : Type :=
| IStr (s : string)
| IInt (z : Z).

Definition reach := ident.

Definition ident_eq_dec (a b : ident) : {a = b} + {a <> b}.
Proof. decide equality; [apply string_dec | apply Z.eq_dec]. Defined.

Definition ident_eqb (a b : ident) : bool :=
  if ident_eq_dec a b then true else false.

(** Python's [x in l] on a list. *)
Definition mem (x : ident) (l : list ident) : bool :=
  existsb (ident_eqb x) l.

(** The exceptions the module can raise. *)
Inductive exn : Type :=
| SystemExit (msg : string)
| TypeError
| KeyError (k : reach)
| IndexError
| ValueError
| AttributeError.

(** The result of a call: a value, an exception, or a loop that was still
    running when the fuel ran out. *)
Inductive outcome (A : Type) : Type :=
| Ok (a : A)
| Raise (e : exn)
| OutOfFuel.
Arguments Ok {A} a.
Arguments Raise {A} e.
Arguments OutOfFuel {A}.

(** An argument of a function: an object of the expected type, or
    something else ([isinstance] fails). *)
Inductive pyarg (T : Type) : Type :=
| Given (x : T)
| Mistyped.
Arguments Given {T} x.
Arguments Mistyped {T}.

(** The [sa] argument of [fish_passage]: a DataFrame (second column label,
    rows of reach and attribute value), a string, or another object. *)
Inductive sa_arg : Type :=
| SaFrame (col : string) (rows : list (reach * Q))
| SaStr (s : string)
| SaOther.

Definition dam_table := list (reach * ident).
Definition ft_table := list (reach * reach).
Definition trib_table := list (ident * reach).

(** [x > y] on numbers. *)
Definition Qgtb (x y : Q) : bool := negb (Qle_bool x y).
(** [x < y] on numbers. *)
Definition Qltb (x y : Q) : bool := negb (Qle_bool y x).

(** [sum(l)]: Python adds from the left, starting at 0. *)
Definition Qsum (l : list Q) : Q := fold_left Qplus l 0.

(* ===================================================================== *)
(** ** Insertion-ordered dictionaries *)
(* ===================================================================== *)

(** [o_dict]: a Python dict from reach to a number or [None].  Python
    dicts keep insertion order, and the result DataFrame is named after
    its first key, so the dict is an association list without repeated
    keys. *)
Definition odict := list (reach * option Q).

Fixpoint dict_get (k : reach) (d : odict) : option (option Q) :=
  match d with
  | [] => None
  | (k', v) :: d' => if ident_eq_dec k' k then Some v else dict_get k d'
  end.

(** [d[k] = v]: overwrite in place, or insert at the end. *)
Fixpoint dict_set (k : reach) (v : option Q) (d : odict) : odict :=
  match d with
  | [] => [(k, v)]
  | (k', v') :: d' =>
      if ident_eq_dec k' k then (k, v) :: d' else (k', v') :: dict_set k v d'
  end.

(** [del d[k]] on a dict that has the key. *)
Fixpoint dict_del (k : reach) (d : odict) : odict :=
  match d with
  | [] => []
  | (k', v') :: d' =>
      if ident_eq_dec k' k then d' else (k', v') :: dict_del k d'
  end.

Definition dict_keys (d : odict) : list reach := map fst d.

(** [l.remove(x)]: drop the first item equal to [x]. *)
Fixpoint remove_first (x : ident) (l : list ident) : list ident :=
  match l with
  | [] => []
  | y :: l' => if ident_eq_dec y x then l' else y :: remove_first x l'
  end.

(* ===================================================================== *)
(** ** Table queries *)
(* ===================================================================== *)

(** [len(dd[dd.iloc[:,0] == k])]: the number of dam rows of reach [k]. *)
Definition dam_ct (dd : dam_table) (k : reach) : nat :=
  length (filter (fun row => ident_eqb (fst row) k) dd).

(** [dd[dd.iloc[:,0] == k].empty == False]. *)
Definition has_dams (dd : dam_table) (k : reach) : bool :=
  negb (Nat.eqb (dam_ct dd k) 0).

(** [q = ft[ft.iloc[:,1] == o].iloc[:,0]]: the reaches flowing into [o],
    in table order. *)
Definition ups (ft : ft_table) (o : reach) : list reach :=
  map fst (filter (fun row => ident_eqb (snd row) o) ft).

(** [sa[sa.iloc[:,0] == k].iloc[:,1].values[0]]: the attribute of the
    first row of reach [k]; no such row is an [IndexError]. *)
Fixpoint attr_lookup (rows : list (reach * Q)) (k : reach) : option Q :=
  match rows with
  | [] => None
  | (k', v) :: rows' => if ident_eq_dec k' k then Some v else attr_lookup rows' k
  end.

(* ===================================================================== *)
(** ** The per-origin traversal *)
(* ===================================================================== *)

(** The objects one origin's traversal mutates: the list [o_up_ids], the
    position of its iterator, and the dict [o_dict].  [enq] is a ghost
    history, read by no operation: every identifier ever appended to
    [o_up_ids], in order. *)
Record tstate : Type := mkT {
  o_up_ids : list reach;
  pos : nat;
  o_dict : odict;
  enq : list reach
}.

(** Statements of the loop body: they change the state and either return
    a value or raise; the state reached when an exception is raised is
    kept. *)
Definition M (A : Type) : Type := tstate -> tstate * (exn + A).

Definition ret {A} (a : A) : M A := fun s => (s, inr a).
Definition raise {A} (e : exn) : M A := fun s => (s, inl e).
Definition bind {A B} (m : M A) (f : A -> M B) : M B :=
  fun s => match m s with
           | (s', inl e) => (s', inl e)
           | (s', inr a) => f a s'
           end.

Notation "x <- m ;; k" := (bind m (fun x => k))
  (at level 61, m at next level, right associativity).
Notation "m ;;; k" := (bind m (fun _ => k))
  (at level 61, right associativity).

(** [o_up_ids.append(k)]. *)
Definition list_append (k : reach) : M unit :=
  fun s => (mkT (o_up_ids s ++ [k]) (pos s) (o_dict s) (enq s ++ [k]), inr tt).

(** [o_up_ids.remove(k)]. *)
Definition list_remove (k : reach) : M unit :=
  fun s => if mem k (o_up_ids s)
           then (mkT (remove_first k (o_up_ids s)) (pos s) (o_dict s) (enq s), inr tt)
           else (s, inl ValueError).

(** [o_dict[k] = v]. *)
Definition set_item (k : reach) (v : option Q) : M unit :=
  fun s => (mkT (o_up_ids s) (pos s) (dict_set k v (o_dict s)) (enq s), inr tt).

(** [o_dict[k]]. *)
Definition get_item (k : reach) : M (option Q) :=
  fun s => match dict_get k (o_dict s) with
           | Some v => (s, inr v)
           | None => (s, inl (KeyError k))
           end.

(** [del o_dict[k]]. *)
Definition del_item (k : reach) : M unit :=
  fun s => match dict_get k (o_dict s) with
           | Some _ => (mkT (o_up_ids s) (pos s) (dict_del k (o_dict s)) (enq s), inr tt)
           | None => (s, inl (KeyError k))
           end.

(** A dict value used as an operand of [*]: [None] is a [TypeError]. *)
Definition as_number (v : option Q) : M Q :=
  match v with
  | Some x => ret x
  | None => raise TypeError
  end.

(** [for x in l: f x]. *)
Fixpoint for_each {A} (l : list A) (f : A -> M unit) : M unit :=
  match l with
  | [] => ret tt
  | x :: l' => f x ;;; for_each l' f
  end.

Section Traversal.

Variable dd : dam_table.
Variable ft : ft_table.
Variable red : Q.          (* pct_pass / 100 *)
Variable pct_cutoff : Q.
Variable sa : sa_arg.

(** [red ** dam_ct]. *)
Definition attenuation (k : reach) : Q := red ^ Z.of_nat (dam_ct dd k).

(** The tail shared by the three tested branches: keep [red_pop] for [k]
    when it is above the cutoff, else take [k] out of the list and of the
    dict again. *)
Definition keep_or_drop (k : reach) (red_pop : Q) : M unit :=
  if Qgtb red_pop pct_cutoff
  then set_item k (Some red_pop)
  else list_remove k ;;; del_item k.

(** One upstream reach ([len(q) == 1]). *)
Definition visit_single (o q0 : reach) : M unit :=
  list_append q0 ;;;
  set_item q0 None ;;;
  if has_dams dd q0
  then
    v <- get_item o ;;
    x <- as_number v ;;
    keep_or_drop q0 (x * attenuation q0)
  else
    v <- get_item o ;;
    set_item q0 v.

(** One branch [k] with share [p] of a confluence ([len(q) > 1]). *)
Definition visit_branch (o : reach) (kp : reach * Q) : M unit :=
  let (k, p) := kp in
  list_append k ;;;
  set_item k None ;;;
  if has_dams dd k
  then
    v <- get_item o ;;
    x <- as_number v ;;
    keep_or_drop k ((x * p) * attenuation k)
  else
    v <- get_item o ;;
    x <- as_number v ;;
    keep_or_drop k (x * p).

(** The attribute values of the branches, in order; the first branch
    without a row raises. *)
Fixpoint branch_attrs (rows : list (reach * Q)) (q : list reach) : exn + list Q :=
  match q with
  | [] => inr []
  | a :: q' =>
      match attr_lookup rows a with
      | None => inl IndexError
      | Some v =>
          match branch_attrs rows q' with
          | inl e => inl e
          | inr vs => inr (v :: vs)
          end
      end
  end.

(** The lists [ids] and [props] of a confluence.  With a string for [sa]
    every share is 1; with a DataFrame the shares are the attribute
    values over their sum.  The quotient is exact; where the sum is 0
    it is [Qdiv]'s 0 (numpy gives nan or inf there). *)
Definition split_props (q : list reach) : exn + (list reach * list Q) :=
  match sa with
  | SaStr _ => inr (q, map (fun _ => 1) q)
  | SaFrame _ rows =>
      match branch_attrs rows q with
      | inl e => inl e
      | inr attrs =>
          let attr_sum := Qsum attrs in
          inr (q, map (fun val => val / attr_sum) attrs)
      end
  | SaOther => inl AttributeError
  end.

(** The body of [for o in o_up_ids]. *)
Definition body (o : reach) : M unit :=
  match ups ft o with
  | [] => ret tt
  | [q0] => visit_single o q0
  | q =>
      match split_props q with
      | inl e => raise e
      | inr (ids, props) => for_each (combine ids props) (visit_branch o)
      end
  end.

(** The iterator moves to the next index. *)
Definition advance (s : tstate) : tstate :=
  mkT (o_up_ids s) (S (pos s)) (o_dict s) (enq s).

Inductive status : Type :=
| Done
| Raised (e : exn)
| Timeout.

(** [for o in o_up_ids: body]: the iterator yields the item at its index
    while the index is inside the list as it is at that moment. *)
Fixpoint run (fuel : nat) (s : tstate) : tstate * status :=
  match nth_error (o_up_ids s) (pos s) with
  | None => (s, Done)
  | Some o =>
      match fuel with
      | O => (s, Timeout)
      | S fuel' =>
          match body o s with
          | (s', inl e) => (s', Raised e)
          | (s', inr _) => run fuel' (advance s')
          end
      end
  end.

(** The population recorded for the origin itself. *)
Definition origin_pop (origin : reach) : Q :=
  if has_dams dd origin then 100 * attenuation origin else 100.

(** The state before the loop: the origin is in the list and in the
    dict. *)
Definition init (origin : reach) : tstate :=
  mkT [origin] 0
      (dict_set origin (Some (origin_pop origin)) (dict_set origin None []))
      [origin].

Definition traverse (fuel : nat) (origin : reach) : tstate * status :=
  run fuel (init origin).

End Traversal.

(* ===================================================================== *)
(** ** [fish_passage] *)
(* ===================================================================== *)

(** A result DataFrame: the rows of one origin's dict in insertion order
    (columns [uID] and [pass]), named after the first [uID]. *)
Record dataframe : Type := mkDF {
  df_name : reach;
  df_rows : list (reach * option Q)
}.

Definition msg_sa : string :=
  "Stream attribute input must be string 'NONE' or a pandas dataframe...check inputs".
Definition msg_dd : string := "Dams input must be pandas dataframe...check inputs".
Definition msg_ft : string := "From-To input must be pandas dataframe...check inputs".
Definition msg_ori : string := "Origins input must be list...check inputs".
Definition msg_ms : string := "Main stem input must be list...check inputs".
Definition msg_tr : string := "Tributaries input must be pandas dataframe...check inputs".
Definition msg_len : string :=
  "At least one input has length zero...check input tables and lists...check inputs".
Definition msg_pass : string :=
  "Percent passing parameter must be an integer, with possible values of 0 to 100...check inputs".
Definition msg_cutoff : string :=
  "Percent cutoff parameter must be an integer, with possible values of 1 to 100...check inputs".

(** The first test of [fish_passage]: the line printed for an accepted
    [sa], or the exit. *)
Definition check_sa (sa : sa_arg) : exn + string :=
  match sa with
  | SaFrame col _ =>
      inr (String.append "Function will use stream attribute "
             (String.append col " to split population proportionally at confluences..."))
  | SaStr s =>
      if string_dec s "NONE"
      then inr "Function will not split population proportionally at confluences..."
      else inl (SystemExit msg_sa)
  | SaOther => inl (SystemExit msg_sa)
  end.

(** [len(sa)] for an accepted [sa]. *)
Definition len_sa (sa : sa_arg) : nat :=
  match sa with
  | SaFrame _ rows => length rows
  | SaStr s => String.length s
  | SaOther => 0
  end.

(** [for origin in ori]: print, traverse, collect the dict.  The message
    is built with [+] on strings, which raises for an integer origin. *)
Fixpoint passage_loop (fuel : nat) (dd : dam_table) (ft : ft_table)
    (red pct_cutoff : Q) (sa : sa_arg) (ori : list reach) (o_dicts : list odict)
  : list string * outcome (list odict) :=
  match ori with
  | [] => ([], Ok o_dicts)
  | origin :: rest =>
      match origin with
      | IInt _ => ([], Raise TypeError)
      | IStr name =>
          let line := String.append "Analyzing fish passage upstream of "
                        (String.append name ".......") in
          match traverse dd ft red pct_cutoff sa fuel origin with
          | (s, Done) =>
              let (out, r) :=
                passage_loop fuel dd ft red pct_cutoff sa rest (o_dicts ++ [o_dict s]) in
              (line :: out, r)
          | (_, Raised e) => ([line], Raise e)
          | (_, Timeout) => ([line], OutOfFuel)
          end
      end
  end.

(** [for od in o_dicts]: one DataFrame per dict; [df['uID'].iloc[0]] on the
    frame of an empty dict is an [IndexError]. *)
Fixpoint to_frames (o_dicts : list odict) : outcome (list dataframe) :=
  match o_dicts with
  | [] => Ok []
  | od :: rest =>
      match od with
      | [] => Raise IndexError
      | (k, _) :: _ =>
          match to_frames rest with
          | Ok dfs => Ok (mkDF k od :: dfs)
          | Raise e => Raise e
          | OutOfFuel => OutOfFuel
          end
      end
  end.

(** [fish_passage(dd, ori, ft, pct_pass, pct_cutoff, sa)]: the lines
    printed and the outcome.  [fuel] bounds the iterations of each
    origin's loop. *)
Definition fish_passage (fuel : nat) (dd : pyarg dam_table) (ori : pyarg (list reach))
    (ft : pyarg ft_table) (pct_pass pct_cutoff : Q) (sa : sa_arg)
  : list string * outcome (list dataframe) :=
  let out0 := ["Checking inputs..."] in
  match check_sa sa with
  | inl e => (out0, Raise e)
  | inr line =>
      let out1 := out0 ++ [line] in
      match dd, ft, ori with
      | Mistyped, _, _ => (out1, Raise (SystemExit msg_dd))
      | Given _, Mistyped, _ => (out1, Raise (SystemExit msg_ft))
      | Given _, Given _, Mistyped => (out1, Raise (SystemExit msg_ori))
      | Given dd', Given ft', Given ori' =>
          if Nat.eqb (length dd') 0 || Nat.eqb (length ori') 0
             || Nat.eqb (length ft') 0 || Nat.eqb (len_sa sa) 0
          then (out1, Raise (SystemExit msg_len))
          else if Qgtb pct_pass 100 || Qltb pct_pass 0
          then (out1, Raise (SystemExit msg_pass))
          else if Qgtb pct_cutoff 100 || Qltb pct_cutoff 1
          then (out1, Raise (SystemExit msg_cutoff))
          else
            let red := pct_pass / 100 in
            match passage_loop fuel dd' ft' red pct_cutoff sa ori' [] with
            | (out2, Ok o_dicts) => (out1 ++ out2, to_frames o_dicts)
            | (out2, Raise e) => (out1 ++ out2, Raise e)
            | (out2, OutOfFuel) => (out1 ++ out2, OutOfFuel)
            end
      end
  end.

(** The caller's side of a call: the objects it passes (by reference, all
    of them mutable in Python) and the standard output. *)
Record session : Type := mkSession {
  arg_dd : pyarg dam_table;
  arg_ori : pyarg (list reach);
  arg_ft : pyarg ft_table;
  arg_sa : sa_arg;
  stdout : list string
}.

(** A call of [fish_passage] on the caller's objects: what the call leaves
    behind and what it returns. *)
Definition call_fish_passage (fuel : nat) (pct_pass pct_cutoff : Q) (w : session)
  : session * outcome (list dataframe) :=
  let (out, r) :=
    fish_passage fuel (arg_dd w) (arg_ori w) (arg_ft w) pct_pass pct_cutoff (arg_sa w) in
  (mkSession (arg_dd w) (arg_ori w) (arg_ft w) (arg_sa w) (stdout w ++ out), r).

(* ===================================================================== *)
(** ** [find_origins] *)
(* ===================================================================== *)

(** [list(set(l))]: the distinct items of [l]; Python fixes no order, the
    model takes the one of [nodup]. *)
Definition to_set (l : list ident) : list ident := nodup ident_eq_dec l.

(** The loop over the rows of the from-to table. *)
Definition origins_scan (ms : list reach) (ft : ft_table) : list reach :=
  map fst (filter (fun r => mem (snd r) ms && negb (mem (fst r) ms)) ft).

(** [find_origins(ms, ft)] (its progress messages are left out). *)
Definition find_origins (ms : pyarg (list reach)) (ft : pyarg ft_table)
  : outcome (list reach) :=
  match ft, ms with
  | Mistyped, _ => Raise (SystemExit msg_ft)
  | Given _, Mistyped => Raise (SystemExit msg_ms)
  | Given ft', Given ms' =>
      if Nat.eqb (length ms') 0 || Nat.eqb (length ft') 0
      then Raise (SystemExit msg_len)
      else Ok (to_set (origins_scan ms' ft'))
  end.

(* ===================================================================== *)
(** ** [find_main_stems] *)
(* ===================================================================== *)

(** [Series.unique()]: the distinct values in order of first appearance. *)
Fixpoint unique_from (seen : list ident) (l : list ident) : list ident :=
  match l with
  | [] => []
  | x :: l' =>
      if mem x seen then unique_from seen l' else x :: unique_from (x :: seen) l'
  end.

Definition unique (l : list ident) : list ident := unique_from [] l.

(** [reaches = list(tr[tr.iloc[:,0] == trib].iloc[:,1])]. *)
Definition trib_reaches (tr : trib_table) (trib : ident) : list reach :=
  map snd (filter (fun row => ident_eqb (fst row) trib) tr).

(** [ft_sub]: for each reach of the tributary in turn, the from-to rows
    that mention it, concatenated. *)
Definition trib_ft_sub (ft : ft_table) (reaches : list reach) : ft_table :=
  flat_map
    (fun r => filter (fun row => ident_eqb (fst row) r || ident_eqb (snd row) r) ft)
    reaches.

(** [ft_sub[ft_sub.iloc[:,0] == n].iloc[0,1]]. *)
Fixpoint first_down (ft_sub : ft_table) (n : reach) : option reach :=
  match ft_sub with
  | [] => None
  | (f, t) :: rest => if ident_eq_dec f n then Some t else first_down rest n
  end.

(** [for n in not_term_list], a list that grows during the loop; [i] is
    the index of the iterator. *)
Fixpoint main_stem_walk (fuel : nat) (reaches : list reach) (ft_sub : ft_table)
    (not_term_list : list reach) (i : nat) (main_stem_reaches : list reach)
  : outcome (list reach) :=
  match nth_error not_term_list i with
  | None => Ok main_stem_reaches
  | Some n =>
      match fuel with
      | O => OutOfFuel
      | S fuel' =>
          match first_down ft_sub n with
          | None => Raise IndexError
          | Some down =>
              if mem down reaches
              then main_stem_walk fuel' reaches ft_sub (not_term_list ++ [down])
                     (S i) (main_stem_reaches ++ [n])
              else main_stem_walk fuel' reaches ft_sub not_term_list
                     (S i) (main_stem_reaches ++ [n; down])
          end
      end
  end.

(** The main stems of one tributary: [None] when it has no non-terminal
    reach. *)
Definition trib_main_stems (fuel : nat) (tr : trib_table) (ft : ft_table) (trib : ident)
  : option (outcome (list reach)) :=
  let reaches := trib_reaches tr trib in
  let ft_sub := trib_ft_sub ft reaches in
  let not_term_list := filter (fun i => negb (mem i reaches)) (map fst ft_sub) in
  if Nat.ltb 0 (length not_term_list)
  then Some (main_stem_walk fuel reaches ft_sub not_term_list 0 [])
  else None.

(** [for trib in tribs], with the master list [all_main_stem_reaches]. *)
Fixpoint trib_loop (fuel : nat) (tr : trib_table) (ft : ft_table)
    (tribs : list ident) (all_main_stem_reaches : list reach) : outcome (list reach) :=
  match tribs with
  | [] => Ok all_main_stem_reaches
  | trib :: rest =>
      match trib_main_stems fuel tr ft trib with
      | Some (Ok main_stem_reaches) =>
          trib_loop fuel tr ft rest (all_main_stem_reaches ++ main_stem_reaches)
      | Some (Raise e) => Raise e
      | Some OutOfFuel => OutOfFuel
      | None =>
          (* else: all_main_stem_reaches = [] *)
          trib_loop fuel tr ft rest []
      end
  end.

(** [find_main_stems(tr, ft)] (its progress messages are left out). *)
Definition find_main_stems (fuel : nat) (tr : pyarg trib_table) (ft : pyarg ft_table)
  : outcome (list reach) :=
  match tr, ft with
  | Mistyped, _ => Raise (SystemExit msg_tr)
  | Given _, Mistyped => Raise (SystemExit msg_ft)
  | Given tr', Given ft' =>
      if Nat.eqb (length tr') 0 || Nat.eqb (length ft') 0
      then Raise (SystemExit msg_len)
      else
        match trib_loop fuel tr' ft' (unique (map fst tr')) [] with
        | Ok all => Ok (to_set all)
        | Raise e => Raise e
        | OutOfFuel => OutOfFuel
        end
  end.

(* ===================================================================== *)
(** ** The from-to table as a graph *)
(* ===================================================================== *)

(** [up_reach ft a b]: [b] is reached from [a] by one or more upstream
    steps (each step goes from the "to" reach of a row to its "from"
    reach). *)
Inductive up_reach (ft : ft_table) : reach -> reach -> Prop :=
| up_edge a b : In (b, a) ft -> up_reach ft a b
| up_more a b c : In (b, a) ft -> up_reach ft b c -> up_reach ft a c.

(** The upstream-reachability relation has no cycle. *)
Definition acyclic (ft : ft_table) : Prop := forall r, ~ up_reach ft r r.

(* ===================================================================== *)
(** ** Input validation *)
(* ===================================================================== *)

(** The exception of [sys.exit]. *)
Definition is_exit (e : exn) : Prop :=
  match e with SystemExit _ => True | _ => False end.

(** [sa] is the string "NONE" or a DataFrame. *)
Definition sa_accepted (sa : sa_arg) : Prop :=
  match sa with
  | SaFrame _ _ => True
  | SaStr s => s = "NONE"
  | SaOther => False
  end.

(** The inputs the validation of [fish_passage] turns down: an argument
    of the wrong type, an empty table or list, or a percentage out of
    range. *)
Definition invalid_input (dd : pyarg dam_table) (ori : pyarg (list reach))
    (ft : pyarg ft_table) (pct_pass pct_cutoff : Q) (sa : sa_arg) : Prop :=
  ~ sa_accepted sa
  \/ dd = Mistyped \/ ft = Mistyped \/ ori = Mistyped
  \/ dd = Given [] \/ ori = Given [] \/ ft = Given []
  \/ (exists col, sa = SaFrame col [])
  \/ 100 < pct_pass \/ pct_pass < 0
  \/ 100 < pct_cutoff \/ pct_cutoff < 1.

(* ===================================================================== *)
(** ** Bookkeeping of the traversal *)
(* ===================================================================== *)

Section TraversalVocabulary.

Variable dd : dam_table.
Variable ft : ft_table.
Variable red : Q.
Variable pct_cutoff : Q.
Variable origin : reach.

(** The state after [o_up_ids.append(k)] and [o_dict[k] = None]. *)
Definition opened (k : reach) (s : tstate) : tstate :=
  mkT (o_up_ids s ++ [k]) (pos s) (dict_set k None (o_dict s)) (enq s ++ [k]).

(** The five ways a visit of [k] from [o] can end. *)
Inductive visited (o k : reach) (s : tstate) : tstate -> exn + unit -> Prop :=
| v_key :
    dict_get o (o_dict (opened k s)) = None ->
    visited o k s (opened k s) (inl (KeyError o))
| v_none :
    dict_get o (o_dict (opened k s)) = Some None ->
    visited o k s (opened k s) (inl TypeError)
| v_keep x y :
    dict_get o (o_dict (opened k s)) = Some (Some x) ->
    pct_cutoff < y ->
    visited o k s
      (mkT (o_up_ids s ++ [k]) (pos s)
           (dict_set k (Some y) (dict_set k None (o_dict s))) (enq s ++ [k]))
      (inr tt)
| v_drop x y :
    dict_get o (o_dict (opened k s)) = Some (Some x) ->
    y <= pct_cutoff ->
    visited o k s
      (mkT (remove_first k (o_up_ids s ++ [k])) (pos s)
           (dict_del k (dict_set k None (o_dict s))) (enq s ++ [k]))
      (inr tt)
| v_inherit v :
    has_dams dd k = false ->
    dict_get o (o_dict (opened k s)) = Some v ->
    visited o k s
      (mkT (o_up_ids s ++ [k]) (pos s)
           (dict_set k v (dict_set k None (o_dict s))) (enq s ++ [k]))
      (inr tt).

(** A sequence of visits from [o], cut at the first exception. *)
Inductive visits (o : reach) : list reach -> tstate -> tstate -> exn + unit -> Prop :=
| vs_nil s : visits o [] s s (inr tt)
| vs_exn k ks s s' e :
    visited o k s s' (inl e) -> visits o (k :: ks) s s' (inl e)
| vs_cons k ks s s1 s' r :
    visited o k s s1 (inr tt) -> visits o ks s1 s' r ->
    visits o (k :: ks) s s' r.

(** Every listed reach is the origin or upstream of it, and the origin
    still has the entry it was given before the loop. *)
Definition origin_kept (s : tstate) : Prop :=
  (forall r, In r (o_up_ids s) -> r = origin \/ up_reach ft origin r)
  /\ dict_get origin (o_dict s) = Some (Some (origin_pop dd red origin)).

(** Every entry of the dict is a number above the cutoff. *)
Definition above_cutoff (s : tstate) : Prop :=
  forall r v, In (r, v) (o_dict s) -> exists x, v = Some x /\ pct_cutoff < x.

(** Every listed reach was appended and has a dict entry, and every
    key of the dict was appended. *)
Definition tracked (s : tstate) : Prop :=
  (forall r, In r (o_up_ids s) -> In r (enq s))
  /\ (forall r, In r (o_up_ids s) -> dict_get r (o_dict s) <> None)
  /\ (forall r, dict_get r (o_dict s) <> None -> In r (enq s)).

Definition not_key_error (r : exn + unit) : Prop :=
  forall x, r <> inl (KeyError x).

Definition no_key_error (st : status) : Prop :=
  forall x, st <> Raised (KeyError x).

End TraversalVocabulary.

(* ===================================================================== *)
(** ** A measure for termination *)
(* ===================================================================== *)

(** The number of upstream paths of at most [d] steps that start at [r]
    (the path of no step included). *)
Fixpoint up_paths (ft : ft_table) (d : nat) (r : reach) : nat :=
  match d with
  | O => 1
  | S d' => 1 + list_sum (map (up_paths ft d') (ups ft r))
  end.

(** The weight of a reach: its upstream paths of at most [length ft]
    steps (all of them, when the table has no cycle). *)
Definition weight (ft : ft_table) (r : reach) : nat := up_paths ft (length ft) r.

(** The weight of the part of a list from index [n] on. *)
Definition tail_weight (ft : ft_table) (n : nat) (l : list reach) : nat :=
  list_sum (map (weight ft) (skipn n l)).

(** [l] lists the reaches of an upstream path, each one flowing into the
    one before it. *)
Fixpoint up_chain (ft : ft_table) (l : list reach) : Prop :=
  match l with
  | a :: ((b :: _) as t) => In (b, a) ft /\ up_chain ft t
  | _ => True
  end.

(** The weight still to be processed. *)
Definition pending (ft : ft_table) (s : tstate) : nat :=
  tail_weight ft (pos s) (o_up_ids s).

(* ===================================================================== *)
(** ** Vocabulary of the further properties *)
(* ===================================================================== *)

(** The state after a visit that records [v] for [k]. *)
Definition recorded (k : reach) (v : option Q) (s : tstate) : tstate :=
  mkT (o_up_ids s ++ [k]) (pos s) (dict_set k v (o_dict s)) (enq s ++ [k]).

(** The state after a visit that takes [k] out again. *)
Definition dropped (k : reach) (s : tstate) : tstate :=
  mkT (remove_first k (o_up_ids s ++ [k])) (pos s)
      (dict_del k (dict_set k None (o_dict s))) (enq s ++ [k]).

(** Every attribute value of the table is positive. *)
Definition sa_positive (sa : sa_arg) : Prop :=
  match sa with
  | SaFrame _ rows => forall k v, In (k, v) rows -> 0 < v
  | _ => True
  end.

(** [r] is the origin or upstream of it. *)
Definition from_origin (ft : ft_table) (origin : reach)
    (r : reach) : Prop := r = origin \/ up_reach ft origin r.

(** The list and the dict hold only the origin and reaches upstream
    of it. *)
Definition within_upstream (ft : ft_table) (origin : reach) (s : tstate) : Prop :=
  (forall r, In r (o_up_ids s) -> from_origin ft origin r)
  /\ (forall r v, In (r, v) (o_dict s) -> from_origin ft origin r).

(** The dict begins with the entry of the origin. *)
Definition origin_first (origin : reach) (s : tstate) : Prop :=
  exists v rest, o_dict s = (origin, v) :: rest.

(** Every number in the dict lies between 0 and 100. *)
Definition percent_entries (s : tstate) : Prop :=
  forall r x, In (r, Some x) (o_dict s) -> 0 <= x /\ x <= 100.

(** Apart from the origin, the dict holds no reach with a dam. *)
Definition undammed_entries (dd : dam_table) (origin : reach) (s : tstate) : Prop :=
  forall r v, In (r, v) (o_dict s) -> r = origin \/ has_dams dd r = false.

(** Every listed reach has the entry 100, and the dict has no other
    entry. *)
Definition full_entries (s : tstate) : Prop :=
  (forall r, In r (o_up_ids s) -> exists x, dict_get r (o_dict s) = Some (Some x) /\ x == 100)
  /\ (forall r v, In (r, v) (o_dict s) ->
        In r (o_up_ids s) /\ exists x, v = Some x /\ x == 100).

(** The upstream reaches of the reaches already processed are listed. *)
Definition closed_before (ft : ft_table) (s : tstate) : Prop :=
  forall i o, (i < pos s)%nat -> nth_error (o_up_ids s) i = Some o ->
              forall k, In k (ups ft o) -> In k (o_up_ids s).

Definition listing (ft : ft_table) (origin : reach) (s : tstate) : Prop :=
  full_entries s /\ closed_before ft s /\ In origin (o_up_ids s).

(** The invariant of the visits of one iteration, started in [s]. *)
Definition listing_step (s : tstate) (done : list reach) (s1 : tstate) : Prop :=
  full_entries s1 /\ pos s1 = pos s
  /\ (exists ext, o_up_ids s1 = o_up_ids s ++ ext)
  /\ (forall k, In k done -> In k (o_up_ids s1)).

(** [sa] is the string "NONE", or a table that is not empty and has a row
    for every reach of the "from" column of [ft]. *)
Definition sa_covers (ft : ft_table) (sa : sa_arg) : Prop :=
  match sa with
  | SaFrame _ rows =>
      rows <> [] /\ forall f t, In (f, t) ft -> attr_lookup rows f <> None
  | SaStr s => s = "NONE"
  | SaOther => False
  end.

(** The state between two iterations on a tree: the listed reaches are
    distinct, lie upstream of the origin and have a number in the dict;
    every reach ever appended, the origin apart, flows into a reach that
    has been processed. *)
Definition tree_state (ft : ft_table) (origin : reach) (s : tstate) : Prop :=
  (forall r, In r (o_up_ids s) -> exists x, dict_get r (o_dict s) = Some (Some x))
  /\ NoDup (o_up_ids s)
  /\ (forall r, In r (o_up_ids s) -> from_origin ft origin r)
  /\ (forall r, In r (enq s) ->
        r = origin
        \/ exists i o, (i < pos s)%nat /\ nth_error (o_up_ids s) i = Some o /\ In (r, o) ft)
  /\ (forall r, In r (o_up_ids s) -> In r (enq s))
  /\ In origin (o_up_ids s).

(** The state during the iteration started in [s], after the visits of
    the reaches [done]. *)
Definition tree_step (ft : ft_table) (origin : reach)
    (s : tstate) (done : list reach) (s1 : tstate) : Prop :=
  (forall r, In r (o_up_ids s1) -> exists x, dict_get r (o_dict s1) = Some (Some x))
  /\ NoDup (o_up_ids s1)
  /\ (forall r, In r (o_up_ids s1) -> from_origin ft origin r)
  /\ (forall r, In r (enq s1) ->
        r = origin
        \/ (exists i o, (i < pos s)%nat /\ nth_error (o_up_ids s) i = Some o /\ In (r, o) ft)
        \/ In r done)
  /\ (forall r, In r (o_up_ids s1) -> In r (enq s1))
  /\ pos s1 = pos s
  /\ (exists ext, o_up_ids s1 = o_up_ids s ++ ext).

(** The tables and parameters the validation accepts. *)
Definition valid_call (dd : dam_table) (ft : ft_table) (pct_pass pct_cutoff : Q)
    (sa : sa_arg) : Prop :=
  sa_accepted sa /\ dd <> [] /\ ft <> [] /\ (forall col, sa <> SaFrame col [])
  /\ 0 <= pct_pass /\ pct_pass <= 100 /\ 1 <= pct_cutoff /\ pct_cutoff <= 100.

(** [df] is the DataFrame of the traversal of [origin]. *)
Definition origin_result (fuel : nat) (dd : dam_table) (ft : ft_table)
    (red pct_cutoff : Q) (sa : sa_arg) (origin : reach) (df : dataframe) : Prop :=
  (exists name, origin = IStr name)
  /\ exists s, traverse dd ft red pct_cutoff sa fuel origin = (s, Done)
               /\ df_rows df = o_dict s
               /\ exists v rest, o_dict s = (df_name df, v) :: rest.

(** [r] is in a row of the table. *)
Definition in_table (ft : ft_table) (r : reach) : Prop :=
  exists x, In (r, x) ft \/ In (x, r) ft.

(** [r] is a main stem of one of the tributaries [tribs]. *)
Definition stem_of_units (fuel : nat) (tr : trib_table) (ft : ft_table)
    (tribs : list ident) (r : reach) : Prop :=
  exists trib main,
    In trib tribs /\ trib_main_stems fuel tr ft trib = Some (Ok main) /\ In r main.

(** The number of reaches the walk goes through from [n] while it stays
    in the tributary, counted up to depth [d]. *)
Fixpoint down_len (reaches : list reach) (ft_sub : ft_table) (d : nat) (n : reach) : nat :=
  match d with
  | O => 1
  | S d' =>
      match first_down ft_sub n with
      | Some dn => if mem dn reaches then S (down_len reaches ft_sub d' dn) else 1
      | None => 1
      end
  end.

Definition walk_weight (reaches : list reach) (ft_sub : ft_table) (n : reach) : nat :=
  down_len reaches ft_sub (S (length ft_sub)) n.

(** A chain of reaches each flowing into the next, the last one flowing
    somewhere too. *)
Fixpoint out_chain (ft_sub : ft_table) (l : list reach) : Prop :=
  match l with
  | [] => True
  | a :: t =>
      match t with
      | [] => exists b, In (a, b) ft_sub
      | b :: _ => In (a, b) ft_sub
      end /\ out_chain ft_sub t
  end.

(** The fuel that covers the walk of one tributary. *)
Definition trib_bound (tr : trib_table) (ft : ft_table) (trib : ident) : nat :=
  let reaches := trib_reaches tr trib in
  let ft_sub := trib_ft_sub ft reaches in
  list_sum (map (walk_weight reaches ft_sub)
                (filter (fun i => negb (mem i reaches)) (map fst ft_sub))).

(** Every key of the dict was appended, every number of the dict is not
    negative, and every reach of the dict other than the origin flows into
    a reach of the dict whose number is not smaller. *)
Definition decaying (ft : ft_table) (origin : reach) (s : tstate) : Prop :=
  (forall r v, In (r, v) (o_dict s) -> In r (enq s))
  /\ (forall r x, In (r, Some x) (o_dict s) -> 0 <= x)
  /\ (forall r y, In (r, Some y) (o_dict s) ->
        r = origin
        \/ exists o x, In (r, o) ft /\ dict_get o (o_dict s) = Some (Some x) /\ y <= x).

(** The number held for reach [k] in a dict; 0 where the dict has no
    number for it. *)
Definition fraction (d : odict) (k : reach) : Q :=
  match dict_get k d with
  | Some (Some y) => y
  | _ => 0
  end.

(** The sum of the numbers held for the reaches [l]. *)
Definition held (d : odict) (l : list reach) : Q := Qsum (map (fraction d) l).

(** The attribute value of reach [k]; 0 where the table has no row. *)
Definition attr_of (rows : list (reach * Q)) (k : reach) : Q :=
  match attr_lookup rows k with
  | Some v => v
  | None => 0
  end.

(** The share of branch [k] of the confluence [o]. *)
Definition share (ft : ft_table) (rows : list (reach * Q)) (o k : reach) : Q :=
  attr_of rows k / Qsum (map (attr_of rows) (ups ft o)).

(** The branches of a reach of the dict hold together no more than the
    reach itself. *)
Definition conserving (ft : ft_table) (s : tstate) : Prop :=
  forall o x, dict_get o (o_dict s) = Some (Some x) -> held (o_dict s) (ups ft o) <= x.

(** The same during the iteration of [o], which holds [x0], after the
    visits of its branches [done]. *)
Definition conserving_step (ft : ft_table) (rows : list (reach * Q))
    (o : reach) (x0 : Q) (done : list reach) (s1 : tstate) : Prop :=
  dict_get o (o_dict s1) = Some (Some x0)
  /\ (forall o' x', o' <> o -> dict_get o' (o_dict s1) = Some (Some x') ->
        held (o_dict s1) (ups ft o') <= x')
  /\ held (o_dict s1) done <= x0 * Qsum (map (share ft rows o) done).

(** The share of branch [k] of the confluence [o]: 1 with a string for
    [sa], else the attribute value of [k] over the sum of the attribute
    values of the branches. *)
Definition branch_share (ft : ft_table) (sa : sa_arg) (o k : reach) : Q :=
  match sa with
  | SaFrame _ rows => attr_of rows k / Qsum (map (attr_of rows) (ups ft o))
  | _ => 1
  end.

(** What a visit leaves for [k], a reach flowing into [o], when [o] holds
    [x]: the number kept, or nothing when the number fails the cutoff
    test.  The only reach flowing into [o], without dams, takes [x]
    untested. *)
Definition handed_up (dd : dam_table) (ft : ft_table) (red pct_cutoff : Q) (sa : sa_arg)
    (o k : reach) (x : Q) : option Q :=
  match ups ft o with
  | [_] =>
      if has_dams dd k
      then (let y := x * attenuation dd red k in
            if Qgtb y pct_cutoff then Some y else None)
      else Some x
  | _ =>
      let y := if has_dams dd k
               then (x * branch_share ft sa o k) * attenuation dd red k
               else x * branch_share ft sa o k in
      if Qgtb y pct_cutoff then Some y else None
  end.

(** The state after a visit of [k] that leaves [h]. *)
Definition after_visit (k : reach) (h : option Q) (s : tstate) : tstate :=
  match h with
  | Some y => recorded k (Some y) s
  | None => dropped k s
  end.

(** Every key of the dict is in the list. *)
Definition keys_listed (s : tstate) : Prop :=
  forall r v, In (r, v) (o_dict s) -> In r (o_up_ids s).

(** The reaches flowing into a processed reach hold what its visits left
    for them. *)
Definition settled (dd : dam_table) (ft : ft_table) (red : Q) (pct_cutoff : Q) (sa : sa_arg)
    (s : tstate) : Prop :=
  forall i o x k, (i < pos s)%nat -> nth_error (o_up_ids s) i = Some o ->
                  dict_get o (o_dict s) = Some (Some x) -> In k (ups ft o) ->
                  dict_get k (o_dict s) = option_map Some (handed_up dd ft red pct_cutoff sa o k x).

(** The same during the iteration of [o], which holds [x0], started in
    [s], after the visits of its branches [done]. *)
Definition settled_step (dd : dam_table) (ft : ft_table) (red : Q) (pct_cutoff : Q) (sa : sa_arg)
    (s : tstate) (o : reach) (x0 : Q) (done : list reach)
    (s1 : tstate) : Prop :=
  dict_get o (o_dict s1) = Some (Some x0)
  /\ keys_listed s1
  /\ (forall i o' x' k', (i < pos s)%nat -> nth_error (o_up_ids s) i = Some o' ->
        dict_get o' (o_dict s1) = Some (Some x') -> In k' (ups ft o') ->
        dict_get k' (o_dict s1) = option_map Some (handed_up dd ft red pct_cutoff sa o' k' x'))
  /\ (forall k', In k' done -> dict_get k' (o_dict s1) = option_map Some (handed_up dd ft red pct_cutoff sa o k' x0)).

(* ===================================================================== *)
(** ** Example networks *)
(* ===================================================================== *)

Module Net.

Definition A : reach := IStr "A".
Definition B : reach := IStr "B".
Definition C : reach := IStr "C".
Definition D : reach := IStr "D".
Definition E : reach := IStr "E".
Definition X : reach := IStr "X".
Definition dam1 : ident := IStr "dam1".
Definition dam2 : ident := IStr "dam2".
Definition NONE : sa_arg := SaStr "NONE".

(** [B] flows into [A]; one dam on [A]. *)
Definition chain_ft : ft_table := [(B, A)].
Definition chain_dd : dam_table := [(A, dam1)].

(** [B] flows into [A] and [A] into [B]; one dam on [A]. *)
Definition ring_ft : ft_table := [(B, A); (A, B)].

(** [B] and [C] flow into [A]; [D] flows into both [B] and [C] (a braided
    channel); [E] flows into [D].  Dams on [C] and on [D]. *)
Definition braid_ft : ft_table := [(B, A); (C, A); (D, B); (D, C); (E, D)].
Definition braid_dd : dam_table := [(C, dam1); (D, dam2)].

(** [B] and [C] flow into [A]; [D] flows into [B].  One dam on [D]. *)
Definition fork_ft : ft_table := [(B, A); (C, A); (D, B)].
Definition fork_dd : dam_table := [(D, dam1)].
Definition fork_sa : sa_arg := SaFrame "width" [(B, 30); (C, 70); (D, 5)].
(** The same table without a row for [C]. *)
Definition short_sa : sa_arg := SaFrame "width" [(B, 30); (D, 5)].

Definition fork_rank (r : reach) : nat :=
  if ident_eqb r A then 0
  else if ident_eqb r B then 1
  else if ident_eqb r C then 1
  else 2.

(** Two tributaries: [T1] holds [B], entered from [A] and left towards
    [C]; [T2] holds the headwater [X], which flows into [A]. *)
Definition T1 : ident := IStr "T1".
Definition T2 : ident := IStr "T2".
Definition units_tr : trib_table := [(T1, B); (T2, X)].
Definition units_ft : ft_table := [(A, B); (B, C); (X, A)].

End Net.

(* ===================================================================== *)
(** ** Basic facts: identifiers, lists, dictionaries, numbers *)
(* ===================================================================== *)

Lemma ident_eqb_true (a b : ident) : ident_eqb a b = true <-> a = b.
Proof. unfold ident_eqb. destruct (ident_eq_dec a b); split; congruence. Qed.

Lemma ident_eqb_refl (a : ident) : ident_eqb a a = true.
Proof. apply ident_eqb_true. reflexivity. Qed.

Lemma mem_In (x : ident) (l : list ident) : mem x l = true <-> In x l.
Proof.
  unfold mem. rewrite existsb_exists. split.
  - intros [y [Hy He]]. apply ident_eqb_true in He. subst. exact Hy.
  - intros H. exists x. split; [exact H | apply ident_eqb_refl].
Qed.

Lemma mem_false (x : ident) (l : list ident) : mem x l = false <-> ~ In x l.
Proof.
  rewrite <- mem_In. destruct (mem x l); split; intros; congruence.
Qed.

Lemma Qgtb_lt (x y : Q) : Qgtb x y = true <-> y < x.
Proof.
  unfold Qgtb. rewrite negb_true_iff. split.
  - intros H. apply Qnot_le_lt. intros Hle.
    apply Qle_bool_iff in Hle. congruence.
  - intros H. destruct (Qle_bool x y) eqn:E; [|reflexivity].
    apply Qle_bool_iff in E. exfalso. apply (Qlt_not_le _ _ H E).
Qed.

Lemma Qgtb_le (x y : Q) : Qgtb x y = false <-> x <= y.
Proof.
  unfold Qgtb. rewrite negb_false_iff. apply Qle_bool_iff.
Qed.

Lemma Qltb_lt (x y : Q) : Qltb x y = true <-> x < y.
Proof. apply (Qgtb_lt y x). Qed.

Lemma ups_In (ft : ft_table) (o k : reach) : In k (ups ft o) <-> In (k, o) ft.
Proof.
  unfold ups. rewrite in_map_iff. split.
  - intros [[a b] [Hk Hin]]. simpl in Hk. subst a.
    apply filter_In in Hin. destruct Hin as [Hin Hb]. simpl in Hb.
    apply ident_eqb_true in Hb. subst b. exact Hin.
  - intros H. exists (k, o). split; [reflexivity|].
    apply filter_In. split; [exact H | apply ident_eqb_refl].
Qed.

Lemma dict_get_set_same k v d : dict_get k (dict_set k v d) = Some v.
Proof.
  induction d as [|[k' v'] d IH]; simpl.
  - destruct (ident_eq_dec k k); congruence.
  - destruct (ident_eq_dec k' k); simpl.
    + destruct (ident_eq_dec k k); congruence.
    + destruct (ident_eq_dec k' k); congruence.
Qed.

Lemma dict_get_set_other k k' v d :
  k' <> k -> dict_get k' (dict_set k v d) = dict_get k' d.
Proof.
  intros Hne. induction d as [|[k0 v0] d IH]; simpl.
  - destruct (ident_eq_dec k k'); congruence.
  - destruct (ident_eq_dec k0 k); simpl.
    + subst k0. destruct (ident_eq_dec k k'); congruence.
    + destruct (ident_eq_dec k0 k'); congruence.
Qed.

Lemma dict_get_del_other k k' d :
  k' <> k -> dict_get k' (dict_del k d) = dict_get k' d.
Proof.
  intros Hne. induction d as [|[k0 v0] d IH]; simpl; [reflexivity|].
  destruct (ident_eq_dec k0 k); simpl.
  - subst k0. destruct (ident_eq_dec k k'); congruence.
  - destruct (ident_eq_dec k0 k'); congruence.
Qed.

Lemma dict_get_In k v d : dict_get k d = Some v -> In (k, v) d.
Proof.
  induction d as [|[k0 v0] d IH]; simpl; [discriminate|].
  destruct (ident_eq_dec k0 k).
  - intros H. left. congruence.
  - intros H. right. apply IH. exact H.
Qed.

Lemma In_dict_set e k v d : In e (dict_set k v d) -> e = (k, v) \/ In e d.
Proof.
  induction d as [|[k0 v0] d IH]; simpl.
  - intros [H|[]]. left. congruence.
  - destruct (ident_eq_dec k0 k); simpl.
    + intros [H|H]; [left; congruence | right; right; exact H].
    + intros [H|H]; [right; left; exact H|].
      destruct (IH H) as [H1|H1]; [left; exact H1 | right; right; exact H1].
Qed.

Lemma In_dict_del e k d : In e (dict_del k d) -> In e d.
Proof.
  induction d as [|[k0 v0] d IH]; simpl; [tauto|].
  destruct (ident_eq_dec k0 k); simpl.
  - intros H. right. exact H.
  - intros [H|H]; [left; exact H | right; apply IH; exact H].
Qed.

Lemma dict_get_del_absent k d : dict_get k d = None -> dict_del k d = d.
Proof.
  induction d as [|[k0 v0] d IH]; simpl; [reflexivity|].
  destruct (ident_eq_dec k0 k); [discriminate|].
  intros H. rewrite (IH H). reflexivity.
Qed.

Lemma In_remove_first x y l : In y (remove_first x l) -> In y l.
Proof.
  induction l as [|z l IH]; simpl; [tauto|].
  destruct (ident_eq_dec z x).
  - intros H. right. exact H.
  - intros [H|H]; [left; exact H | right; apply IH; exact H].
Qed.

Lemma remove_first_other x y l : y <> x -> In y l -> In y (remove_first x l).
Proof.
  intros Hne. induction l as [|z l IH]; simpl; [tauto|].
  destruct (ident_eq_dec z x).
  - intros [H|H]; [congruence | exact H].
  - intros [H|H]; [left; exact H | right; apply IH; exact H].
Qed.

Lemma remove_first_app_fresh x l : ~ In x l -> remove_first x (l ++ [x]) = l.
Proof.
  induction l as [|z l IH]; simpl.
  - intros _. destruct (ident_eq_dec x x); congruence.
  - intros H. destruct (ident_eq_dec z x).
    + exfalso. apply H. left. exact e.
    + rewrite IH; [reflexivity|]. intros Hx. apply H. right. exact Hx.
Qed.

Lemma length_remove_first_app x l : length (remove_first x (l ++ [x])) = length l.
Proof.
  induction l as [|z l IH]; simpl.
  - destruct (ident_eq_dec x x); [reflexivity | congruence].
  - destruct (ident_eq_dec z x); simpl.
    + rewrite length_app. simpl. lia.
    + rewrite IH. reflexivity.
Qed.

(* ===================================================================== *)
(** ** What one visit of an upstream reach does *)
(* ===================================================================== *)

Section TraversalFacts.

Variable dd : dam_table.
Variable ft : ft_table.
Variable red : Q.
Variable pct_cutoff : Q.
Variable sa : sa_arg.

#[local] Abbreviation visited := (visited dd pct_cutoff).
#[local] Abbreviation visits := (visits dd pct_cutoff).

Lemma mem_app_last k l : mem k (l ++ [k]) = true.
Proof. apply mem_In. apply in_or_app. right. left. reflexivity. Qed.

Lemma keep_or_drop_visited o k x y s :
  dict_get o (o_dict (opened k s)) = Some (Some x) ->
  visited o k s (fst (keep_or_drop pct_cutoff k y (opened k s)))
                (snd (keep_or_drop pct_cutoff k y (opened k s))).
Proof.
  intros Hget. unfold keep_or_drop.
  destruct (Qgtb y pct_cutoff) eqn:Hc.
  - apply Qgtb_lt in Hc. unfold set_item; simpl.
    apply (v_keep dd pct_cutoff o k s x y Hget Hc).
  - apply Qgtb_le in Hc.
    unfold bind, list_remove, del_item; simpl.
    rewrite mem_app_last; simpl.
    rewrite dict_get_set_same.
    apply (v_drop dd pct_cutoff o k s x y Hget Hc).
Qed.

Lemma tested_visited o k y s :
  visited o k s
    (fst ((v <- get_item o ;; x <- as_number v ;;
           keep_or_drop pct_cutoff k (y x)) (opened k s)))
    (snd ((v <- get_item o ;; x <- as_number v ;;
           keep_or_drop pct_cutoff k (y x)) (opened k s))).
Proof.
  unfold bind, get_item.
  destruct (dict_get o (o_dict (opened k s))) as [[x|]|] eqn:Hget.
  - unfold as_number, ret. apply keep_or_drop_visited with (x := x). exact Hget.
  - simpl. apply v_none. exact Hget.
  - simpl. apply v_key. exact Hget.
Qed.

Lemma visit_branch_visited o k p s :
  visited o k s (fst (visit_branch dd red pct_cutoff o (k, p) s))
                (snd (visit_branch dd red pct_cutoff o (k, p) s)).
Proof.
  assert (Heq : visit_branch dd red pct_cutoff o (k, p) s =
                (if has_dams dd k
                 then v <- get_item o ;; x <- as_number v ;;
                      keep_or_drop pct_cutoff k ((x * p) * attenuation dd red k)
                 else v <- get_item o ;; x <- as_number v ;;
                      keep_or_drop pct_cutoff k (x * p)) (opened k s))
    by reflexivity.
  rewrite Heq. destruct (has_dams dd k).
  - apply (tested_visited o k (fun x => (x * p) * attenuation dd red k)).
  - apply (tested_visited o k (fun x => x * p)).
Qed.

Lemma visit_single_visited o k s :
  visited o k s (fst (visit_single dd red pct_cutoff o k s))
                (snd (visit_single dd red pct_cutoff o k s)).
Proof.
  assert (Heq : visit_single dd red pct_cutoff o k s =
                (if has_dams dd k
                 then v <- get_item o ;; x <- as_number v ;;
                      keep_or_drop pct_cutoff k (x * attenuation dd red k)
                 else v <- get_item o ;; set_item k v) (opened k s))
    by reflexivity.
  rewrite Heq. destruct (has_dams dd k) eqn:Hd.
  - apply (tested_visited o k (fun x => x * attenuation dd red k)).
  - unfold bind, get_item.
    destruct (dict_get o (o_dict (opened k s))) as [v|] eqn:Hget.
    + unfold set_item. simpl. apply (v_inherit dd pct_cutoff o k s v Hd Hget).
    + simpl. apply v_key. exact Hget.
Qed.

Lemma for_each_visits o (kps : list (reach * Q)) s :
  visits o (map fst kps) s
    (fst (for_each kps (visit_branch dd red pct_cutoff o) s))
    (snd (for_each kps (visit_branch dd red pct_cutoff o) s)).
Proof.
  revert s. induction kps as [|[k p] kps IH]; intros s.
  - apply vs_nil.
  - change (for_each ((k, p) :: kps) (visit_branch dd red pct_cutoff o) s)
      with (bind (visit_branch dd red pct_cutoff o (k, p))
              (fun _ => for_each kps (visit_branch dd red pct_cutoff o)) s).
    unfold bind. cbn [map fst].
    pose proof (visit_branch_visited o k p s) as Hv.
    destruct (visit_branch dd red pct_cutoff o (k, p) s) as [s1 [e|[]]];
      cbn [fst snd] in *.
    + apply vs_exn. exact Hv.
    + eapply vs_cons; [exact Hv | apply IH].
Qed.

Lemma branch_attrs_length rows q attrs :
  branch_attrs rows q = inr attrs -> length attrs = length q.
Proof.
  revert attrs. induction q as [|a q IH]; simpl; intros attrs H.
  - inversion H. reflexivity.
  - destruct (attr_lookup rows a); [|discriminate].
    destruct (branch_attrs rows q); [discriminate|].
    inversion H. simpl. f_equal. apply IH. reflexivity.
Qed.

Lemma split_props_ids q ids props :
  split_props sa q = inr (ids, props) -> ids = q /\ length props = length q.
Proof.
  unfold split_props. destruct sa as [col rows|str|].
  - destruct (branch_attrs rows q) as [e|attrs] eqn:Hb; [discriminate|].
    intros H. inversion H. subst ids props. split; [reflexivity|].
    rewrite length_map. apply (branch_attrs_length _ _ _ Hb).
  - intros H. inversion H. subst ids props. split; [reflexivity|].
    apply length_map.
  - discriminate.
Qed.

Lemma split_props_exn q e :
  split_props sa q = inl e -> e = IndexError \/ e = AttributeError.
Proof.
  unfold split_props. destruct sa as [col rows|str|].
  - destruct (branch_attrs rows q) as [e'|attrs] eqn:Hb; [|discriminate].
    intros H. inversion H. subst e'. left.
    clear H. revert e Hb. induction q as [|a q IH]; simpl; intros e Hb.
    + discriminate.
    + destruct (attr_lookup rows a); [|congruence].
      destruct (branch_attrs rows q); [|discriminate].
      inversion Hb. subst. apply IH. reflexivity.
  - discriminate.
  - intros H. inversion H. right. reflexivity.
Qed.

Lemma map_fst_combine {X Y} (l : list X) (l' : list Y) :
  length l' = length l -> map fst (combine l l') = l.
Proof.
  revert l'. induction l as [|x l IH]; intros [|y l'] H; simpl in *;
    try reflexivity; try discriminate.
  f_equal. apply IH. lia.
Qed.

(** The loop body is a sequence of visits of the upstream reaches of
    [o], unless the shares of a confluence cannot be computed. *)
Lemma body_visits o s :
  visits o (ups ft o) s (fst (body dd ft red pct_cutoff sa o s))
                        (snd (body dd ft red pct_cutoff sa o s))
  \/ (exists e, body dd ft red pct_cutoff sa o s = (s, inl e)
                /\ (e = IndexError \/ e = AttributeError)).
Proof.
  unfold body. destruct (ups ft o) as [|q0 [|q1 q]] eqn:Hq.
  - left. apply vs_nil.
  - left. pose proof (visit_single_visited o q0 s) as Hv.
    destruct (visit_single dd red pct_cutoff o q0 s) as [s1 [e|[]]];
      cbn [fst snd] in *.
    + apply vs_exn. exact Hv.
    + eapply vs_cons; [exact Hv | apply vs_nil].
  - destruct (split_props sa (q0 :: q1 :: q)) as [e|[ids props]] eqn:Hs.
    + right. exists e. split; [reflexivity|]. apply (split_props_exn _ _ Hs).
    + left. apply split_props_ids in Hs. destruct Hs as [Hids Hlen]. subst ids.
      pose proof (for_each_visits o (combine (q0 :: q1 :: q) props) s) as Hv.
      rewrite (map_fst_combine _ _ Hlen) in Hv. exact Hv.
Qed.

End TraversalFacts.

(* ===================================================================== *)
(** ** Facts on upstream reachability *)
(* ===================================================================== *)

Lemma up_reach_snoc ft a b c : up_reach ft a b -> In (c, b) ft -> up_reach ft a c.
Proof.
  intros H Hc. induction H as [a b Hab | a b d Hab Hbd IH].
  - apply (up_more ft a b c Hab). apply up_edge. exact Hc.
  - apply (up_more ft a b c Hab). apply IH. exact Hc.
Qed.

Lemma up_reach_trans ft a b c : up_reach ft a b -> up_reach ft b c -> up_reach ft a c.
Proof.
  intros H Hc. induction H as [a b Hab | a b d Hab Hbd IH].
  - apply (up_more ft a b c Hab Hc).
  - apply (up_more ft a b c Hab). apply IH. exact Hc.
Qed.

(** A ranking that strictly grows along every row excludes cycles. *)
Lemma ranked_acyclic ft (rank : reach -> nat) :
  (forall f t, In (f, t) ft -> (rank t < rank f)%nat) -> acyclic ft.
Proof.
  intros Hrank.
  assert (Hlt : forall a b, up_reach ft a b -> (rank a < rank b)%nat).
  { intros a b H. induction H as [a b Hab | a b c Hab Hbc IH].
    - apply Hrank. exact Hab.
    - apply Nat.lt_trans with (rank b); [apply Hrank; exact Hab | exact IH]. }
  intros r H. apply Hlt in H. lia.
Qed.

(* ===================================================================== *)
(** ** Invariants of the traversal *)
(* ===================================================================== *)

Lemma dict_set_set k v v0 d : dict_set k v (dict_set k v0 d) = dict_set k v d.
Proof.
  induction d as [|[k' v'] d IH]; simpl.
  - destruct (ident_eq_dec k k); congruence.
  - destruct (ident_eq_dec k' k); simpl.
    + destruct (ident_eq_dec k k); congruence.
    + destruct (ident_eq_dec k' k); congruence.
Qed.

Lemma In_dict_del_set e k v d : In e (dict_del k (dict_set k v d)) -> In e d.
Proof.
  induction d as [|[k' v'] d IH]; simpl.
  - destruct (ident_eq_dec k k); simpl; [tauto | congruence].
  - destruct (ident_eq_dec k' k); simpl.
    + destruct (ident_eq_dec k k); [|congruence]. intros H. right. exact H.
    + destruct (ident_eq_dec k' k); [congruence|].
      intros [H|H]; [left; exact H | right; apply IH; exact H].
Qed.

Section Invariants.

Variable dd : dam_table.
Variable ft : ft_table.
Variable red : Q.
Variable pct_cutoff : Q.
Variable sa : sa_arg.
Variable origin : reach.

#[local] Abbreviation visited := (visited dd pct_cutoff).
#[local] Abbreviation visits := (visits dd pct_cutoff).
#[local] Abbreviation body := (body dd ft red pct_cutoff sa).
#[local] Abbreviation run := (run dd ft red pct_cutoff sa).
#[local] Abbreviation origin_kept := (origin_kept dd ft red origin).
#[local] Abbreviation above_cutoff := (above_cutoff pct_cutoff).

Lemma visited_list o k s s' r :
  visited o k s s' r -> forall x, In x (o_up_ids s') -> In x (o_up_ids s) \/ x = k.
Proof.
  intros Hv x. destruct Hv; simpl; intros Hx;
    try (apply In_remove_first in Hx);
    apply in_app_or in Hx; destruct Hx as [Hx|[Hx|[]]]; auto.
Qed.

Lemma visited_dict_other o k s s' r :
  visited o k s s' r -> forall x, x <> k ->
  dict_get x (o_dict s') = dict_get x (o_dict s).
Proof.
  intros Hv x Hne. destruct Hv; simpl;
    repeat (rewrite ?dict_get_set_other, ?dict_get_del_other by exact Hne);
    reflexivity.
Qed.

Lemma visited_origin_kept o k s s' r :
  k <> origin -> up_reach ft origin k ->
  visited o k s s' r -> origin_kept s -> origin_kept s'.
Proof.
  intros Hne Hup Hv [HL Hd]. split.
  - intros x Hx. destruct (visited_list _ _ _ _ _ Hv x Hx) as [H|H].
    + apply HL. exact H.
    + subst x. right. exact Hup.
  - rewrite (visited_dict_other _ _ _ _ _ Hv origin); [exact Hd|].
    intros E. apply Hne. symmetry. exact E.
Qed.

Lemma visited_above_cutoff o k s s' :
  k <> o ->
  visited o k s s' (inr tt) -> above_cutoff s -> above_cutoff s'.
Proof.
  intros Hne Hv Ha. inversion Hv; subst; intros r v' Hin; simpl in Hin.
  - rewrite dict_set_set in Hin. apply In_dict_set in Hin.
    destruct Hin as [Hin|Hin]; [|apply (Ha r v' Hin)].
    inversion Hin; subst. exists y. split; [reflexivity | assumption].
  - apply In_dict_del_set in Hin. apply (Ha r v' Hin).
  - rewrite dict_set_set in Hin. apply In_dict_set in Hin.
    destruct Hin as [Hin|Hin]; [|apply (Ha r v' Hin)].
    inversion Hin; subst.
    match goal with
    | H : dict_get o (o_dict (opened k s)) = Some _ |- _ =>
        simpl in H; rewrite dict_get_set_other in H
          by (intros E; apply Hne; symmetry; exact E);
        apply dict_get_In in H; apply (Ha o _ H)
    end.
Qed.

Lemma visits_origin_kept o ks s s' r :
  (forall k, In k ks -> k <> origin /\ up_reach ft origin k) ->
  visits o ks s s' r -> origin_kept s -> origin_kept s'.
Proof.
  intros Hks Hv. induction Hv as [s | k ks s s' e Hk | k ks s s1 s' r Hk Hrest IH];
    intros Hinv.
  - exact Hinv.
  - destruct (Hks k (or_introl eq_refl)) as [Hne Hup].
    apply (visited_origin_kept _ _ _ _ _ Hne Hup Hk Hinv).
  - destruct (Hks k (or_introl eq_refl)) as [Hne Hup].
    apply IH.
    + intros k' Hk'. apply Hks. right. exact Hk'.
    + apply (visited_origin_kept _ _ _ _ _ Hne Hup Hk Hinv).
Qed.

Lemma visits_above_cutoff o ks s s' r :
  (forall k, In k ks -> k <> o) ->
  visits o ks s s' r -> r = inr tt -> above_cutoff s -> above_cutoff s'.
Proof.
  intros Hks Hv. induction Hv as [s | k ks s s' e Hk | k ks s s1 s' r Hk Hrest IH];
    intros Hr Hinv.
  - exact Hinv.
  - discriminate.
  - apply IH; [intros k' Hk'; apply Hks; right; exact Hk' | exact Hr |].
    apply (visited_above_cutoff o k s s1); [apply Hks; left; reflexivity | exact Hk | exact Hinv].
Qed.

(** The loop body keeps the origin's entry when the origin is not
    upstream of itself. *)
Lemma body_origin_kept o s :
  ~ up_reach ft origin origin ->
  In o (o_up_ids s) -> origin_kept s ->
  origin_kept (fst (body o s)).
Proof.
  intros Hcyc Ho Hinv.
  destruct (body_visits dd ft red pct_cutoff sa o s) as [Hv | [e [He _]]].
  - refine (visits_origin_kept _ _ _ _ _ _ Hv Hinv).
    intros k Hk. apply ups_In in Hk.
    assert (Hup : up_reach ft origin k).
    { destruct (proj1 Hinv o Ho) as [E|Hr].
      - subst o. apply up_edge. exact Hk.
      - apply (up_reach_snoc _ _ _ _ Hr Hk). }
    split; [|exact Hup]. intros E. subst k. apply Hcyc. exact Hup.
  - rewrite He. exact Hinv.
Qed.

(** The loop body keeps all entries above the cutoff when no reach
    flows into itself. *)
Lemma body_above_cutoff o s s' :
  (forall r, ~ In (r, r) ft) ->
  body o s = (s', inr tt) -> above_cutoff s -> above_cutoff s'.
Proof.
  intros Hloop Hb Hinv.
  destruct (body_visits dd ft red pct_cutoff sa o s) as [Hv | [e [He _]]].
  - rewrite Hb in Hv. simpl in Hv.
    refine (visits_above_cutoff _ _ _ _ _ _ Hv eq_refl Hinv).
    intros k Hk E. subst k. apply ups_In in Hk. apply (Hloop o Hk).
  - rewrite Hb in He. inversion He.
Qed.

Lemma origin_kept_advance s : origin_kept s -> origin_kept (advance s).
Proof. intros H. exact H. Qed.

Lemma run_origin_kept fuel s :
  ~ up_reach ft origin origin ->
  origin_kept s -> origin_kept (fst (run fuel s)).
Proof.
  intros Hcyc. revert s. induction fuel as [|fuel IH]; intros s Hinv; simpl.
  - destruct (nth_error (o_up_ids s) (pos s)); exact Hinv.
  - destruct (nth_error (o_up_ids s) (pos s)) as [o|] eqn:Hn; [|exact Hinv].
    pose proof (body_origin_kept o s Hcyc (nth_error_In _ _ Hn) Hinv) as Hb.
    destruct (body o s) as [s' [e|u]]; simpl in *; [exact Hb|].
    apply IH. exact Hb.
Qed.

Lemma run_above_cutoff fuel s s' :
  (forall r, ~ In (r, r) ft) ->
  run fuel s = (s', Done) -> above_cutoff s -> above_cutoff s'.
Proof.
  intros Hloop. revert s. induction fuel as [|fuel IH]; intros s; simpl.
  - destruct (nth_error (o_up_ids s) (pos s)); intros H; inversion H.
    subst. auto.
  - destruct (nth_error (o_up_ids s) (pos s)) as [o|] eqn:Hn.
    + destruct (body o s) as [s1 [e|[]]] eqn:Hb; [intros H; inversion H|].
      intros Hr Hinv. apply (IH _ Hr).
      apply (body_above_cutoff o s s1 Hloop Hb Hinv).
    + intros H; inversion H. subst. auto.
Qed.

Lemma init_origin_kept : origin_kept (init dd red origin).
Proof.
  split.
  - simpl. intros r [H|[]]. left. symmetry. exact H.
  - unfold init. cbn [o_dict]. apply dict_get_set_same.
Qed.

Lemma init_above_cutoff :
  pct_cutoff < origin_pop dd red origin -> above_cutoff (init dd red origin).
Proof.
  intros Hp r v Hin. unfold init in Hin. cbn [o_dict] in Hin.
  rewrite dict_set_set in Hin. simpl in Hin. destruct Hin as [Hin|[]].
  inversion Hin. subst r v.
  exists (origin_pop dd red origin). split; [reflexivity | exact Hp].
Qed.

End Invariants.

(* ===================================================================== *)
(** ** From the call to the traversals *)
(* ===================================================================== *)

Lemma passage_loop_ok fuel dd ft red pct_cutoff sa ori :
  forall acc out ods,
  passage_loop fuel dd ft red pct_cutoff sa ori acc = (out, Ok ods) ->
  exists ds, ods = acc ++ ds /\
    Forall2 (fun origin d =>
               exists s, traverse dd ft red pct_cutoff sa fuel origin = (s, Done)
                         /\ d = o_dict s) ori ds.
Proof.
  induction ori as [|origin ori IH]; intros acc out ods H; simpl in H.
  - inversion H. subst. exists []. rewrite app_nil_r. split; [reflexivity | constructor].
  - destruct origin as [name|z]; [|inversion H].
    destruct (traverse dd ft red pct_cutoff sa fuel (IStr name)) as [s st] eqn:Ht.
    destruct st; try (inversion H; fail).
    destruct (passage_loop fuel dd ft red pct_cutoff sa ori (acc ++ [o_dict s]))
      as [out' r] eqn:Hl.
    inversion H. subst r.
    destruct (IH _ _ _ Hl) as [ds [Hods Hall]].
    exists (o_dict s :: ds). split.
    + rewrite Hods. rewrite <- app_assoc. reflexivity.
    + constructor; [|exact Hall]. exists s. split; [exact Ht | reflexivity].
Qed.

Lemma to_frames_ok ods :
  forall dfs, to_frames ods = Ok dfs -> Forall2 (fun d df => df_rows df = d) ods dfs.
Proof.
  induction ods as [|od ods IH]; intros dfs H; simpl in H.
  - inversion H. constructor.
  - destruct od as [|[k v] od]; [discriminate|].
    destruct (to_frames ods) as [dfs'| |]; try discriminate.
    inversion H. constructor; [reflexivity | apply IH; reflexivity].
Qed.

(** A call that returns has run one traversal per origin to its end, and
    the rows of the i-th DataFrame are the dict of the i-th origin. *)
Lemma fish_passage_ok fuel dd ori ft pct_pass pct_cutoff sa out dfs :
  fish_passage fuel (Given dd) (Given ori) (Given ft) pct_pass pct_cutoff sa
    = (out, Ok dfs) ->
  Forall2 (fun origin df =>
             exists s, traverse dd ft (pct_pass / 100) pct_cutoff sa fuel origin
                         = (s, Done)
                       /\ df_rows df = o_dict s) ori dfs.
Proof.
  unfold fish_passage. destruct (check_sa sa); [intros H; inversion H|].
  destruct (_ || _ || _ || _); [intros H; inversion H|].
  destruct (_ || _); [intros H; inversion H|].
  destruct (_ || _); [intros H; inversion H|].
  destruct (passage_loop fuel dd ft (pct_pass / 100) pct_cutoff sa ori [])
    as [out2 [ods|e|]] eqn:Hl; intros H; inversion H.
  apply passage_loop_ok in Hl. destruct Hl as [ds [Hods Hall]].
  simpl in Hods. subst ds.
  match goal with Hf : to_frames ods = Ok dfs |- _ => apply to_frames_ok in Hf; rename Hf into Hfr end.
  clear - Hall Hfr. revert dfs Hfr.
  induction Hall as [|origin d ori ods Hod Hall IH]; intros dfs Hfr.
  - inversion Hfr. constructor.
  - inversion Hfr as [|d' df ods' dfs' Hdf Hrest]; subst.
    constructor; [|apply IH; exact Hrest].
    destruct Hod as [s [Ht Hd]]. exists s. split; [exact Ht | congruence].
Qed.

(* ===================================================================== *)
(** ** Exceptions of the traversal *)
(* ===================================================================== *)

Lemma visits_not_exit dd pct_cutoff o ks s s' e :
  visits dd pct_cutoff o ks s s' (inl e) -> ~ is_exit e.
Proof.
  intros H. remember (inl e : exn + unit) as r eqn:Hr. revert e Hr.
  induction H as [s | k ks s s' e0 Hk | k ks s s1 s' r Hk Hrest IH]; intros e Hr.
  - discriminate.
  - inversion Hr; subst. inversion Hk; simpl; tauto.
  - apply IH. exact Hr.
Qed.

Lemma run_not_exit dd ft red pct_cutoff sa fuel :
  forall s s' e, run dd ft red pct_cutoff sa fuel s = (s', Raised e) -> ~ is_exit e.
Proof.
  induction fuel as [|fuel IH]; intros s s' e; simpl.
  - destruct (nth_error (o_up_ids s) (pos s)); discriminate.
  - destruct (nth_error (o_up_ids s) (pos s)) as [o|]; [|discriminate].
    destruct (body_visits dd ft red pct_cutoff sa o s) as [Hv | [e' [He Hk]]].
    + destruct (body dd ft red pct_cutoff sa o s) as [s1 [e1|[]]]; simpl in Hv.
      * intros H. inversion H; subst. apply (visits_not_exit _ _ _ _ _ _ _ Hv).
      * apply IH.
    + rewrite He. intros H. inversion H; subst.
      destruct Hk as [Hk|Hk]; subst; simpl; tauto.
Qed.

Lemma passage_loop_not_exit fuel dd ft red pct_cutoff sa ori :
  forall acc out e,
  passage_loop fuel dd ft red pct_cutoff sa ori acc = (out, Raise e) -> ~ is_exit e.
Proof.
  induction ori as [|origin ori IH]; intros acc out e H; simpl in H.
  - discriminate.
  - destruct origin as [name|z]; [|inversion H; simpl; tauto].
    destruct (traverse dd ft red pct_cutoff sa fuel (IStr name)) as [s st] eqn:Ht.
    destruct st as [|e'|].
    + destruct (passage_loop fuel dd ft red pct_cutoff sa ori (acc ++ [o_dict s]))
        as [out' r] eqn:Hl.
      inversion H; subst. apply (IH _ _ _ Hl).
    + inversion H; subst. apply (run_not_exit _ _ _ _ _ _ _ _ _ Ht).
    + discriminate.
Qed.

Lemma to_frames_not_exit ods e : to_frames ods = Raise e -> ~ is_exit e.
Proof.
  induction ods as [|od ods IH]; simpl; [discriminate|].
  destruct od as [|[k v] od].
  - intros H. inversion H. simpl. tauto.
  - destruct (to_frames ods) as [dfs|e'|]; try discriminate.
    intros H. inversion H; subst. apply IH. reflexivity.
Qed.

(* ===================================================================== *)
(** ** Facts on the input validation *)
(* ===================================================================== *)

Lemma length_zero_nil {X} (l : list X) : Nat.eqb (length l) 0 = true <-> l = [].
Proof. destruct l; simpl; split; intros H; congruence. Qed.

Lemma len_sa_zero sa :
  sa_accepted sa -> (Nat.eqb (len_sa sa) 0 = true <-> exists col, sa = SaFrame col []).
Proof.
  destruct sa as [col rows|str|]; simpl; intros Hacc.
  - rewrite length_zero_nil. split.
    + intros ->. exists col. reflexivity.
    + intros [c H]. inversion H. reflexivity.
  - subst str. simpl. split; [discriminate | intros [c H]; discriminate].
  - contradiction.
Qed.

Lemma check_sa_accepted sa :
  match check_sa sa with
  | inl e => ~ sa_accepted sa /\ e = SystemExit msg_sa
  | inr _ => sa_accepted sa
  end.
Proof.
  destruct sa as [col rows|str|]; simpl; auto.
  destruct (string_dec str "NONE"); simpl; auto.
Qed.

Lemma out_of_range (x lo hi : Q) :
  Qgtb x hi || Qltb x lo = true <-> hi < x \/ x < lo.
Proof. rewrite orb_true_iff, Qgtb_lt, Qltb_lt. reflexivity. Qed.

Lemma some_empty (dd : dam_table) (ori : list reach) (ft : ft_table) sa :
  sa_accepted sa ->
  (Nat.eqb (length dd) 0 || Nat.eqb (length ori) 0
   || Nat.eqb (length ft) 0 || Nat.eqb (len_sa sa) 0 = true
   <-> dd = [] \/ ori = [] \/ ft = [] \/ exists col, sa = SaFrame col []).
Proof.
  intros Hacc. rewrite !orb_true_iff, !length_zero_nil, (len_sa_zero sa Hacc).
  tauto.
Qed.

(** The traversal stops with an [IndexError] at a confluence one of whose
    branches has no row in the attribute table. *)
Lemma confluence_missing_attr dd ft red pct_cutoff col rows fuel s o :
  nth_error (o_up_ids s) (pos s) = Some o ->
  (1 < length (ups ft o))%nat ->
  (exists k, In k (ups ft o) /\ attr_lookup rows k = None) ->
  run dd ft red pct_cutoff (SaFrame col rows) (S fuel) s = (s, Raised IndexError).
Proof.
  intros Hn Hlen [k [Hk Hmiss]]. simpl. rewrite Hn.
  assert (Hattrs : branch_attrs rows (ups ft o) = inl IndexError).
  { clear Hlen. induction (ups ft o) as [|a q IH]; simpl; [contradiction|].
    destruct Hk as [Hk|Hk].
    - subst a. rewrite Hmiss. reflexivity.
    - destruct (attr_lookup rows a); [|reflexivity]. rewrite (IH Hk). reflexivity. }
  unfold body. destruct (ups ft o) as [|q0 [|q1 q]]; simpl in Hlen; try lia.
  unfold split_props. rewrite Hattrs. reflexivity.
Qed.

(* ===================================================================== *)
(** ** Traversals in which no reach is appended twice *)
(* ===================================================================== *)

Lemma NoDup_snoc {X} (l : list X) (x : X) : NoDup (l ++ [x]) -> NoDup l /\ ~ In x l.
Proof.
  intros H. split.
  - apply NoDup_app_remove_r in H. exact H.
  - apply NoDup_remove_2 in H. rewrite app_nil_r in H. exact H.
Qed.

Lemma NoDup_prefix {X} (l ext : list X) : NoDup (l ++ ext) -> NoDup l.
Proof. apply NoDup_app_remove_r. Qed.

Section NoRequeue.

Variable dd : dam_table.
Variable ft : ft_table.
Variable red : Q.
Variable pct_cutoff : Q.
Variable sa : sa_arg.

#[local] Abbreviation visited := (visited dd pct_cutoff).
#[local] Abbreviation visits := (visits dd pct_cutoff).
#[local] Abbreviation body := (body dd ft red pct_cutoff sa).
#[local] Abbreviation run := (run dd ft red pct_cutoff sa).

Lemma visited_enq o k s s' r : visited o k s s' r -> enq s' = enq s ++ [k].
Proof. intros H. destruct H; reflexivity. Qed.

Lemma visits_enq o ks s s' r :
  visits o ks s s' r -> exists ext, enq s' = enq s ++ ext.
Proof.
  intros H. induction H as [s | k ks s s' e Hk | k ks s s1 s' r Hk Hrest IH].
  - exists []. rewrite app_nil_r. reflexivity.
  - exists [k]. apply (visited_enq _ _ _ _ _ Hk).
  - destruct IH as [ext Hext]. exists (k :: ext).
    rewrite Hext, (visited_enq _ _ _ _ _ Hk), <- app_assoc. reflexivity.
Qed.

Lemma body_enq o s : exists ext, enq (fst (body o s)) = enq s ++ ext.
Proof.
  destruct (body_visits dd ft red pct_cutoff sa o s) as [Hv | [e [He _]]].
  - apply (visits_enq _ _ _ _ _ Hv).
  - rewrite He. exists []. rewrite app_nil_r. reflexivity.
Qed.

Lemma run_enq fuel : forall s, exists ext, enq (fst (run fuel s)) = enq s ++ ext.
Proof.
  induction fuel as [|fuel IH]; intros s; simpl.
  - exists []. rewrite app_nil_r. destruct (nth_error _ _); reflexivity.
  - destruct (nth_error (o_up_ids s) (pos s)) as [o|].
    + destruct (body_enq o s) as [ext Hext].
      destruct (body o s) as [s1 [e|u]]; simpl in *.
      * exists ext. exact Hext.
      * destruct (IH (advance s1)) as [ext' Hext'].
        exists (ext ++ ext'). rewrite Hext'. simpl. rewrite Hext, app_assoc.
        reflexivity.
    + exists []. rewrite app_nil_r. reflexivity.
Qed.

(** One visit of a reach that was never appended before. *)
Lemma visited_fresh o k s s' r :
  visited o k s s' r ->
  ~ In k (enq s) -> tracked s -> In o (o_up_ids s) ->
  not_key_error r
  /\ (r = inr tt -> tracked s' /\ In o (o_up_ids s'))
  /\ (forall x, In x (enq s) -> dict_get x (o_dict s') = dict_get x (o_dict s)).
Proof.
  intros Hv Hk [HL [HD HK]] Ho.
  assert (Hko : o <> k). { intros E. subst o. apply Hk. apply HL. exact Ho. }
  assert (HkL : ~ In k (o_up_ids s)). { intros H. apply Hk. apply HL. exact H. }
  assert (Hgo : dict_get o (o_dict (opened k s)) <> None).
  { simpl. rewrite dict_get_set_other by exact Hko. apply HD. exact Ho. }
  assert (Hstable : forall x, In x (enq s) ->
                    dict_get x (o_dict s') = dict_get x (o_dict s)).
  { intros x Hx. apply (visited_dict_other _ _ _ _ _ _ _ Hv).
    intros E. subst x. apply Hk. exact Hx. }
  split; [|split; [|exact Hstable]].
  - intros x E. destruct Hv; try discriminate. congruence.
  - intros Hr.
    assert (Hlist : forall x, In x (o_up_ids s') -> In x (o_up_ids s) \/ x = k)
      by apply (visited_list _ _ _ _ _ _ _ Hv).
    assert (Henq : enq s' = enq s ++ [k]) by apply (visited_enq _ _ _ _ _ Hv).
    assert (Hmono : forall x, In x (o_up_ids s) -> In x (o_up_ids s')).
    { intros x Hx. destruct Hv; simpl; try discriminate;
        try (apply in_or_app; left; exact Hx).
      rewrite remove_first_app_fresh by exact HkL. exact Hx. }
    split; [split; [|split]|].
    + intros x Hx. rewrite Henq. apply in_or_app.
      destruct (Hlist x Hx) as [H|H]; [left; apply HL; exact H | right; left; auto].
    + intros x Hx. destruct (ident_eq_dec x k) as [E|E].
      * subst x. destruct Hv; simpl in *; try discriminate;
          try (rewrite dict_get_set_same; discriminate).
        rewrite remove_first_app_fresh in Hx by exact HkL. contradiction.
      * rewrite (visited_dict_other _ _ _ _ _ _ _ Hv x E).
        apply HD. destruct (Hlist x Hx) as [H|H]; [exact H | contradiction].
    + intros x Hx. rewrite Henq. apply in_or_app.
      destruct (ident_eq_dec x k) as [E|E]; [right; left; auto|].
      left. apply HK. rewrite <- (visited_dict_other _ _ _ _ _ _ _ Hv x E). exact Hx.
    + apply Hmono. exact Ho.
Qed.

Lemma visits_fresh o ks s s' r :
  visits o ks s s' r ->
  NoDup (enq s') -> tracked s -> In o (o_up_ids s) ->
  not_key_error r
  /\ (r = inr tt -> tracked s')
  /\ (forall x, In x (enq s) -> dict_get x (o_dict s') = dict_get x (o_dict s)).
Proof.
  intros H. induction H as [s | k ks s s' e Hk | k ks s s1 s' r Hk Hrest IH];
    intros Hnd Ht Ho.
  - split; [intros x E; discriminate | split; [intros _; exact Ht | reflexivity]].
  - rewrite (visited_enq _ _ _ _ _ Hk) in Hnd. apply NoDup_snoc in Hnd.
    destruct (visited_fresh _ _ _ _ _ Hk (proj2 Hnd) Ht Ho) as [H1 [_ H3]].
    split; [exact H1 | split; [discriminate | exact H3]].
  - destruct (visits_enq _ _ _ _ _ Hrest) as [ext Hext].
    assert (Hnd1 : NoDup (enq s1)).
    { rewrite Hext in Hnd. apply NoDup_prefix in Hnd. exact Hnd. }
    pose proof Hnd1 as Hnd1'.
    rewrite (visited_enq _ _ _ _ _ Hk) in Hnd1'. apply NoDup_snoc in Hnd1'.
    destruct (visited_fresh _ _ _ _ _ Hk (proj2 Hnd1') Ht Ho) as [_ [H2 H3]].
    destruct (H2 eq_refl) as [Ht1 Ho1].
    destruct (IH Hnd Ht1 Ho1) as [I1 [I2 I3]].
    split; [exact I1 | split; [exact I2|]].
    intros x Hx. rewrite I3.
    + apply H3. exact Hx.
    + rewrite (visited_enq _ _ _ _ _ Hk). apply in_or_app. left. exact Hx.
Qed.

Lemma body_fresh o s :
  NoDup (enq (fst (body o s))) -> tracked s -> In o (o_up_ids s) ->
  not_key_error (snd (body o s))
  /\ (snd (body o s) = inr tt -> tracked (fst (body o s)))
  /\ (forall x, In x (enq s) ->
        dict_get x (o_dict (fst (body o s))) = dict_get x (o_dict s)).
Proof.
  intros Hnd Ht Ho.
  destruct (body_visits dd ft red pct_cutoff sa o s) as [Hv | [e [He Hk]]].
  - apply (visits_fresh _ _ _ _ _ Hv Hnd Ht Ho).
  - rewrite He. simpl. split; [|split; [discriminate | reflexivity]].
    intros x E. inversion E as [E']. rewrite E' in Hk.
    destruct Hk; discriminate.
Qed.

(** A run in which no reach is appended twice raises no [KeyError],
    leaves the entries of the reaches appended before it as they are,
    and keeps the list and the dict in step as long as it goes on. *)
Lemma run_fresh fuel : forall s,
  NoDup (enq (fst (run fuel s))) -> tracked s ->
  no_key_error (snd (run fuel s))
  /\ ((forall e, snd (run fuel s) <> Raised e) -> tracked (fst (run fuel s)))
  /\ (forall x, In x (enq s) ->
        dict_get x (o_dict (fst (run fuel s))) = dict_get x (o_dict s)).
Proof.
  induction fuel as [|fuel IH]; intros s; simpl.
  - destruct (nth_error (o_up_ids s) (pos s)); simpl; intros _ Ht;
      (split; [intros x E; discriminate | split; [intros _; exact Ht | reflexivity]]).
  - destruct (nth_error (o_up_ids s) (pos s)) as [o|] eqn:Hn; simpl.
    2:{ intros _ Ht.
        split; [intros x E; discriminate | split; [intros _; exact Ht | reflexivity]]. }
    pose proof (body_fresh o s) as Hb. pose proof (body_enq o s) as He.
    destruct (body o s) as [s1 [e|[]]]; simpl in *.
    + intros Hnd Ht. destruct (Hb Hnd Ht (nth_error_In _ _ Hn)) as [B1 [_ B3]].
      split; [|split; [|exact B3]].
      * intros x E. inversion E as [E']. apply (B1 x). rewrite E'. reflexivity.
      * intros E. exfalso. apply (E e). reflexivity.
    + intros Hnd Ht.
      destruct (run_enq fuel (advance s1)) as [ext Hext]. simpl in Hext.
      assert (Hnd1 : NoDup (enq s1)).
      { rewrite Hext in Hnd. apply NoDup_prefix in Hnd. exact Hnd. }
      destruct (Hb Hnd1 Ht (nth_error_In _ _ Hn)) as [_ [B2 B3]].
      destruct (IH (advance s1) Hnd (B2 eq_refl)) as [I1 [I2 I3]].
      split; [exact I1 | split; [exact I2|]].
      intros x Hx. rewrite I3; simpl.
      * apply B3. exact Hx.
      * destruct He as [ext' He']. rewrite He'. apply in_or_app. left. exact Hx.
Qed.

Lemma init_tracked origin : tracked (init dd red origin).
Proof.
  unfold init, tracked. cbn [o_up_ids o_dict enq]. rewrite dict_set_set.
  split; [auto | split].
  - intros r [H|[]]. subst r. simpl.
    destruct (ident_eq_dec origin origin); congruence.
  - intros r. simpl. destruct (ident_eq_dec origin r); [left; assumption | congruence].
Qed.

(** More fuel continues a run that was cut, and changes nothing in one
    that had come to its end. *)
Lemma run_more n j : forall s,
  run (n + j) s =
    match snd (run n s) with
    | Timeout => run j (fst (run n s))
    | _ => run n s
    end.
Proof.
  induction n as [|n IH]; intros s; simpl.
  - destruct (nth_error (o_up_ids s) (pos s)) as [o|] eqn:Hn; simpl; [reflexivity|].
    destruct j; simpl; rewrite Hn; reflexivity.
  - destruct (nth_error (o_up_ids s) (pos s)) as [o|] eqn:Hn; simpl; [|reflexivity].
    destruct (body o s) as [s1 [e|[]]]; simpl; [reflexivity|].
    apply IH.
Qed.

End NoRequeue.

(* ===================================================================== *)
(** ** Termination on tables without cycles *)
(* ===================================================================== *)

Section Termination.

Variable dd : dam_table.
Variable ft : ft_table.
Variable red : Q.
Variable pct_cutoff : Q.
Variable sa : sa_arg.

#[local] Abbreviation visited := (visited dd pct_cutoff).
#[local] Abbreviation visits := (visits dd pct_cutoff).
#[local] Abbreviation body := (body dd ft red pct_cutoff sa).
#[local] Abbreviation run := (run dd ft red pct_cutoff sa).
#[local] Abbreviation pending := (pending ft).

Lemma list_sum_differs {X} (f g : X -> nat) (l : list X) :
  list_sum (map f l) <> list_sum (map g l) -> exists x, In x l /\ f x <> g x.
Proof.
  induction l as [|a l IH]; simpl; intros H.
  - congruence.
  - destruct (Nat.eq_dec (f a) (g a)) as [E|E].
    + destruct IH as [x [Hx Hfg]]; [lia|]. exists x. auto.
    + exists a. auto.
Qed.

(** Fuel that still adds paths is witnessed by a chain of that length. *)
Lemma up_paths_grow d : forall r,
  up_paths ft (S d) r <> up_paths ft d r ->
  exists l, length l = S d /\ up_chain ft (r :: l).
Proof.
  induction d as [|d IH]; intros r H.
  - simpl in H. destruct (ups ft r) as [|u q] eqn:Hq; [simpl in H; congruence|].
    exists [u]. split; [reflexivity|]. simpl. split; [|exact I].
    apply ups_In. rewrite Hq. left. reflexivity.
  - assert (Hs : list_sum (map (up_paths ft (S d)) (ups ft r))
                 <> list_sum (map (up_paths ft d) (ups ft r))).
    { intros E. apply H. simpl. simpl in E. rewrite E. reflexivity. }
    apply list_sum_differs in Hs. destruct Hs as [u [Hu Hfg]].
    destruct (IH u Hfg) as [l [Hlen Hch]].
    exists (u :: l). split; [simpl; rewrite Hlen; reflexivity|].
    split; [apply ups_In; exact Hu | exact Hch].
Qed.

Lemma up_chain_reach r l :
  up_chain ft (r :: l) ->
  forall x, In x l -> up_reach ft r x /\ In x (map fst ft).
Proof.
  revert r. induction l as [|u l IH]; intros r Hch x Hx; [contradiction|].
  destruct Hch as [Hur Hch]. destruct Hx as [Hx|Hx].
  - subst x. split; [apply up_edge; exact Hur|].
    apply in_map_iff. exists (u, r). auto.
  - destruct (IH u Hch x Hx) as [H1 H2]. split; [|exact H2].
    apply (up_more ft r u x Hur H1).
Qed.

Lemma up_chain_NoDup r l : acyclic ft -> up_chain ft (r :: l) -> NoDup l.
Proof.
  intros Hac. revert r. induction l as [|u l IH]; intros r Hch; constructor.
  - destruct Hch as [_ Hch]. intros Hin.
    destruct (up_chain_reach u l Hch u Hin) as [Hcyc _].
    apply (Hac u Hcyc).
  - destruct Hch as [_ Hch]. apply (IH u Hch).
Qed.

Lemma up_chain_short r l : acyclic ft -> up_chain ft (r :: l) -> (length l <= length ft)%nat.
Proof.
  intros Hac Hch. rewrite <- (length_map fst ft).
  apply NoDup_incl_length; [apply (up_chain_NoDup r l Hac Hch)|].
  intros x Hx. apply (up_chain_reach r l Hch x Hx).
Qed.

(** Without cycles, the weight of a reach is one more than the weights
    of the reaches flowing into it. *)
Lemma weight_ups r :
  acyclic ft -> weight ft r = S (list_sum (map (weight ft) (ups ft r))).
Proof.
  intros Hac. unfold weight.
  destruct (Nat.eq_dec (up_paths ft (S (length ft)) r) (up_paths ft (length ft) r))
    as [E|E].
  - rewrite <- E. reflexivity.
  - apply up_paths_grow in E. destruct E as [l [Hlen Hch]].
    apply (up_chain_short r l Hac) in Hch. lia.
Qed.

Lemma weight_pos r : (1 <= weight ft r)%nat.
Proof. unfold weight. destruct (length ft); simpl; lia. Qed.

Lemma tail_weight_app n l k :
  (n <= length l)%nat ->
  tail_weight ft n (l ++ [k]) = (tail_weight ft n l + weight ft k)%nat.
Proof.
  intros Hn. unfold tail_weight. rewrite skipn_app.
  replace (n - length l)%nat with O by lia. simpl skipn.
  rewrite map_app, list_sum_app. simpl. lia.
Qed.

Lemma tail_weight_S n l : (tail_weight ft (S n) l <= tail_weight ft n l)%nat.
Proof.
  unfold tail_weight. revert n. induction l as [|a l IH]; intros n.
  - destruct n; simpl; lia.
  - destruct n; simpl.
    + lia.
    + apply IH.
Qed.

Lemma tail_weight_remove n k l :
  (tail_weight ft n (remove_first k l) <= tail_weight ft n l)%nat.
Proof.
  revert n. induction l as [|a l IH]; intros n; simpl.
  - lia.
  - destruct (ident_eq_dec a k).
    + destruct n.
      * unfold tail_weight. simpl. lia.
      * change (tail_weight ft (S n) (a :: l)) with (tail_weight ft n l).
        apply tail_weight_S.
    + destruct n.
      * specialize (IH O). unfold tail_weight in *. simpl in *. lia.
      * change (tail_weight ft (S n) (a :: remove_first k l))
          with (tail_weight ft n (remove_first k l)).
        change (tail_weight ft (S n) (a :: l)) with (tail_weight ft n l).
        apply IH.
Qed.

Lemma tail_weight_nth n l o :
  nth_error l n = Some o ->
  tail_weight ft n l = (weight ft o + tail_weight ft (S n) l)%nat.
Proof.
  revert n. induction l as [|a l IH]; intros n H.
  - destruct n; discriminate.
  - destruct n; simpl in H.
    + inversion H. subst. reflexivity.
    + change (tail_weight ft (S n) (a :: l)) with (tail_weight ft n l).
      change (tail_weight ft (S (S n)) (a :: l)) with (tail_weight ft (S n) l).
      apply IH. exact H.
Qed.

(** A visit adds at most the weight of the visited reach behind index
    [n], and does not shorten the list. *)
Lemma visited_weight o k s s' r n :
  visited o k s s' r -> (n <= length (o_up_ids s))%nat ->
  (tail_weight ft n (o_up_ids s') <= tail_weight ft n (o_up_ids s) + weight ft k)%nat
  /\ (length (o_up_ids s) <= length (o_up_ids s'))%nat
  /\ pos s' = pos s.
Proof.
  intros Hv Hn. destruct Hv; unfold opened; cbn [o_up_ids pos];
    try (rewrite tail_weight_app by exact Hn; rewrite length_app;
         cbn [length]; split; [lia | split; [lia | reflexivity]]).
  split; [|split; [|reflexivity]].
  - eapply Nat.le_trans; [apply tail_weight_remove|].
    rewrite tail_weight_app by exact Hn. apply Nat.le_refl.
  - rewrite length_remove_first_app. apply Nat.le_refl.
Qed.

Lemma visits_weight o ks s s' r n :
  visits o ks s s' r -> (n <= length (o_up_ids s))%nat ->
  (tail_weight ft n (o_up_ids s')
     <= tail_weight ft n (o_up_ids s) + list_sum (map (weight ft) ks))%nat
  /\ pos s' = pos s.
Proof.
  intros H. induction H as [s | k ks s s' e Hk | k ks s s1 s' r Hk Hrest IH];
    intros Hn; simpl.
  - lia.
  - destruct (visited_weight _ _ _ _ _ n Hk Hn) as [H1 [_ H3]]. lia.
  - destruct (visited_weight _ _ _ _ _ n Hk Hn) as [H1 [H2 H3]].
    destruct IH as [I1 I2]; [lia|]. split; [lia | congruence].
Qed.

Lemma body_pending o s :
  acyclic ft -> nth_error (o_up_ids s) (pos s) = Some o ->
  (S (pending (advance (fst (body o s)))) <= pending s)%nat.
Proof.
  intros Hac Hn. unfold pending.
  rewrite (tail_weight_nth _ _ _ Hn), (weight_ups o Hac).
  assert (Hlen : (S (pos s) <= length (o_up_ids s))%nat).
  { apply nth_error_Some. congruence. }
  destruct (body_visits dd ft red pct_cutoff sa o s) as [Hv | [e [He _]]].
  - destruct (visits_weight _ _ _ _ _ (S (pos s)) Hv Hlen) as [H1 H2].
    simpl. rewrite H2. lia.
  - rewrite He. simpl. lia.
Qed.

(** With no cycle in the table, a run whose fuel covers the pending
    weight is not cut. *)
Lemma run_enough fuel : forall s,
  acyclic ft -> (pending s <= fuel)%nat -> snd (run fuel s) <> Timeout.
Proof.
  induction fuel as [|fuel IH]; intros s Hac Hp; simpl.
  - destruct (nth_error (o_up_ids s) (pos s)) as [o|] eqn:Hn; [|discriminate].
    exfalso. unfold pending in Hp. rewrite (tail_weight_nth _ _ _ Hn) in Hp.
    pose proof (weight_pos o). lia.
  - destruct (nth_error (o_up_ids s) (pos s)) as [o|] eqn:Hn; [|discriminate].
    pose proof (body_pending o s Hac Hn) as Hb.
    destruct (body o s) as [s1 [e|u]]; simpl in *; [discriminate|].
    apply IH; [exact Hac | lia].
Qed.

(** A run that ends normally has used up the list. *)
Lemma run_done fuel : forall s s',
  run fuel s = (s', Done) -> (length (o_up_ids s') <= pos s')%nat.
Proof.
  induction fuel as [|fuel IH]; intros s s'; simpl.
  - destruct (nth_error (o_up_ids s) (pos s)) eqn:Hn; [discriminate|].
    intros H. inversion H. subst. apply nth_error_None. exact Hn.
  - destruct (nth_error (o_up_ids s) (pos s)) eqn:Hn.
    + destruct (body r s) as [s1 [e|u]]; [discriminate|]. apply IH.
    + intros H. inversion H. subst. apply nth_error_None. exact Hn.
Qed.

End Termination.

(* ===================================================================== *)
(** ** Sums of shares *)
(* ===================================================================== *)

Lemma fold_left_Qplus (l : list Q) : forall acc,
  fold_left Qplus l acc == acc + fold_right Qplus 0 l.
Proof.
  induction l as [|a l IH]; intros acc; simpl.
  - ring.
  - rewrite IH. ring.
Qed.

Lemma Qsum_fold_right (l : list Q) : Qsum l == fold_right Qplus 0 l.
Proof. unfold Qsum. rewrite fold_left_Qplus. ring. Qed.

Lemma Qsum_scaled (l : list Q) (c : Q) :
  Qsum (map (fun val => val / c) l) == Qsum l / c.
Proof.
  rewrite !Qsum_fold_right. induction l as [|a l IH]; simpl.
  - unfold Qdiv. ring.
  - rewrite IH. unfold Qdiv. ring.
Qed.

Lemma Qsum_pos (l : list Q) :
  l <> [] -> (forall v, In v l -> 0 < v) -> 0 < Qsum l.
Proof.
  intros Hne Hpos. rewrite Qsum_fold_right.
  destruct l as [|a l]; [congruence|]. clear Hne. simpl.
  assert (Hnn : 0 <= fold_right Qplus 0 l).
  { assert (Hl : forall v, In v l -> 0 < v) by (intros v Hv; apply Hpos; right; exact Hv).
    clear Hpos. induction l as [|b l IH]; simpl.
    - apply Qle_refl.
    - assert (0 < b) by (apply Hl; left; reflexivity).
      assert (0 <= fold_right Qplus 0 l) by (apply IH; intros v Hv; apply Hl; right; exact Hv).
      lra. }
  assert (0 < a) by (apply Hpos; left; reflexivity).
  lra.
Qed.

Lemma branch_attrs_total rows q :
  (forall k, In k q -> exists v, attr_lookup rows k = Some v /\ 0 < v) ->
  exists attrs,
    branch_attrs rows q = inr attrs
    /\ Forall2 (fun k v => attr_lookup rows k = Some v) q attrs
    /\ (forall v, In v attrs -> 0 < v).
Proof.
  induction q as [|a q IH]; intros H.
  - exists []. split; [reflexivity | split; [constructor | intros v []]].
  - destruct (H a (or_introl eq_refl)) as [va [Ha Hva]].
    destruct IH as [attrs [Hb [Hall Hv]]];
      [intros k Hk; apply H; right; exact Hk|].
    exists (va :: attrs). simpl. rewrite Ha, Hb.
    split; [reflexivity | split; [constructor; assumption|]].
    intros v [E|Hin]; [subst v; exact Hva | apply Hv; exact Hin].
Qed.

Lemma branch_attrs_values rows q attrs :
  branch_attrs rows q = inr attrs ->
  forall v, In v attrs -> exists k, In k q /\ attr_lookup rows k = Some v.
Proof.
  revert attrs. induction q as [|a q IH]; simpl; intros attrs H v Hv.
  - inversion H. subst. contradiction.
  - destruct (attr_lookup rows a) as [va|] eqn:Ha; [|discriminate].
    destruct (branch_attrs rows q) as [e|vs]; [discriminate|].
    inversion H. subst attrs. destruct Hv as [Hv|Hv].
    + subst v. exists a. auto.
    + destruct (IH vs eq_refl v Hv) as [k [Hk Hl]]. exists k. auto.
Qed.

Lemma fork_acyclic : acyclic Net.fork_ft.
Proof.
  apply (ranked_acyclic _ Net.fork_rank).
  intros f t [H|[H|[H|[]]]]; inversion H; subst; vm_compute; lia.
Qed.

Lemma chain_acyclic : acyclic Net.chain_ft.
Proof.
  apply (ranked_acyclic _ Net.fork_rank).
  intros f t [H|[]]; inversion H; subst; vm_compute; lia.
Qed.

Lemma braid_acyclic : acyclic Net.braid_ft.
Proof.
  apply (ranked_acyclic _
           (fun r => if ident_eqb r Net.A then 0
                     else if ident_eqb r Net.B then 1
                     else if ident_eqb r Net.C then 1
                     else if ident_eqb r Net.D then 2 else 3)%nat).
  intros f t [H|[H|[H|[H|[H|[]]]]]]; inversion H; subst; vm_compute; lia.
Qed.

(* ===================================================================== *)
(** ** The scenarios of the specification, run on the model *)
(* ===================================================================== *)

(** Scenario A: in the network 1 -> 2 -> 3 nothing flows into reach 1, and
    the result of origin 1 is the origin alone, at 100. *)
Example scenario_A :
  o_dict (fst (traverse [(IStr "2", IStr "dam")]
                 [(IStr "1", IStr "2"); (IStr "2", IStr "3")]
                 (50 / 100) 1 (SaStr "NONE") 5 (IStr "1")))
  = [(IStr "1", Some 100)].
Proof. vm_compute. reflexivity. Qed.

(** Scenario B: reaches 6 and 7 flow into 5, with attribute values 30 and
    70 and no dam: the shares are 0.3 and 0.7, the fractions 30 and 70. *)
Example scenario_B :
  exists p6 p7 f6 f7,
    split_props (SaFrame "attr" [(IStr "6", 30); (IStr "7", 70)]) [IStr "6"; IStr "7"]
    = inr ([IStr "6"; IStr "7"], [p6; p7])
    /\ p6 == 3 # 10 /\ p7 == 7 # 10
    /\ traverse [] [(IStr "6", IStr "5"); (IStr "7", IStr "5")] (50 / 100) 1
         (SaFrame "attr" [(IStr "6", 30); (IStr "7", 70)]) 5 (IStr "5")
       = (mkT [IStr "5"; IStr "6"; IStr "7"] 3
              [(IStr "5", Some 100); (IStr "6", Some f6); (IStr "7", Some f7)]
              [IStr "5"; IStr "6"; IStr "7"], Done)
    /\ f6 == 30 /\ f7 == 70.
Proof.
  do 4 eexists. split; [vm_compute; reflexivity|].
  split; [reflexivity|]. split; [reflexivity|].
  split; [vm_compute; reflexivity|]. split; reflexivity.
Qed.

(** Scenario C: the same confluence without splitting: both branches get
    the full fraction. *)
Example scenario_C :
  o_dict (fst (traverse [] [(IStr "6", IStr "5"); (IStr "7", IStr "5")] (50 / 100) 1
                 (SaStr "NONE") 5 (IStr "5")))
  = [(IStr "5", Some 100); (IStr "6", Some (100 * 1)); (IStr "7", Some (100 * 1))].
Proof. vm_compute. reflexivity. Qed.

(** Scenario D: three dams at a pass rate of 50 attenuate by 0.125. *)
Example scenario_D :
  attenuation [(IStr "r", IStr "d1"); (IStr "r", IStr "d2"); (IStr "r", IStr "d3")]
    (50 / 100) (IStr "r") == 125 # 1000.
Proof. reflexivity. Qed.

(* ===================================================================== *)
(** ** The claims *)
(* ===================================================================== *)

(** The boundary of the cutoff test: a tested branch whose fraction is
    not above the cutoff (equal to it included) is taken out of the list
    and of the dict again. *)
Lemma cutoff_boundary_dropped pct_cutoff k red_pop s :
  red_pop <= pct_cutoff ->
  keep_or_drop pct_cutoff k red_pop (opened k s) =
    (mkT (remove_first k (o_up_ids s ++ [k])) (pos s)
         (dict_del k (dict_set k None (o_dict s))) (enq s ++ [k]), inr tt).
Proof.
  intros H. apply Qgtb_le in H. unfold keep_or_drop. rewrite H.
  unfold bind, list_remove, del_item. simpl.
  rewrite mem_app_last. simpl. rewrite dict_get_set_same. reflexivity.
Qed.

Lemma tested_eq pct_cutoff o k (y : Q -> Q) s x :
  dict_get o (o_dict (opened k s)) = Some (Some x) ->
  (v <- get_item o ;; x <- as_number v ;; keep_or_drop pct_cutoff k (y x)) (opened k s)
  = keep_or_drop pct_cutoff k (y x) (opened k s).
Proof. intros H. unfold bind, get_item. rewrite H. reflexivity. Qed.

Lemma dict_del_set_absent k v d :
  dict_get k d = None -> dict_del k (dict_set k v d) = d.
Proof.
  induction d as [|[k' v'] d IH]; simpl.
  - intros _. destruct (ident_eq_dec k k); congruence.
  - destruct (ident_eq_dec k' k); [discriminate|]. intros H. simpl.
    destruct (ident_eq_dec k' k); [congruence|]. rewrite (IH H). reflexivity.
Qed.

Lemma Forall2_impl_In {X Y} (P Q : X -> Y -> Prop) (l : list X) (l' : list Y) :
  (forall x y, In x l -> P x y -> Q x y) -> Forall2 P l l' -> Forall2 Q l l'.
Proof.
  intros H HF. induction HF as [|x y l l' Hxy HF IH].
  - constructor.
  - constructor.
    + apply H; [left; reflexivity | exact Hxy].
    + apply IH. intros x' y' Hin. apply H. right. exact Hin.
Qed.




(** C2: [find_main_stems] does not return the union of the per-tributary
    main stems.  Tributary [T1] has the main stems [A], [B], [C];
    tributary [T2], processed after it, has no non-terminal reach, and the
    call returns the empty list.  With the two tributaries in the other
    order the same tables give [A], [B], [C]. *)
Theorem main_stems_reset_by_empty_unit :
  trib_main_stems 10 Net.units_tr Net.units_ft Net.T1 = Some (Ok [Net.A; Net.B; Net.C])
  /\ trib_main_stems 10 Net.units_tr Net.units_ft Net.T2 = None
  /\ find_main_stems 10 (Given Net.units_tr) (Given Net.units_ft) = Ok []
  /\ find_main_stems 10 (Given (rev Net.units_tr)) (Given Net.units_ft)
     = Ok [Net.A; Net.B; Net.C].
Proof. repeat split; vm_compute; reflexivity. Qed.



(** C4 (as amended): when [fish_passage] returns and no origin is
    upstream of itself, the DataFrame of every origin maps the origin to
    [100 * (pct_pass / 100) ^ k], [k] being the number of rows of the
    origin in the dam table, and so to 100 when there is none. *)
Theorem origin_entry fuel dd ori ft pct_pass pct_cutoff sa out dfs :
  (forall origin, In origin ori -> ~ up_reach ft origin origin) ->
  fish_passage fuel (Given dd) (Given ori) (Given ft) pct_pass pct_cutoff sa
    = (out, Ok dfs) ->
  Forall2 (fun origin df =>
             exists v, dict_get origin (df_rows df) = Some (Some v)
                       /\ v == 100 * (pct_pass / 100) ^ Z.of_nat (dam_ct dd origin)
                       /\ (dam_ct dd origin = O -> v == 100))
          ori dfs.
Proof.
  intros Hcyc Hcall. apply fish_passage_ok in Hcall.
  refine (Forall2_impl_In _ _ _ _ _ Hcall).
  intros origin df Hin [s [Ht Hrows]]. rewrite Hrows. unfold traverse in Ht.
  exists (origin_pop dd (pct_pass / 100) origin). split.
  - pose proof (run_origin_kept dd ft (pct_pass / 100) pct_cutoff sa origin fuel
                  (init dd (pct_pass / 100) origin) (Hcyc origin Hin)
                  (init_origin_kept dd ft (pct_pass / 100) origin)) as Hk.
    rewrite Ht in Hk. exact (proj2 Hk).
  - unfold origin_pop, has_dams, attenuation.
    destruct (dam_ct dd origin) as [|n] eqn:Hct; simpl Nat.eqb; cbn [negb].
    + split; [|intros _; reflexivity]. simpl. ring.
    + split; [reflexivity | discriminate].
Qed.

Lemma origin_entry_witness :
  exists out dfs,
    fish_passage 10 (Given Net.chain_dd) (Given [Net.A]) (Given Net.chain_ft) 50 1
      Net.NONE = (out, Ok dfs)
    /\ Forall2 (fun origin df =>
                  exists v, dict_get origin (df_rows df) = Some (Some v)
                            /\ v == 100 * (50 / 100) ^ Z.of_nat (dam_ct Net.chain_dd origin)
                            /\ (dam_ct Net.chain_dd origin = O -> v == 100))
               [Net.A] dfs.
Proof.
  eexists. eexists. split.
  - vm_compute. reflexivity.
  - eapply (origin_entry 10 Net.chain_dd [Net.A] Net.chain_ft 50 1 Net.NONE).
    + intros origin _. apply chain_acyclic.
    + vm_compute. reflexivity.
Defined.

(** C4, refuted as stated.  On the ring [A <-> B] with a dam on the origin
    [A], [pct_pass = 50] and [pct_cutoff = 30], the call returns and the
    result of origin [A] has no entry for [A]. *)
Lemma origin_dropped_on_ring :
  exists v,
    snd (fish_passage 10 (Given Net.chain_dd) (Given [Net.A]) (Given Net.ring_ft)
           50 30 Net.NONE)
    = Ok [mkDF Net.B [(Net.B, Some v)]]
    /\ dict_get Net.A [(Net.B, Some v)] = None.
Proof.
  eexists. split; vm_compute; reflexivity.
Qed.




(** The same failure seen from the call: on the braided network
    [fish_passage] raises the [KeyError]. *)
Lemma braided_key_error :
  snd (fish_passage 10 (Given Net.braid_dd) (Given [Net.A]) (Given Net.braid_ft)
         50 30 Net.NONE) = Raise (KeyError Net.D).
Proof. vm_compute. reflexivity. Qed.

(** C6: on a non-empty main-stem list and a non-empty from-to table,
    [find_origins] returns, without repetition, exactly the "from" reaches
    of the rows whose "to" reach is a main stem and whose "from" reach is
    not; so no returned origin is a main stem. *)
Theorem find_origins_exact (ms : list reach) (ft : ft_table) :
  ms <> [] -> ft <> [] ->
  exists origins,
    find_origins (Given ms) (Given ft) = Ok origins
    /\ NoDup origins
    /\ (forall x, In x origins <-> exists t, In (x, t) ft /\ In t ms /\ ~ In x ms)
    /\ (forall x, In x origins -> ~ In x ms).
Proof.
  intros Hms Hft. exists (to_set (origins_scan ms ft)).
  assert (Hiff : forall x, In x (to_set (origins_scan ms ft))
                 <-> exists t, In (x, t) ft /\ In t ms /\ ~ In x ms).
  { intros x. unfold to_set, origins_scan. rewrite nodup_In, in_map_iff. split.
    - intros [[f t] [Hf Hin]]. simpl in Hf. subst f.
      apply filter_In in Hin. destruct Hin as [Hin Hc]. simpl in Hc.
      apply andb_true_iff in Hc. destruct Hc as [Ht Hx].
      apply mem_In in Ht. apply negb_true_iff, mem_false in Hx.
      exists t. auto.
    - intros [t [Hin [Ht Hx]]]. exists (x, t). split; [reflexivity|].
      apply filter_In. split; [exact Hin|]. simpl.
      apply andb_true_iff. split; [apply mem_In; exact Ht|].
      apply negb_true_iff, mem_false. exact Hx. }
  split; [|split; [apply NoDup_nodup | split; [exact Hiff|]]].
  - unfold find_origins.
    destruct ms as [|m ms]; [congruence|]. destruct ft as [|row ft]; [congruence|].
    reflexivity.
  - intros x Hx. apply Hiff in Hx. destruct Hx as [t [_ [_ Hx]]]. exact Hx.
Qed.

Lemma find_origins_exact_witness :
  exists origins,
    find_origins (Given [Net.A; Net.B; Net.C]) (Given Net.units_ft) = Ok origins
    /\ NoDup origins
    /\ (forall x, In x origins <->
                  exists t, In (x, t) Net.units_ft /\ In t [Net.A; Net.B; Net.C]
                            /\ ~ In x [Net.A; Net.B; Net.C])
    /\ (forall x, In x origins -> ~ In x [Net.A; Net.B; Net.C]).
Proof.
  apply (find_origins_exact [Net.A; Net.B; Net.C] Net.units_ft); discriminate.
Defined.




(** C9: with the integer 5 as origin identifier the call raises a
    [TypeError] (the progress message is built with [+] on a string and
    the origin), where the same network labelled with the string "5"
    returns its result. *)
Theorem integer_origin_raises :
  snd (fish_passage 10 (Given [(IInt 6, IInt 1)]) (Given [IInt 5])
         (Given [(IInt 6, IInt 5); (IInt 7, IInt 5)]) 50 1 Net.NONE)
  = Raise TypeError
  /\ exists v6 v7,
       snd (fish_passage 10 (Given [(IStr "6", IStr "1")]) (Given [IStr "5"])
              (Given [(IStr "6", IStr "5"); (IStr "7", IStr "5")]) 50 1 Net.NONE)
       = Ok [mkDF (IStr "5") [(IStr "5", Some 100); (IStr "6", Some v6);
                              (IStr "7", Some v7)]]
       /\ v6 == 50 /\ v7 == 100.
Proof.
  split; [vm_compute; reflexivity|].
  eexists. eexists. split; [vm_compute; reflexivity|]. split; reflexivity.
Qed.

(** C10: in a traversal in which no reach is appended to [o_up_ids] more
    than once, no lookup in [o_dict] raises a [KeyError], and the fraction
    recorded for a reach the loop has already taken from the list is still
    recorded for it at every later point of the traversal. *)
Theorem no_requeue_safe dd ft red pct_cutoff sa origin (n m : nat) :
  (n <= m)%nat ->
  NoDup (enq (fst (traverse dd ft red pct_cutoff sa m origin))) ->
  (forall k, snd (traverse dd ft red pct_cutoff sa m origin) <> Raised (KeyError k))
  /\ (forall i r x,
        (i < pos (fst (traverse dd ft red pct_cutoff sa n origin)))%nat ->
        nth_error (o_up_ids (fst (traverse dd ft red pct_cutoff sa n origin))) i
          = Some r ->
        dict_get r (o_dict (fst (traverse dd ft red pct_cutoff sa n origin)))
          = Some (Some x) ->
        dict_get r (o_dict (fst (traverse dd ft red pct_cutoff sa m origin)))
          = Some (Some x)).
Proof.
  intros Hnm Hnd. unfold traverse in *.
  set (s0 := init dd red origin) in *.
  pose proof (init_tracked dd red origin) as Ht0. fold s0 in Ht0.
  split.
  - apply (run_fresh dd ft red pct_cutoff sa m s0 Hnd Ht0).
  - intros i r x _ Hi Hget.
    replace m with (n + (m - n))%nat in * by lia.
    rewrite run_more in *.
    destruct (snd (run dd ft red pct_cutoff sa n s0)) eqn:Hst;
      try (exact Hget).
    set (s1 := fst (run dd ft red pct_cutoff sa n s0)) in *.
    destruct (run_enq dd ft red pct_cutoff sa (m - n) s1) as [ext Hext].
    assert (Hnd1 : NoDup (enq s1)).
    { rewrite Hext in Hnd. apply NoDup_prefix in Hnd. exact Hnd. }
    destruct (run_fresh dd ft red pct_cutoff sa n s0 Hnd1 Ht0) as [_ [Ht1 _]].
    assert (Htr : tracked s1).
    { apply Ht1. intros e. rewrite Hst. discriminate. }
    destruct (run_fresh dd ft red pct_cutoff sa (m - n) s1 Hnd Htr) as [_ [_ Hstab]].
    rewrite Hstab; [exact Hget|].
    apply (proj1 Htr). apply (nth_error_In _ _ Hi).
Qed.

Lemma no_requeue_safe_witness :
  (forall k, snd (traverse Net.fork_dd Net.fork_ft (50 / 100) 1 Net.fork_sa 5 Net.A)
             <> Raised (KeyError k))
  /\ (forall i r x,
        (i < pos (fst (traverse Net.fork_dd Net.fork_ft (50 / 100) 1 Net.fork_sa 2 Net.A)))%nat ->
        nth_error (o_up_ids (fst (traverse Net.fork_dd Net.fork_ft (50 / 100) 1
                                    Net.fork_sa 2 Net.A))) i = Some r ->
        dict_get r (o_dict (fst (traverse Net.fork_dd Net.fork_ft (50 / 100) 1
                                   Net.fork_sa 2 Net.A))) = Some (Some x) ->
        dict_get r (o_dict (fst (traverse Net.fork_dd Net.fork_ft (50 / 100) 1
                                   Net.fork_sa 5 Net.A))) = Some (Some x)).
Proof.
  apply (no_requeue_safe Net.fork_dd Net.fork_ft (50 / 100) 1 Net.fork_sa Net.A 2 5).
  - lia.
  - vm_compute. repeat constructor; simpl; intuition discriminate.
Defined.

(* ===================================================================== *)
(** ** Further properties: reasoning on the loop body *)
(* ===================================================================== *)

(** An invariant indexed by the items already processed goes through a
    [for] loop that ends normally. *)
Lemma for_each_inv {A} (f : A -> M unit) (J : list A -> tstate -> Prop) (l : list A) :
  (forall done a s1 s2, In a l -> J done s1 -> f a s1 = (s2, inr tt) -> J (done ++ [a]) s2) ->
  forall done s s',
    J done s -> for_each l f s = (s', inr tt) -> J (done ++ l) s'.
Proof.
  induction l as [|a l IH]; intros Hstep done s s' HJ Hrun.
  - simpl in Hrun. inversion Hrun. subst. rewrite app_nil_r. exact HJ.
  - change (for_each (a :: l) f s) with (bind (f a) (fun _ => for_each l f) s) in Hrun.
    unfold bind in Hrun. destruct (f a s) as [s1 [e|[]]] eqn:Hfa; [discriminate|].
    replace (done ++ a :: l) with ((done ++ [a]) ++ l)
      by (rewrite <- app_assoc; reflexivity).
    apply (IH (fun done' a' s1' s2' Hin => Hstep done' a' s1' s2' (or_intror Hin))
              (done ++ [a]) s1 s').
    + apply (Hstep done a s s1 (or_introl eq_refl) HJ Hfa).
    + exact Hrun.
Qed.

(** The same for a loop each of whose steps is shown to end normally. *)
Lemma for_each_safe {A} (f : A -> M unit) (J : list A -> tstate -> Prop) (l : list A) :
  (forall done a s1, In a l -> J done s1 ->
     snd (f a s1) = inr tt /\ J (done ++ [a]) (fst (f a s1))) ->
  forall done s,
    J done s ->
    snd (for_each l f s) = inr tt /\ J (done ++ l) (fst (for_each l f s)).
Proof.
  induction l as [|a l IH]; intros Hstep done s HJ.
  - simpl. rewrite app_nil_r. split; [reflexivity | exact HJ].
  - change (for_each (a :: l) f s) with (bind (f a) (fun _ => for_each l f) s).
    unfold bind. destruct (Hstep done a s (or_introl eq_refl) HJ) as [Hok HJ1].
    destruct (f a s) as [s1 [e|[]]]; simpl in Hok, HJ1; [discriminate|].
    replace (done ++ a :: l) with ((done ++ [a]) ++ l)
      by (rewrite <- app_assoc; reflexivity).
    apply (IH (fun done' a' s1' Hin => Hstep done' a' s1' (or_intror Hin))
              (done ++ [a]) s1 HJ1).
Qed.

Lemma in_combine_fst {X Y} (l : list X) (l' : list Y) x y :
  In (x, y) (combine l l') -> In x l /\ In y l'.
Proof.
  intros H. split; [apply (in_combine_l _ _ _ _ H) | apply (in_combine_r _ _ _ _ H)].
Qed.

Section BodyReasoning.

Variable dd : dam_table.
Variable ft : ft_table.
Variable red : Q.
Variable pct_cutoff : Q.
Variable sa : sa_arg.

#[local] Abbreviation loop_body := (body dd ft red pct_cutoff sa).
#[local] Abbreviation loop := (run dd ft red pct_cutoff sa).
#[local] Abbreviation single := (visit_single dd red pct_cutoff).
#[local] Abbreviation branch := (visit_branch dd red pct_cutoff).

(** An invariant indexed by the upstream reaches already visited goes
    through a loop body that ends normally. *)
Lemma body_inv (J : list reach -> tstate -> Prop) (o : reach) (s s' : tstate) :
  (forall k s1 s2, ups ft o = [k] -> J [] s1 ->
     single o k s1 = (s2, inr tt) -> J [k] s2) ->
  (forall ids props done k p s1 s2,
     (1 < length (ups ft o))%nat ->
     split_props sa (ups ft o) = inr (ids, props) ->
     In (k, p) (combine ids props) -> J done s1 ->
     branch o (k, p) s1 = (s2, inr tt) -> J (done ++ [k]) s2) ->
  J [] s -> loop_body o s = (s', inr tt) -> J (ups ft o) s'.
Proof.
  intros Hsingle Hbranch HJ. unfold body.
  destruct (ups ft o) as [|q0 [|q1 q]] eqn:Hq.
  - intros H. inversion H. subst. exact HJ.
  - intros H. apply (Hsingle q0 s s' eq_refl HJ H).
  - destruct (split_props sa (q0 :: q1 :: q)) as [e|[ids props]] eqn:Hs;
      [intros H; inversion H|].
    intros Hrun.
    pose proof (split_props_ids sa _ _ _ Hs) as [Hids Hlen].
    pose proof (for_each_inv (branch o)
                  (fun done st => J (map fst done) st) (combine ids props)) as Hfe.
    specialize (Hfe (fun done a s1 s2 Hin HJ1 Hv =>
      match a as a0 return In a0 (combine ids props) ->
                           branch o a0 s1 = (s2, inr tt) ->
                           J (map fst (done ++ [a0])) s2 with
      | (k, p) => fun Hin' Hv' =>
          eq_ind_r (fun l => J l s2)
            (Hbranch ids props (map fst done) k p s1 s2
                     ltac:(simpl; lia) eq_refl Hin' HJ1 Hv')
            (map_app fst done [(k, p)])
      end Hin Hv)).
    specialize (Hfe [] s s' HJ Hrun). simpl in Hfe.
    rewrite Hids in Hfe. rewrite (map_fst_combine _ _ Hlen) in Hfe. exact Hfe.
Qed.

(** An invariant kept by every iteration that ends normally holds as
    long as the loop is not ended by an exception. *)
Lemma run_inv (I : tstate -> Prop) :
  (forall s o s', nth_error (o_up_ids s) (pos s) = Some o -> I s ->
     loop_body o s = (s', inr tt) -> I (advance s')) ->
  forall fuel s,
    I s -> (forall e, snd (loop fuel s) <> Raised e) -> I (fst (loop fuel s)).
Proof.
  intros Hstep. induction fuel as [|fuel IH]; intros s HI Hraise; simpl in *.
  - destruct (nth_error (o_up_ids s) (pos s)); exact HI.
  - destruct (nth_error (o_up_ids s) (pos s)) as [o|] eqn:Hn; [|exact HI].
    destruct (loop_body o s) as [s1 [e|[]]] eqn:Hb; simpl in *.
    + exfalso. apply (Hraise e). reflexivity.
    + apply IH; [apply (Hstep s o s1 Hn HI Hb) | exact Hraise].
Qed.

(** When every iteration from a state of the invariant ends normally,
    the loop raises nothing. *)
Lemma run_safe (I : tstate -> Prop) :
  (forall s o, nth_error (o_up_ids s) (pos s) = Some o -> I s ->
     snd (loop_body o s) = inr tt /\ I (advance (fst (loop_body o s)))) ->
  forall fuel s,
    I s -> (forall e, snd (loop fuel s) <> Raised e) /\ I (fst (loop fuel s)).
Proof.
  intros Hstep. induction fuel as [|fuel IH]; intros s HI; simpl.
  - destruct (nth_error (o_up_ids s) (pos s)); split; try discriminate; exact HI.
  - destruct (nth_error (o_up_ids s) (pos s)) as [o|] eqn:Hn;
      [|split; [discriminate | exact HI]].
    destruct (Hstep s o Hn HI) as [Hok HI1].
    destruct (loop_body o s) as [s1 [e|[]]]; simpl in *; [discriminate|].
    apply IH. exact HI1.
Qed.

End BodyReasoning.

(* ===================================================================== *)
(** ** Further properties: the outcome of a visit, with its value *)
(* ===================================================================== *)

Lemma keep_or_drop_cases pct_cutoff k y s :
  keep_or_drop pct_cutoff k y (opened k s) =
    if Qgtb y pct_cutoff then (recorded k (Some y) s, inr tt) else (dropped k s, inr tt).
Proof.
  destruct (Qgtb y pct_cutoff) eqn:Hc.
  - unfold keep_or_drop. rewrite Hc.
    unfold set_item, recorded. simpl. rewrite dict_set_set. reflexivity.
  - apply cutoff_boundary_dropped. apply Qgtb_le. exact Hc.
Qed.

(** A tested visit that ends normally: the fraction [y] computed from the
    fraction [x] of [o] is recorded when above the cutoff, and [k] is
    taken out again otherwise. *)
Lemma tested_ok pct_cutoff o k (y : Q -> Q) s s2 :
  (v <- get_item o ;; x <- as_number v ;; keep_or_drop pct_cutoff k (y x)) (opened k s)
    = (s2, inr tt) ->
  exists x, dict_get o (o_dict (opened k s)) = Some (Some x)
            /\ ((pct_cutoff < y x /\ s2 = recorded k (Some (y x)) s)
                \/ (y x <= pct_cutoff /\ s2 = dropped k s)).
Proof.
  unfold bind, get_item.
  destruct (dict_get o (o_dict (opened k s))) as [[x|]|] eqn:Hget;
    try (simpl; discriminate).
  unfold as_number, ret. rewrite keep_or_drop_cases.
  destruct (Qgtb (y x) pct_cutoff) eqn:Hc; intros H; inversion H; exists x;
    (split; [reflexivity|]).
  - left. split; [apply Qgtb_lt; exact Hc | reflexivity].
  - right. split; [apply Qgtb_le; exact Hc | reflexivity].
Qed.

Lemma visit_branch_ok dd red pct_cutoff o k p s s2 :
  visit_branch dd red pct_cutoff o (k, p) s = (s2, inr tt) ->
  exists x y,
    dict_get o (o_dict (opened k s)) = Some (Some x)
    /\ y = (if has_dams dd k then (x * p) * attenuation dd red k else x * p)
    /\ ((pct_cutoff < y /\ s2 = recorded k (Some y) s)
        \/ (y <= pct_cutoff /\ s2 = dropped k s)).
Proof.
  change (visit_branch dd red pct_cutoff o (k, p) s)
    with ((if has_dams dd k
           then v <- get_item o ;; x <- as_number v ;;
                keep_or_drop pct_cutoff k ((x * p) * attenuation dd red k)
           else v <- get_item o ;; x <- as_number v ;;
                keep_or_drop pct_cutoff k (x * p)) (opened k s)).
  destruct (has_dams dd k); intros H; apply tested_ok in H;
    destruct H as [x [Hget Hc]]; exists x; eexists;
    (split; [exact Hget | split; [reflexivity | exact Hc]]).
Qed.

Lemma visit_single_ok dd red pct_cutoff o k s s2 :
  visit_single dd red pct_cutoff o k s = (s2, inr tt) ->
  (has_dams dd k = true
   /\ exists x y,
        dict_get o (o_dict (opened k s)) = Some (Some x)
        /\ y = x * attenuation dd red k
        /\ ((pct_cutoff < y /\ s2 = recorded k (Some y) s)
            \/ (y <= pct_cutoff /\ s2 = dropped k s)))
  \/ (has_dams dd k = false
      /\ exists v, dict_get o (o_dict (opened k s)) = Some v /\ s2 = recorded k v s).
Proof.
  change (visit_single dd red pct_cutoff o k s)
    with ((if has_dams dd k
           then v <- get_item o ;; x <- as_number v ;;
                keep_or_drop pct_cutoff k (x * attenuation dd red k)
           else v <- get_item o ;; set_item k v) (opened k s)).
  destruct (has_dams dd k); intros H.
  - left. split; [reflexivity|]. apply tested_ok in H.
    destruct H as [x [Hget Hc]]. exists x. eexists.
    split; [exact Hget | split; [reflexivity | exact Hc]].
  - right. split; [reflexivity|]. unfold bind, get_item in H.
    destruct (dict_get o (o_dict (opened k s))) as [v|] eqn:Hget; [|discriminate].
    exists v. split; [reflexivity|]. unfold set_item in H. simpl in H.
    inversion H. unfold recorded. rewrite dict_set_set. reflexivity.
Qed.

(** The two shapes of the state after a visit that ends normally. *)
Lemma visit_branch_shape dd red pct_cutoff o k p s s2 :
  visit_branch dd red pct_cutoff o (k, p) s = (s2, inr tt) ->
  (exists v, s2 = recorded k v s) \/ s2 = dropped k s.
Proof.
  intros H. apply visit_branch_ok in H.
  destruct H as [x [y [_ [_ [[_ H]|[_ H]]]]]]; [left; eexists; exact H | right; exact H].
Qed.

Lemma visit_single_shape dd red pct_cutoff o k s s2 :
  visit_single dd red pct_cutoff o k s = (s2, inr tt) ->
  (exists v, s2 = recorded k v s) \/ s2 = dropped k s.
Proof.
  intros H. apply visit_single_ok in H.
  destruct H as [[_ [x [y [_ [_ [[_ H]|[_ H]]]]]]] | [_ [v [_ H]]]];
    [left; eexists; exact H | right; exact H | left; eexists; exact H].
Qed.

(** What a visit may change in the list and in the dict. *)
Lemma recorded_list k v s x : In x (o_up_ids (recorded k v s)) -> In x (o_up_ids s) \/ x = k.
Proof.
  simpl. intros H. apply in_app_or in H. destruct H as [H|[H|[]]]; auto.
Qed.

Lemma dropped_list k s x : In x (o_up_ids (dropped k s)) -> In x (o_up_ids s) \/ x = k.
Proof.
  simpl. intros H. apply In_remove_first in H.
  apply in_app_or in H. destruct H as [H|[H|[]]]; auto.
Qed.

Lemma recorded_dict k v s e : In e (o_dict (recorded k v s)) -> e = (k, v) \/ In e (o_dict s).
Proof. simpl. apply In_dict_set. Qed.

Lemma dropped_dict k s e : In e (o_dict (dropped k s)) -> In e (o_dict s).
Proof. simpl. apply In_dict_del_set. Qed.

(** A call that returns has passed the validation. *)
Lemma fish_passage_ok_valid fuel dd ori ft pct_pass pct_cutoff sa out dfs :
  fish_passage fuel dd ori ft pct_pass pct_cutoff sa = (out, Ok dfs) ->
  sa_accepted sa
  /\ 0 <= pct_pass /\ pct_pass <= 100 /\ 1 <= pct_cutoff /\ pct_cutoff <= 100.
Proof.
  unfold fish_passage. pose proof (check_sa_accepted sa) as Hsa.
  destruct (check_sa sa); [intros H; inversion H|].
  destruct dd; [|intros H; inversion H]. destruct ft; [|intros H; inversion H].
  destruct ori; [|intros H; inversion H].
  destruct (_ || _ || _ || _); [intros H; inversion H|].
  destruct (Qgtb pct_pass 100 || Qltb pct_pass 0) eqn:Hp; [intros H; inversion H|].
  destruct (Qgtb pct_cutoff 100 || Qltb pct_cutoff 1) eqn:Hc; [intros H; inversion H|].
  intros _. apply orb_false_iff in Hp, Hc. destruct Hp as [Hp1 Hp2], Hc as [Hc1 Hc2].
  apply Qgtb_le in Hp1, Hc1. apply (Qgtb_le 0 pct_pass) in Hp2.
  apply (Qgtb_le 1 pct_cutoff) in Hc2. auto.
Qed.

(* ===================================================================== *)
(** ** Further properties of [fish_passage] *)
(* ===================================================================== *)

Lemma to_frames_named ods :
  forall dfs, to_frames ods = Ok dfs ->
  Forall2 (fun d df => df_rows df = d
                       /\ exists v rest, d = (df_name df, v) :: rest) ods dfs.
Proof.
  induction ods as [|od ods IH]; intros dfs H; simpl in H.
  - inversion H. constructor.
  - destruct od as [|[k v] od]; [discriminate|].
    destruct (to_frames ods) as [dfs'| |]; try discriminate.
    inversion H. constructor; [|apply IH; reflexivity].
    simpl. split; [reflexivity|]. exists v, od. reflexivity.
Qed.

(** A call that returns: one DataFrame per origin, in the order of the
    origins; its rows are the dict the traversal of the origin ended with,
    and its name is the first key of that dict. *)
Lemma fish_passage_ok_named fuel dd ori ft pct_pass pct_cutoff sa out dfs :
  fish_passage fuel (Given dd) (Given ori) (Given ft) pct_pass pct_cutoff sa
    = (out, Ok dfs) ->
  Forall2 (fun origin df =>
             exists s, traverse dd ft (pct_pass / 100) pct_cutoff sa fuel origin
                         = (s, Done)
                       /\ df_rows df = o_dict s
                       /\ exists v rest, o_dict s = (df_name df, v) :: rest) ori dfs.
Proof.
  unfold fish_passage. destruct (check_sa sa); [intros H; inversion H|].
  destruct (_ || _ || _ || _); [intros H; inversion H|].
  destruct (_ || _); [intros H; inversion H|].
  destruct (_ || _); [intros H; inversion H|].
  destruct (passage_loop fuel dd ft (pct_pass / 100) pct_cutoff sa ori [])
    as [out2 [ods|e|]] eqn:Hl; intros H; inversion H.
  apply passage_loop_ok in Hl. destruct Hl as [ds [Hods Hall]].
  simpl in Hods. subst ds.
  match goal with
  | Hf : to_frames ods = Ok dfs |- _ => apply to_frames_named in Hf; rename Hf into Hfr
  end.
  clear - Hall Hfr. revert dfs Hfr.
  induction Hall as [|origin d ori ods Hod Hall IH]; intros dfs Hfr.
  - inversion Hfr. constructor.
  - inversion Hfr as [|d' df ods' dfs' Hdf Hrest]; subst.
    constructor; [|apply IH; exact Hrest].
    destruct Hod as [s [Ht Hd]]. destruct Hdf as [Hrows Hname].
    exists s. split; [exact Ht|]. subst d. split; [exact Hrows | exact Hname].
Qed.

Section ReachedSet.

Variable dd : dam_table.
Variable ft : ft_table.
Variable red : Q.
Variable pct_cutoff : Q.
Variable sa : sa_arg.
Variable origin : reach.

#[local] Abbreviation from_origin := (from_origin ft origin).
#[local] Abbreviation within_upstream := (within_upstream ft origin).
#[local] Abbreviation origin_first := (origin_first origin).

Lemma shape_within_upstream k s s2 :
  from_origin k -> within_upstream s ->
  (exists v, s2 = recorded k v s) \/ s2 = dropped k s ->
  within_upstream s2.
Proof.
  intros Hk [HL HD] [[v ->]| ->]; split.
  - intros r Hr. destruct (recorded_list _ _ _ _ Hr) as [H|H]; [auto | subst; exact Hk].
  - intros r v' Hr. destruct (recorded_dict _ _ _ _ Hr) as [H|H].
    + inversion H. subst. exact Hk.
    + apply (HD r v' H).
  - intros r Hr. destruct (dropped_list _ _ _ Hr) as [H|H]; [auto | subst; exact Hk].
  - intros r v' Hr. apply (HD r v'). apply (dropped_dict _ _ _ Hr).
Qed.

Lemma shape_origin_first k s s2 :
  k <> origin -> origin_first s ->
  (exists v, s2 = recorded k v s) \/ s2 = dropped k s ->
  origin_first s2.
Proof.
  intros Hne [v0 [rest Hd]] [[v ->]| ->]; unfold origin_first; simpl; rewrite Hd; simpl.
  - destruct (ident_eq_dec origin k); [congruence|]. eauto.
  - destruct (ident_eq_dec origin k); [congruence|]. simpl.
    destruct (ident_eq_dec origin k); [congruence|]. eauto.
Qed.

Lemma from_origin_ups o k : from_origin o -> In k (ups ft o) -> up_reach ft origin k.
Proof.
  intros [->|Ho] Hk; apply ups_In in Hk.
  - apply up_edge. exact Hk.
  - apply (up_reach_snoc _ _ _ _ Ho Hk).
Qed.

Lemma body_within_upstream o s s' :
  In o (o_up_ids s) -> within_upstream s ->
  body dd ft red pct_cutoff sa o s = (s', inr tt) -> within_upstream s'.
Proof.
  intros Ho Hinv Hb.
  assert (Hfo : from_origin o) by (apply (proj1 Hinv); exact Ho).
  refine (body_inv dd ft red pct_cutoff sa (fun _ st => within_upstream st) o s s'
            _ _ Hinv Hb).
  - intros k s1 s2 Hq HJ Hv. apply (shape_within_upstream k s1 s2); [|exact HJ|].
    + right. apply (from_origin_ups o k Hfo). rewrite Hq. left. reflexivity.
    + apply (visit_single_shape _ _ _ _ _ _ _ Hv).
  - intros ids props done k p s1 s2 _ Hs Hin HJ Hv.
    apply (shape_within_upstream k s1 s2); [|exact HJ|].
    + right. apply (from_origin_ups o k Hfo).
      apply split_props_ids in Hs. destruct Hs as [<- _].
      apply (in_combine_fst _ _ _ _ Hin).
    + apply (visit_branch_shape _ _ _ _ _ _ _ _ Hv).
Qed.

Lemma body_origin_first o s s' :
  ~ up_reach ft origin origin ->
  In o (o_up_ids s) -> within_upstream s /\ origin_first s ->
  body dd ft red pct_cutoff sa o s = (s', inr tt) ->
  within_upstream s' /\ origin_first s'.
Proof.
  intros Hcyc Ho Hinv Hb.
  assert (Hfo : from_origin o) by (apply (proj1 (proj1 Hinv)); exact Ho).
  assert (Hkid : forall k, In k (ups ft o) -> from_origin k /\ k <> origin).
  { intros k Hk. pose proof (from_origin_ups o k Hfo Hk) as Hup.
    split; [right; exact Hup|]. intros E. subst k. apply Hcyc. exact Hup. }
  refine (body_inv dd ft red pct_cutoff sa
            (fun _ st => within_upstream st /\ origin_first st) o s s' _ _ Hinv Hb).
  - intros k s1 s2 Hq [HJ1 HJ2] Hv.
    destruct (Hkid k) as [Hk1 Hk2]; [rewrite Hq; left; reflexivity|].
    pose proof (visit_single_shape _ _ _ _ _ _ _ Hv) as Hsh.
    split; [apply (shape_within_upstream k s1 s2 Hk1 HJ1 Hsh)
           | apply (shape_origin_first k s1 s2 Hk2 HJ2 Hsh)].
  - intros ids props done k p s1 s2 _ Hs Hin [HJ1 HJ2] Hv.
    destruct (Hkid k) as [Hk1 Hk2].
    { apply split_props_ids in Hs. destruct Hs as [<- _].
      apply (in_combine_fst _ _ _ _ Hin). }
    pose proof (visit_branch_shape _ _ _ _ _ _ _ _ Hv) as Hsh.
    split; [apply (shape_within_upstream k s1 s2 Hk1 HJ1 Hsh)
           | apply (shape_origin_first k s1 s2 Hk2 HJ2 Hsh)].
Qed.

Lemma init_within_upstream : within_upstream (init dd red origin).
Proof.
  unfold init, within_upstream. cbn [o_up_ids o_dict]. rewrite dict_set_set. simpl.
  split.
  - intros r [H|[]]. left. symmetry. exact H.
  - intros r v [H|[]]. left. inversion H. reflexivity.
Qed.

Lemma init_origin_first : origin_first (init dd red origin).
Proof.
  unfold init, origin_first. cbn [o_dict]. rewrite dict_set_set. simpl. eauto.
Qed.

Lemma traverse_within_upstream fuel s :
  traverse dd ft red pct_cutoff sa fuel origin = (s, Done) -> within_upstream s.
Proof.
  intros Ht. unfold traverse in Ht.
  pose proof (run_inv dd ft red pct_cutoff sa within_upstream) as Hri.
  specialize (Hri (fun s0 o s1 Hn HI Hb =>
                     body_within_upstream o s0 s1 (nth_error_In _ _ Hn) HI Hb)).
  specialize (Hri fuel (init dd red origin) init_within_upstream).
  rewrite Ht in Hri. apply Hri. simpl. discriminate.
Qed.

Lemma traverse_origin_first fuel s :
  ~ up_reach ft origin origin ->
  traverse dd ft red pct_cutoff sa fuel origin = (s, Done) -> origin_first s.
Proof.
  intros Hcyc Ht. unfold traverse in Ht.
  pose proof (run_inv dd ft red pct_cutoff sa
                (fun st => within_upstream st /\ origin_first st)) as Hri.
  specialize (Hri (fun s0 o s1 Hn HI Hb =>
                     body_origin_first o s0 s1 Hcyc (nth_error_In _ _ Hn) HI Hb)).
  specialize (Hri fuel (init dd red origin)
                (conj init_within_upstream init_origin_first)).
  rewrite Ht in Hri. apply Hri. simpl. discriminate.
Qed.

End ReachedSet.

(** X1: every reach in the result of an origin is the origin itself or a
    reach upstream of it in the from-to table. *)
Theorem results_within_upstream fuel dd ori ft pct_pass pct_cutoff sa out dfs :
  fish_passage fuel (Given dd) (Given ori) (Given ft) pct_pass pct_cutoff sa
    = (out, Ok dfs) ->
  Forall2 (fun origin df =>
             forall r v, In (r, v) (df_rows df) -> r = origin \/ up_reach ft origin r)
          ori dfs.
Proof.
  intros Hcall. apply fish_passage_ok in Hcall.
  refine (Forall2_impl_In _ _ _ _ _ Hcall).
  intros origin df _ [s [Ht Hrows]] r v Hin. rewrite Hrows in Hin.
  apply traverse_within_upstream in Ht. apply (proj2 Ht r v Hin).
Qed.

Lemma results_within_upstream_witness :
  exists out dfs,
    fish_passage 10 (Given Net.fork_dd) (Given [Net.A]) (Given Net.fork_ft) 50 1
      Net.fork_sa = (out, Ok dfs)
    /\ Forall2 (fun origin df =>
                  forall r v, In (r, v) (df_rows df) ->
                              r = origin \/ up_reach Net.fork_ft origin r)
               [Net.A] dfs.
Proof.
  eexists. eexists. split.
  - vm_compute. reflexivity.
  - refine (results_within_upstream 10 Net.fork_dd [Net.A] Net.fork_ft 50 1
              Net.fork_sa _ _ _).
    vm_compute. reflexivity.
Defined.

(** X2: when no origin is upstream of itself, a call that returns gives
    as many DataFrames as there are origins, in their order, and each is
    named after its origin, whose row is its first row. *)
Theorem frames_named_after_origins fuel dd ori ft pct_pass pct_cutoff sa out dfs :
  (forall origin, In origin ori -> ~ up_reach ft origin origin) ->
  fish_passage fuel (Given dd) (Given ori) (Given ft) pct_pass pct_cutoff sa
    = (out, Ok dfs) ->
  length dfs = length ori
  /\ Forall2 (fun origin df =>
                df_name df = origin
                /\ exists v rest, df_rows df = (origin, v) :: rest) ori dfs.
Proof.
  intros Hcyc Hcall. apply fish_passage_ok_named in Hcall.
  split; [symmetry; apply (Forall2_length Hcall)|].
  refine (Forall2_impl_In _ _ _ _ _ Hcall).
  intros origin df Hin [s [Ht [Hrows [v [rest Hname]]]]].
  apply traverse_origin_first in Ht; [|apply Hcyc; exact Hin].
  destruct Ht as [v0 [rest0 Hd]]. rewrite Hd in Hname. inversion Hname. subst.
  split; [reflexivity|]. rewrite Hrows, Hd. eauto.
Qed.

Lemma frames_named_after_origins_witness :
  exists out dfs,
    fish_passage 10 (Given Net.fork_dd) (Given [Net.A; Net.B]) (Given Net.fork_ft) 50 1
      Net.fork_sa = (out, Ok dfs)
    /\ length dfs = length [Net.A; Net.B]
    /\ Forall2 (fun origin df =>
                  df_name df = origin
                  /\ exists v rest, df_rows df = (origin, v) :: rest)
               [Net.A; Net.B] dfs.
Proof.
  eexists. eexists. split.
  - vm_compute. reflexivity.
  - refine (frames_named_after_origins 10 Net.fork_dd [Net.A; Net.B] Net.fork_ft 50 1
              Net.fork_sa _ _ _ _).
    + intros origin _. apply fork_acyclic.
    + vm_compute. reflexivity.
Defined.

(* --------------------------------------------------------------------- *)
(** *** Bounds on the recorded fractions *)

Lemma attr_lookup_In rows k v : attr_lookup rows k = Some v -> In (k, v) rows.
Proof.
  induction rows as [|[k' v'] rows IH]; simpl; [discriminate|].
  destruct (ident_eq_dec k' k).
  - intros H. left. congruence.
  - intros H. right. apply IH. exact H.
Qed.

Lemma Qsum_member (l : list Q) (v : Q) :
  (forall x, In x l -> 0 < x) -> In v l -> v <= Qsum l.
Proof.
  intros Hpos Hv. rewrite Qsum_fold_right.
  induction l as [|a l IH]; [contradiction|]. simpl.
  assert (Hnn : 0 <= fold_right Qplus 0 l).
  { clear IH Hv. induction l as [|b l IHl]; simpl; [apply Qle_refl|].
    assert (0 < b) by (apply Hpos; right; left; reflexivity).
    assert (0 <= fold_right Qplus 0 l).
    { apply IHl. intros x [Hx|Hx]; apply Hpos; [left; exact Hx | right; right; exact Hx]. }
    lra. }
  destruct Hv as [Hv|Hv].
  - subst a. lra.
  - assert (0 < a) by (apply Hpos; left; reflexivity).
    assert (v <= fold_right Qplus 0 l).
    { apply IH; [intros x Hx; apply Hpos; right; exact Hx | exact Hv]. }
    lra.
Qed.

(** With the string for [sa], or positive attribute values, every share
    of a confluence lies between 0 and 1. *)
Lemma split_props_share sa q ids props p :
  sa_positive sa -> split_props sa q = inr (ids, props) -> In p props ->
  0 <= p /\ p <= 1.
Proof.
  intros Hpos. unfold split_props. destruct sa as [col rows|str|]; [| |discriminate].
  - destruct (branch_attrs rows q) as [e|attrs] eqn:Hb; [discriminate|].
    intros H Hp. inversion H. subst ids props. clear H.
    apply in_map_iff in Hp. destruct Hp as [val [Hp Hval]]. subst p.
    assert (Hall : forall x, In x attrs -> 0 < x).
    { intros x Hx. destruct (branch_attrs_values _ _ _ Hb x Hx) as [k [_ Hl]].
      apply attr_lookup_In in Hl. apply (Hpos k x Hl). }
    pose proof (Hall val Hval) as Hv0.
    pose proof (Qsum_member attrs val Hall Hval) as Hle.
    assert (Hs : 0 < Qsum attrs) by lra.
    split.
    + apply Qle_shift_div_l; [exact Hs | lra].
    + apply Qle_shift_div_r; [exact Hs | lra].
  - intros H Hp. inversion H. subst ids props.
    apply in_map_iff in Hp. destruct Hp as [x [Hp _]]. subst p. split; lra.
Qed.

Lemma Qpower_unit_interval (r : Q) (n : nat) :
  0 <= r -> r <= 1 -> 0 <= r ^ Z.of_nat n /\ r ^ Z.of_nat n <= 1.
Proof.
  intros H0 H1. split; [apply Qpower_0_le; exact H0|].
  induction n as [|n IH].
  - simpl. lra.
  - rewrite Nat2Z.inj_succ. unfold Z.succ.
    rewrite Qpower_plus' by lia. simpl (r ^ 1).
    assert (0 <= r ^ Z.of_nat n) by (apply Qpower_0_le; exact H0).
    nra.
Qed.

Section Bounds.

Variable dd : dam_table.
Variable ft : ft_table.
Variable red : Q.
Variable pct_cutoff : Q.
Variable sa : sa_arg.

Hypothesis red_lo : 0 <= red.
Hypothesis red_hi : red <= 1.
Hypothesis sa_pos : sa_positive sa.

Lemma opened_get_number o k s x :
  dict_get o (o_dict (opened k s)) = Some (Some x) -> In (o, Some x) (o_dict s).
Proof.
  simpl. destruct (ident_eq_dec o k) as [->|Hne].
  - rewrite dict_get_set_same. discriminate.
  - rewrite dict_get_set_other by exact Hne. apply dict_get_In.
Qed.

Lemma recorded_percent k y s :
  0 <= y /\ y <= 100 -> percent_entries s -> percent_entries (recorded k (Some y) s).
Proof.
  intros Hy Hs r x Hin. apply recorded_dict in Hin. destruct Hin as [Hin|Hin].
  - inversion Hin. subst. exact Hy.
  - apply (Hs r x Hin).
Qed.

Lemma dropped_percent k s : percent_entries s -> percent_entries (dropped k s).
Proof. intros Hs r x Hin. apply dropped_dict in Hin. apply (Hs r x Hin). Qed.

Lemma attenuation_unit k :
  0 <= attenuation dd red k /\ attenuation dd red k <= 1.
Proof. apply Qpower_unit_interval; assumption. Qed.

Lemma body_percent o s s' :
  percent_entries s -> body dd ft red pct_cutoff sa o s = (s', inr tt) ->
  percent_entries s'.
Proof.
  intros Hinv Hb.
  refine (body_inv dd ft red pct_cutoff sa (fun _ st => percent_entries st) o s s'
            _ _ Hinv Hb).
  - intros k s1 s2 _ HJ Hv. apply visit_single_ok in Hv.
    destruct Hv as [[_ [x [y [Hget [Hy Hc]]]]] | [_ [v [Hget ->]]]].
    + apply opened_get_number in Hget. pose proof (HJ o x Hget) as [Hx0 Hx1].
      pose proof (attenuation_unit k) as [Ha0 Ha1].
      destruct Hc as [[_ ->]|[_ ->]]; [|apply dropped_percent; exact HJ].
      apply recorded_percent; [|exact HJ]. subst y. split; nra.
    + destruct v as [x|].
      * apply recorded_percent; [|exact HJ].
        apply opened_get_number in Hget. apply (HJ o x Hget).
      * intros r x Hin. apply recorded_dict in Hin.
        destruct Hin as [Hin|Hin]; [inversion Hin | apply (HJ r x Hin)].
  - intros ids props done k p s1 s2 _ Hs Hin HJ Hv. apply visit_branch_ok in Hv.
    destruct Hv as [x [y [Hget [Hy Hc]]]].
    apply opened_get_number in Hget. pose proof (HJ o x Hget) as [Hx0 Hx1].
    pose proof (attenuation_unit k) as [Ha0 Ha1].
    pose proof (split_props_share sa _ _ _ p sa_pos Hs
                  (proj2 (in_combine_fst _ _ _ _ Hin))) as [Hp0 Hp1].
    destruct Hc as [[_ ->]|[_ ->]]; [|apply dropped_percent; exact HJ].
    apply recorded_percent; [|exact HJ]. subst y.
    assert (0 <= x * p /\ x * p <= 100) by (split; nra).
    destruct (has_dams dd k); [split; nra | assumption].
Qed.

Lemma init_percent origin : percent_entries (init dd red origin).
Proof.
  intros r x Hin. unfold init in Hin. cbn [o_dict] in Hin.
  rewrite dict_set_set in Hin. simpl in Hin. destruct Hin as [Hin|[]].
  injection Hin as _ Hx. subst x. unfold origin_pop.
  pose proof (attenuation_unit origin) as [Ha0 Ha1].
  destruct (has_dams dd origin); split; lra.
Qed.

Lemma traverse_percent fuel origin s :
  traverse dd ft red pct_cutoff sa fuel origin = (s, Done) -> percent_entries s.
Proof.
  intros Ht. unfold traverse in Ht.
  pose proof (run_inv dd ft red pct_cutoff sa percent_entries
                (fun s0 o s1 _ HI Hb => body_percent o s0 s1 HI Hb)
                fuel (init dd red origin) (init_percent origin)) as Hri.
  rewrite Ht in Hri. apply Hri. simpl. discriminate.
Qed.

End Bounds.

Lemma pass_rate_unit (pct_pass : Q) :
  0 <= pct_pass -> pct_pass <= 100 -> 0 <= pct_pass / 100 /\ pct_pass / 100 <= 1.
Proof.
  intros H0 H1. split.
  - apply Qle_shift_div_l; [reflexivity | lra].
  - apply Qle_shift_div_r; [reflexivity | lra].
Qed.

(** X3: with the string "NONE" for [sa], or an attribute table whose
    values are all positive, every fraction in the results lies between 0
    and 100: no reach is credited with more than the starting
    population. *)
Theorem fractions_within_percent fuel dd ori ft pct_pass pct_cutoff sa out dfs :
  sa_positive sa ->
  fish_passage fuel (Given dd) (Given ori) (Given ft) pct_pass pct_cutoff sa
    = (out, Ok dfs) ->
  Forall (fun df => forall r x, In (r, Some x) (df_rows df) -> 0 <= x /\ x <= 100) dfs.
Proof.
  intros Hpos Hcall.
  pose proof (fish_passage_ok_valid _ _ _ _ _ _ _ _ _ Hcall) as [_ [Hp0 [Hp1 _]]].
  pose proof (pass_rate_unit pct_pass Hp0 Hp1) as [Hr0 Hr1].
  apply fish_passage_ok in Hcall.
  induction Hcall as [|origin df ori dfs [s [Ht Hrows]] Hrest IH]; constructor.
  - rewrite Hrows.
    apply (traverse_percent dd ft (pct_pass / 100) pct_cutoff sa Hr0 Hr1 Hpos
             fuel origin s Ht).
  - exact IH.
Qed.

Lemma fractions_within_percent_witness :
  exists out dfs,
    fish_passage 10 (Given Net.fork_dd) (Given [Net.A]) (Given Net.fork_ft) 50 1
      Net.fork_sa = (out, Ok dfs)
    /\ Forall (fun df => forall r x, In (r, Some x) (df_rows df) -> 0 <= x /\ x <= 100)
              dfs.
Proof.
  eexists. eexists. split.
  - vm_compute. reflexivity.
  - refine (fractions_within_percent 10 Net.fork_dd [Net.A] Net.fork_ft 50 1
              Net.fork_sa _ _ _ _).
    + intros k v [H|[H|[H|[]]]]; inversion H; reflexivity.
    + vm_compute. reflexivity.
Defined.

(* --------------------------------------------------------------------- *)
(** *** A pass rate of 0 *)

Section NoPassage.

Variable dd : dam_table.
Variable ft : ft_table.
Variable red : Q.
Variable pct_cutoff : Q.
Variable sa : sa_arg.
Variable origin : reach.

Hypothesis red_zero : red == 0.
Hypothesis cutoff_nonneg : 0 <= pct_cutoff.

#[local] Abbreviation undammed_entries := (undammed_entries dd origin).

Lemma attenuation_blocked k : has_dams dd k = true -> attenuation dd red k == 0.
Proof.
  unfold has_dams, attenuation. intros H.
  rewrite red_zero. apply Qpower_0.
  destruct (dam_ct dd k); [discriminate | lia].
Qed.

Lemma recorded_undammed k v s :
  has_dams dd k = false -> undammed_entries s -> undammed_entries (recorded k v s).
Proof.
  intros Hk Hs r v' Hin. apply recorded_dict in Hin. destruct Hin as [Hin|Hin].
  - inversion Hin. subst. right. exact Hk.
  - apply (Hs r v' Hin).
Qed.

Lemma dropped_undammed k s : undammed_entries s -> undammed_entries (dropped k s).
Proof. intros Hs r v Hin. apply dropped_dict in Hin. apply (Hs r v Hin). Qed.

Lemma body_undammed o s s' :
  undammed_entries s -> body dd ft red pct_cutoff sa o s = (s', inr tt) ->
  undammed_entries s'.
Proof.
  intros Hinv Hb.
  refine (body_inv dd ft red pct_cutoff sa (fun _ st => undammed_entries st) o s s'
            _ _ Hinv Hb).
  - intros k s1 s2 _ HJ Hv. apply visit_single_ok in Hv.
    destruct Hv as [[Hd [x [y [_ [Hy Hc]]]]] | [Hd [v [_ ->]]]].
    + destruct Hc as [[Hlt _]|[_ ->]]; [|apply dropped_undammed; exact HJ].
      exfalso. subst y. rewrite (attenuation_blocked k Hd) in Hlt. lra.
    + apply recorded_undammed; assumption.
  - intros ids props done k p s1 s2 _ _ _ HJ Hv. apply visit_branch_ok in Hv.
    destruct Hv as [x [y [_ [Hy Hc]]]].
    destruct Hc as [[Hlt ->]|[_ ->]]; [|apply dropped_undammed; exact HJ].
    destruct (has_dams dd k) eqn:Hd.
    + exfalso. subst y. rewrite (attenuation_blocked k Hd) in Hlt. lra.
    + apply recorded_undammed; assumption.
Qed.

Lemma init_undammed : undammed_entries (init dd red origin).
Proof.
  intros r v Hin. unfold init in Hin. cbn [o_dict] in Hin.
  rewrite dict_set_set in Hin. simpl in Hin. destruct Hin as [Hin|[]].
  left. inversion Hin. reflexivity.
Qed.

Lemma traverse_undammed fuel s :
  traverse dd ft red pct_cutoff sa fuel origin = (s, Done) -> undammed_entries s.
Proof.
  intros Ht. unfold traverse in Ht.
  pose proof (run_inv dd ft red pct_cutoff sa undammed_entries
                (fun s0 o s1 _ HI Hb => body_undammed o s0 s1 HI Hb)
                fuel (init dd red origin) init_undammed) as Hri.
  rewrite Ht in Hri. apply Hri. simpl. discriminate.
Qed.

End NoPassage.

(** X4: with a pass rate of 0 every dam is a full barrier: apart from the
    origin, no reach that has a dam is in any result. *)
Theorem dams_block_at_zero_pass fuel dd ori ft pct_cutoff sa out dfs :
  fish_passage fuel (Given dd) (Given ori) (Given ft) 0 pct_cutoff sa
    = (out, Ok dfs) ->
  Forall2 (fun origin df =>
             forall r v, In (r, v) (df_rows df) -> r <> origin -> has_dams dd r = false)
          ori dfs.
Proof.
  intros Hcall.
  pose proof (fish_passage_ok_valid _ _ _ _ _ _ _ _ _ Hcall) as [_ [_ [_ [Hc _]]]].
  apply fish_passage_ok in Hcall.
  refine (Forall2_impl_In _ _ _ _ _ Hcall).
  intros origin df _ [s [Ht Hrows]] r v Hin Hne. rewrite Hrows in Hin.
  assert (Hz : 0 / 100 == 0) by reflexivity.
  assert (Hc0 : 0 <= pct_cutoff) by lra.
  destruct (traverse_undammed dd ft (0 / 100) pct_cutoff sa origin Hz Hc0 fuel s Ht
              r v Hin) as [E|E]; [contradiction | exact E].
Qed.

Lemma dams_block_at_zero_pass_witness :
  exists out dfs,
    fish_passage 10 (Given Net.fork_dd) (Given [Net.A]) (Given Net.fork_ft) 0 1
      Net.fork_sa = (out, Ok dfs)
    /\ Forall2 (fun origin df =>
                  forall r v, In (r, v) (df_rows df) -> r <> origin ->
                              has_dams Net.fork_dd r = false)
               [Net.A] dfs.
Proof.
  eexists. eexists. split.
  - vm_compute. reflexivity.
  - refine (dams_block_at_zero_pass 10 Net.fork_dd [Net.A] Net.fork_ft 1
              Net.fork_sa _ _ _).
    vm_compute. reflexivity.
Defined.

(* --------------------------------------------------------------------- *)
(** *** Visits whose lookup succeeds, and calls that pass the validation *)

Lemma visit_branch_get dd red pct_cutoff o k p s x :
  dict_get o (o_dict (opened k s)) = Some (Some x) ->
  visit_branch dd red pct_cutoff o (k, p) s =
    let y := if has_dams dd k then (x * p) * attenuation dd red k else x * p in
    if Qgtb y pct_cutoff then (recorded k (Some y) s, inr tt) else (dropped k s, inr tt).
Proof.
  intros Hget.
  change (visit_branch dd red pct_cutoff o (k, p) s)
    with ((if has_dams dd k
           then v <- get_item o ;; x <- as_number v ;;
                keep_or_drop pct_cutoff k ((x * p) * attenuation dd red k)
           else v <- get_item o ;; x <- as_number v ;;
                keep_or_drop pct_cutoff k (x * p)) (opened k s)).
  cbv zeta. destruct (has_dams dd k).
  - rewrite (tested_eq pct_cutoff o k (fun x => (x * p) * attenuation dd red k) s x Hget).
    apply keep_or_drop_cases.
  - rewrite (tested_eq pct_cutoff o k (fun x => x * p) s x Hget).
    apply keep_or_drop_cases.
Qed.

Lemma visit_single_get dd red pct_cutoff o k s x :
  dict_get o (o_dict (opened k s)) = Some (Some x) ->
  visit_single dd red pct_cutoff o k s =
    if has_dams dd k
    then let y := x * attenuation dd red k in
         if Qgtb y pct_cutoff then (recorded k (Some y) s, inr tt)
         else (dropped k s, inr tt)
    else (recorded k (Some x) s, inr tt).
Proof.
  intros Hget.
  change (visit_single dd red pct_cutoff o k s)
    with ((if has_dams dd k
           then v <- get_item o ;; x <- as_number v ;;
                keep_or_drop pct_cutoff k (x * attenuation dd red k)
           else v <- get_item o ;; set_item k v) (opened k s)).
  cbv zeta. destruct (has_dams dd k).
  - rewrite (tested_eq pct_cutoff o k (fun x => x * attenuation dd red k) s x Hget).
    apply keep_or_drop_cases.
  - unfold bind, get_item. rewrite Hget. unfold set_item, recorded. simpl.
    rewrite dict_set_set. reflexivity.
Qed.

(** The loop body ends normally when the shares of a confluence can be
    computed and every visit ends normally. *)
Lemma body_safe dd ft red pct_cutoff sa (J : list reach -> tstate -> Prop) o s :
  (forall k s1, ups ft o = [k] -> J [] s1 ->
     snd (visit_single dd red pct_cutoff o k s1) = inr tt
     /\ J [k] (fst (visit_single dd red pct_cutoff o k s1))) ->
  ((1 < length (ups ft o))%nat ->
   exists ids props,
     split_props sa (ups ft o) = inr (ids, props)
     /\ forall done k p s1,
          In (k, p) (combine ids props) -> J done s1 ->
          snd (visit_branch dd red pct_cutoff o (k, p) s1) = inr tt
          /\ J (done ++ [k]) (fst (visit_branch dd red pct_cutoff o (k, p) s1))) ->
  J [] s ->
  snd (body dd ft red pct_cutoff sa o s) = inr tt
  /\ J (ups ft o) (fst (body dd ft red pct_cutoff sa o s)).
Proof.
  intros Hsingle Hbranch HJ. unfold body.
  destruct (ups ft o) as [|q0 [|q1 q]] eqn:Hq.
  - simpl. split; [reflexivity | exact HJ].
  - apply (Hsingle q0 s eq_refl HJ).
  - destruct Hbranch as [ids [props [Hs Hstep]]]; [simpl; lia|].
    rewrite Hs.
    pose proof (split_props_ids sa _ _ _ Hs) as [Hids Hlen].
    pose proof (for_each_safe (visit_branch dd red pct_cutoff o)
                  (fun done st => J (map fst done) st) (combine ids props)) as Hfe.
    assert (Hpre : forall done a s1, In a (combine ids props) -> J (map fst done) s1 ->
              snd (visit_branch dd red pct_cutoff o a s1) = inr tt
              /\ J (map fst (done ++ [a])) (fst (visit_branch dd red pct_cutoff o a s1))).
    { intros done [k p] s1 Hin HJ1. rewrite map_app. apply (Hstep _ k p s1 Hin HJ1). }
    specialize (Hfe Hpre [] s HJ). subst ids.
    cbn [app map] in Hfe. rewrite (map_fst_combine _ _ Hlen) in Hfe. exact Hfe.
Qed.

Lemma passage_loop_done fuel dd ft red pct_cutoff sa ori :
  (forall origin, In origin ori -> exists name, origin = IStr name) ->
  (forall origin, In origin ori ->
     snd (traverse dd ft red pct_cutoff sa fuel origin) = Done) ->
  forall acc, exists out,
    passage_loop fuel dd ft red pct_cutoff sa ori acc
    = (out, Ok (acc ++ map (fun origin =>
                              o_dict (fst (traverse dd ft red pct_cutoff sa fuel origin)))
                           ori)).
Proof.
  induction ori as [|origin ori IH]; intros Hstr Hdone acc.
  - exists []. simpl. rewrite app_nil_r. reflexivity.
  - destruct (Hstr origin (or_introl eq_refl)) as [name ->].
    pose proof (Hdone (IStr name) (or_introl eq_refl)) as Hd.
    destruct (IH (fun o Ho => Hstr o (or_intror Ho)) (fun o Ho => Hdone o (or_intror Ho))
                 (acc ++ [o_dict (fst (traverse dd ft red pct_cutoff sa fuel (IStr name)))]))
      as [out Hout].
    simpl.
    destruct (traverse dd ft red pct_cutoff sa fuel (IStr name)) as [s st] eqn:Ht.
    simpl in Hd. subst st. simpl in Hout. rewrite Hout.
    eexists. rewrite <- app_assoc. reflexivity.
Qed.

Lemma to_frames_total ods :
  Forall (fun d => d <> []) ods ->
  exists dfs, to_frames ods = Ok dfs /\ map df_rows dfs = ods.
Proof.
  induction ods as [|od ods IH]; intros H.
  - exists []. split; reflexivity.
  - inversion H as [|? ? Hne Hrest]; subst.
    destruct (IH Hrest) as [dfs [Hdfs Hrows]].
    destruct od as [|[k v] od]; [congruence|].
    exists (mkDF k ((k, v) :: od) :: dfs). simpl. rewrite Hdfs, Hrows.
    split; reflexivity.
Qed.

(** A call with inputs the validation accepts, all of whose traversals
    end normally on dicts that are not empty, returns. *)
Lemma fish_passage_returns fuel dd ori ft pct_pass pct_cutoff sa :
  sa_accepted sa -> dd <> [] -> ori <> [] -> ft <> [] ->
  (forall col, sa <> SaFrame col []) ->
  0 <= pct_pass -> pct_pass <= 100 -> 1 <= pct_cutoff -> pct_cutoff <= 100 ->
  (forall origin, In origin ori -> exists name, origin = IStr name) ->
  (forall origin, In origin ori ->
     snd (traverse dd ft (pct_pass / 100) pct_cutoff sa fuel origin) = Done
     /\ o_dict (fst (traverse dd ft (pct_pass / 100) pct_cutoff sa fuel origin)) <> []) ->
  exists out dfs,
    fish_passage fuel (Given dd) (Given ori) (Given ft) pct_pass pct_cutoff sa
      = (out, Ok dfs).
Proof.
  intros Hsa Hdd Hori Hft Hsa0 Hp0 Hp1 Hc0 Hc1 Hstr Hdone.
  unfold fish_passage. pose proof (check_sa_accepted sa) as Hck.
  destruct (check_sa sa) as [e|line]; [destruct Hck as [Hck _]; contradiction|].
  pose proof (some_empty dd ori ft sa Hsa) as Hemp.
  destruct (_ || _ || _ || _).
  { exfalso. destruct (proj1 Hemp eq_refl) as [H|[H|[H|[col H]]]];
      try contradiction. apply (Hsa0 col H). }
  pose proof (out_of_range pct_pass 0 100) as Hpass.
  destruct (Qgtb pct_pass 100 || Qltb pct_pass 0).
  { exfalso. destruct (proj1 Hpass eq_refl) as [H|H]; lra. }
  pose proof (out_of_range pct_cutoff 1 100) as Hcut.
  destruct (Qgtb pct_cutoff 100 || Qltb pct_cutoff 1).
  { exfalso. destruct (proj1 Hcut eq_refl) as [H|H]; lra. }
  destruct (passage_loop_done fuel dd ft (pct_pass / 100) pct_cutoff sa ori Hstr
              (fun o Ho => proj1 (Hdone o Ho)) []) as [out2 Hloop].
  rewrite Hloop. rewrite app_nil_l.
  destruct (to_frames_total
              (map (fun origin =>
                      o_dict (fst (traverse dd ft (pct_pass / 100) pct_cutoff sa fuel origin)))
                   ori)) as [dfs [Hdfs _]].
  { apply Forall_forall. intros d Hd. apply in_map_iff in Hd.
    destruct Hd as [o [<- Ho]]. apply (proj2 (Hdone o Ho)). }
  rewrite Hdfs. eauto.
Qed.

(* --------------------------------------------------------------------- *)
(** *** Listing the network: a pass rate of 100 without splitting *)

Section Enumeration.

Variable dd : dam_table.
Variable ft : ft_table.
Variable red : Q.
Variable pct_cutoff : Q.
Variable str : string.
Variable origin : reach.

Hypothesis red_one : red == 1.
Hypothesis cutoff_below : pct_cutoff < 100.
Hypothesis no_loop : forall r, ~ In (r, r) ft.

#[local] Abbreviation closed_before := (closed_before ft).
#[local] Abbreviation listing := (listing ft origin).

Lemma attenuation_one k : attenuation dd red k == 1.
Proof. unfold attenuation. rewrite red_one. apply Qpower_1. Qed.

Lemma recorded_full k y s :
  y == 100 -> full_entries s -> full_entries (recorded k (Some y) s).
Proof.
  intros Hy [HL HD]. split.
  - intros r Hr. simpl. destruct (ident_eq_dec r k) as [->|Hne].
    + exists y. rewrite dict_get_set_same. auto.
    + rewrite dict_get_set_other by exact Hne. apply HL.
      destruct (recorded_list _ _ _ _ Hr) as [H|H]; [exact H | contradiction].
  - intros r v Hin. apply recorded_dict in Hin. destruct Hin as [Hin|Hin].
    + inversion Hin. subst. split; [simpl; apply in_or_app; right; left; reflexivity|].
      exists y. auto.
    + destruct (HD r v Hin) as [H1 H2]. split; [|exact H2].
      simpl. apply in_or_app. left. exact H1.
Qed.

Lemma full_get o k s :
  full_entries s -> In o (o_up_ids s) -> k <> o ->
  exists x, dict_get o (o_dict (opened k s)) = Some (Some x) /\ x == 100.
Proof.
  intros [HL _] Ho Hne. destruct (HL o Ho) as [x [Hget Hx]]. exists x.
  split; [|exact Hx]. simpl.
  rewrite dict_get_set_other by (intros E; apply Hne; symmetry; exact E). exact Hget.
Qed.

Lemma visit_branch_full o k s :
  full_entries s -> In o (o_up_ids s) -> k <> o ->
  exists y, y == 100
            /\ visit_branch dd red pct_cutoff o (k, 1) s = (recorded k (Some y) s, inr tt).
Proof.
  intros Hf Ho Hne. destruct (full_get o k s Hf Ho Hne) as [x [Hget Hx]].
  rewrite (visit_branch_get dd red pct_cutoff o k 1 s x Hget). cbv zeta.
  set (y := if has_dams dd k then x * 1 * attenuation dd red k else x * 1).
  assert (Hy : y == 100).
  { unfold y. destruct (has_dams dd k); [rewrite attenuation_one|]; rewrite Hx; ring. }
  exists y. split; [exact Hy|].
  assert (Hc : Qgtb y pct_cutoff = true) by (apply Qgtb_lt; rewrite Hy; exact cutoff_below).
  rewrite Hc. reflexivity.
Qed.

Lemma visit_single_full o k s :
  full_entries s -> In o (o_up_ids s) -> k <> o ->
  exists y, y == 100
            /\ visit_single dd red pct_cutoff o k s = (recorded k (Some y) s, inr tt).
Proof.
  intros Hf Ho Hne. destruct (full_get o k s Hf Ho Hne) as [x [Hget Hx]].
  rewrite (visit_single_get dd red pct_cutoff o k s x Hget). cbv zeta.
  destruct (has_dams dd k).
  - set (y := x * attenuation dd red k).
    assert (Hy : y == 100) by (unfold y; rewrite attenuation_one, Hx; ring).
    exists y. split; [exact Hy|].
    assert (Hc : Qgtb y pct_cutoff = true)
      by (apply Qgtb_lt; rewrite Hy; exact cutoff_below).
    rewrite Hc. reflexivity.
  - exists x. split; [exact Hx | reflexivity].
Qed.

Lemma listing_step_recorded s done s1 k y :
  y == 100 -> listing_step s done s1 ->
  listing_step s (done ++ [k]) (recorded k (Some y) s1).
Proof.
  intros Hy [Hf [Hp [[ext Hext] Hd]]]. split; [apply recorded_full; assumption|].
  split; [exact Hp|]. split.
  - exists (ext ++ [k]). simpl. rewrite Hext, app_assoc. reflexivity.
  - intros k' Hk'. simpl. apply in_or_app. apply in_app_or in Hk'.
    destruct Hk' as [Hk'|[Hk'|[]]]; [left; apply Hd; exact Hk' | right; left; exact Hk'].
Qed.

Lemma body_listing o s :
  nth_error (o_up_ids s) (pos s) = Some o -> listing s ->
  snd (body dd ft red pct_cutoff (SaStr str) o s) = inr tt
  /\ listing (advance (fst (body dd ft red pct_cutoff (SaStr str) o s))).
Proof.
  intros Hn [Hf [Hcl Hor]].
  assert (Ho : forall s1, listing_step s [] s1 \/ (exists d, listing_step s d s1) ->
                          In o (o_up_ids s1)).
  { intros s1 H.
    assert (Hext : exists ext, o_up_ids s1 = o_up_ids s ++ ext)
      by (destruct H as [H|[d H]]; apply H).
    destruct Hext as [ext ->]. apply in_or_app. left. apply (nth_error_In _ _ Hn). }
  assert (Hkid : forall k, In k (ups ft o) -> k <> o).
  { intros k Hk E. subst k. apply ups_In in Hk. apply (no_loop o Hk). }
  destruct (body_safe dd ft red pct_cutoff (SaStr str) (listing_step s) o s)
    as [Hok HJ].
  - intros k s1 Hq HJ1.
    destruct (visit_single_full o k s1 (proj1 HJ1) (Ho s1 (or_introl HJ1)))
      as [y [Hy Heq]]; [apply Hkid; rewrite Hq; left; reflexivity|].
    rewrite Heq. split; [reflexivity|].
    apply (listing_step_recorded s [] s1 k y Hy HJ1).
  - intros _. exists (ups ft o), (map (fun _ => 1) (ups ft o)).
    split; [reflexivity|].
    intros done k p s1 Hin HJ1.
    destruct (in_combine_fst _ _ _ _ Hin) as [Hk Hp].
    apply in_map_iff in Hp. destruct Hp as [k' [<- _]].
    destruct (visit_branch_full o k s1 (proj1 HJ1) (Ho s1 (or_intror (ex_intro _ done HJ1)))
                (Hkid k Hk)) as [y [Hy Heq]].
    rewrite Heq. split; [reflexivity|].
    apply (listing_step_recorded s done s1 k y Hy HJ1).
  - split; [exact Hf|]. split; [reflexivity|]. split.
    + exists []. rewrite app_nil_r. reflexivity.
    + intros k [].
  - split; [exact Hok|].
    destruct HJ as [Hf' [Hp' [[ext Hext] Hd']]].
    set (s' := fst (body dd ft red pct_cutoff (SaStr str) o s)) in *.
    assert (Hlen : (pos s < length (o_up_ids s))%nat)
      by (apply nth_error_Some; congruence).
    split; [exact Hf'|]. split.
    + intros i o' Hi Hnth k Hk. simpl in Hi, Hnth |- *.
      rewrite Hext in Hnth. rewrite nth_error_app1 in Hnth by lia.
      destruct (Nat.eq_dec i (pos s)) as [->|Hne].
      * rewrite Hn in Hnth. inversion Hnth. subst o'. apply Hd'. exact Hk.
      * rewrite Hext. apply in_or_app. left.
        apply (Hcl i o'); [lia | exact Hnth | exact Hk].
    + simpl. rewrite Hext. apply in_or_app. left. exact Hor.
Qed.

Lemma init_listing : listing (init dd red origin).
Proof.
  unfold init, listing, full_entries, closed_before.
  cbn [o_up_ids o_dict pos]. rewrite dict_set_set.
  assert (Hpop : origin_pop dd red origin == 100).
  { unfold origin_pop. destruct (has_dams dd origin); [|reflexivity].
    rewrite attenuation_one. ring. }
  split; [split|split].
  - intros r [<-|[]]. exists (origin_pop dd red origin). simpl.
    destruct (ident_eq_dec origin origin); [auto | congruence].
  - intros r v [H|[]]. injection H as <- <-. split; [left; reflexivity|].
    exists (origin_pop dd red origin). auto.
  - intros i o Hi. lia.
  - left. reflexivity.
Qed.

(** At the end of the loop the list holds the origin and all that is
    upstream of it. *)
Lemma listing_complete s :
  listing s -> (length (o_up_ids s) <= pos s)%nat ->
  forall r, up_reach ft origin r -> In r (o_up_ids s).
Proof.
  intros [_ [Hcl Hor]] Hend.
  assert (Hstep : forall o k, In o (o_up_ids s) -> In (k, o) ft -> In k (o_up_ids s)).
  { intros o k Ho Hk. apply In_nth_error in Ho. destruct Ho as [i Hi].
    apply (Hcl i o); [|exact Hi | apply ups_In; exact Hk].
    assert (i < length (o_up_ids s))%nat by (apply nth_error_Some; congruence). lia. }
  intros r Hr. revert Hor. induction Hr as [a b Hab | a b c Hab Hbc IH]; intros Ha.
  - apply (Hstep a b Ha Hab).
  - apply IH. apply (Hstep a b Ha Hab).
Qed.

End Enumeration.

Lemma list_sum_member {X} (f : X -> nat) (l : list X) (x : X) :
  In x l -> (f x <= list_sum (map f l))%nat.
Proof.
  induction l as [|a l IH]; simpl; [contradiction|].
  intros [->|H]; [lia|]. specialize (IH H). lia.
Qed.

Lemma pending_init dd ft red origin :
  pending ft (init dd red origin) = (weight ft origin + 0)%nat.
Proof. reflexivity. Qed.

(** On a table without cycles, in the mode the docstring gives for listing
    a network (pass rate 100, the string "NONE", a cutoff below 100), the
    loop of every origin ends normally, also on braided networks, and
    leaves the listing invariant. *)
Lemma traverse_listing dd ft pct_cutoff origin fuel :
  acyclic ft -> pct_cutoff < 100 -> (weight ft origin <= fuel)%nat ->
  snd (traverse dd ft (100 / 100) pct_cutoff (SaStr "NONE") fuel origin) = Done
  /\ listing ft origin
       (fst (traverse dd ft (100 / 100) pct_cutoff (SaStr "NONE") fuel origin)).
Proof.
  intros Hac Hc Hfuel. unfold traverse.
  assert (Hone : 100 / 100 == 1) by reflexivity.
  assert (Hloop : forall r, ~ In (r, r) ft)
    by (intros r Hr; apply (Hac r); apply up_edge; exact Hr).
  destruct (run_safe dd ft (100 / 100) pct_cutoff (SaStr "NONE") (listing ft origin)
              (fun s o Hn HI =>
                 body_listing dd ft (100 / 100) pct_cutoff "NONE" origin Hone Hc Hloop
                   o s Hn HI)
              fuel (init dd (100 / 100) origin)
              (init_listing dd ft (100 / 100) origin Hone)) as [Hraise Hinv].
  split; [|exact Hinv].
  pose proof (run_enough dd ft (100 / 100) pct_cutoff (SaStr "NONE") fuel
                (init dd (100 / 100) origin) Hac) as Hend.
  rewrite pending_init in Hend. specialize (Hend ltac:(lia)).
  destruct (snd (run dd ft (100 / 100) pct_cutoff (SaStr "NONE") fuel
                   (init dd (100 / 100) origin))) as [|e|]; [reflexivity | | congruence].
  exfalso. apply (Hraise e). reflexivity.
Qed.

(** X5: the use the docstring gives for listing a stream network.  With a
    pass rate of 100, the string "NONE" and a cutoff below 100, on a
    from-to table without cycles (braided or not), non-empty tables and
    origins that are strings, the call returns; the result of each origin
    holds exactly the origin and the reaches upstream of it, each
    at 100. *)
Theorem lists_upstream_network dd ori ft pct_cutoff :
  acyclic ft -> dd <> [] -> ori <> [] -> ft <> [] ->
  (forall origin, In origin ori -> exists name, origin = IStr name) ->
  1 <= pct_cutoff -> pct_cutoff < 100 ->
  exists fuel out dfs,
    fish_passage fuel (Given dd) (Given ori) (Given ft) 100 pct_cutoff (SaStr "NONE")
      = (out, Ok dfs)
    /\ Forall2 (fun origin df =>
                  (forall r, (exists v, In (r, v) (df_rows df))
                             <-> (r = origin \/ up_reach ft origin r))
                  /\ (forall r v, In (r, v) (df_rows df) -> exists x, v = Some x /\ x == 100))
               ori dfs.
Proof.
  intros Hac Hdd Hori Hft Hstr Hc1 Hc100.
  set (fuel := list_sum (map (weight ft) ori)).
  assert (Hrun : forall origin, In origin ori ->
            snd (traverse dd ft (100 / 100) pct_cutoff (SaStr "NONE") fuel origin) = Done
            /\ listing ft origin
                 (fst (traverse dd ft (100 / 100) pct_cutoff (SaStr "NONE") fuel origin))).
  { intros origin Hin. apply traverse_listing; [exact Hac | exact Hc100|].
    apply (list_sum_member (weight ft) ori origin Hin). }
  destruct (fish_passage_returns fuel dd ori ft 100 pct_cutoff (SaStr "NONE"))
    as [out [dfs Hcall]]; try assumption; try reflexivity; try lra.
  - intros col. discriminate.
  - intros origin Hin. destruct (Hrun origin Hin) as [Hd [[HL _] [_ Hor]]].
    split; [exact Hd|]. destruct (HL origin Hor) as [x [Hget _]].
    intros E. rewrite E in Hget. discriminate.
  - exists fuel, out, dfs. split; [exact Hcall|].
    pose proof (fish_passage_ok _ _ _ _ _ _ _ _ _ Hcall) as Hok.
    refine (Forall2_impl_In _ _ _ _ _ Hok).
    intros origin df Hin [s [Ht Hrows]].
    destruct (Hrun origin Hin) as [_ Hlist]. rewrite Ht in Hlist. simpl in Hlist.
    pose proof (run_done _ _ _ _ _ _ _ _ Ht) as Hend.
    pose proof (traverse_within_upstream _ _ _ _ _ _ _ _ Ht) as [_ Hup].
    rewrite Hrows. split.
    + intros r. split.
      * intros [v Hv]. apply (Hup r v Hv).
      * intros Hr.
        assert (HrL : In r (o_up_ids s)).
        { destruct Hr as [->|Hr]; [apply Hlist|].
          apply (listing_complete ft origin s Hlist Hend r Hr). }
        destruct (proj1 (proj1 Hlist) r HrL) as [x [Hget _]].
        exists (Some x). apply dict_get_In. exact Hget.
    + intros r v Hv. apply (proj2 (proj1 Hlist) r v Hv).
Qed.

Lemma lists_upstream_network_witness :
  exists fuel out dfs,
    fish_passage fuel (Given Net.braid_dd) (Given [Net.A]) (Given Net.braid_ft) 100 1
      (SaStr "NONE") = (out, Ok dfs)
    /\ Forall2 (fun origin df =>
                  (forall r, (exists v, In (r, v) (df_rows df))
                             <-> (r = origin \/ up_reach Net.braid_ft origin r))
                  /\ (forall r v, In (r, v) (df_rows df) -> exists x, v = Some x /\ x == 100))
               [Net.A] dfs.
Proof.
  apply (lists_upstream_network Net.braid_dd [Net.A] Net.braid_ft 1).
  - exact braid_acyclic.
  - discriminate.
  - discriminate.
  - discriminate.
  - intros origin [<-|[]]. exists "A". reflexivity.
  - lra.
  - reflexivity.
Defined.

(* --------------------------------------------------------------------- *)
(** *** Tree-shaped networks *)

(** [for_each_safe], with the place of the current item in the list. *)
Lemma for_each_safe_at {A} (f : A -> M unit) (J : list A -> tstate -> Prop) (l : list A) :
  forall pre,
  (forall done a rest s1, pre ++ l = done ++ a :: rest -> J done s1 ->
     snd (f a s1) = inr tt /\ J (done ++ [a]) (fst (f a s1))) ->
  forall s,
    J pre s ->
    snd (for_each l f s) = inr tt /\ J (pre ++ l) (fst (for_each l f s)).
Proof.
  induction l as [|a l IH]; intros pre Hstep s HJ.
  - simpl. rewrite app_nil_r. split; [reflexivity | exact HJ].
  - change (for_each (a :: l) f s) with (bind (f a) (fun _ => for_each l f) s).
    unfold bind. destruct (Hstep pre a l s eq_refl HJ) as [Hok HJ1].
    destruct (f a s) as [s1 [e|[]]]; simpl in Hok, HJ1; [discriminate|].
    replace (pre ++ a :: l) with ((pre ++ [a]) ++ l)
      by (rewrite <- app_assoc; reflexivity).
    apply IH; [|exact HJ1].
    intros done a' rest s1' Heq. apply (Hstep done a' rest s1').
    rewrite <- Heq, <- app_assoc. reflexivity.
Qed.

(** [body_safe], with the place of the visited reach among the upstream
    reaches of [o]. *)
Lemma body_safe_at dd ft red pct_cutoff sa (J : list reach -> tstate -> Prop) o s :
  (forall k s1, ups ft o = [k] -> J [] s1 ->
     snd (visit_single dd red pct_cutoff o k s1) = inr tt
     /\ J [k] (fst (visit_single dd red pct_cutoff o k s1))) ->
  ((1 < length (ups ft o))%nat ->
   exists ids props,
     split_props sa (ups ft o) = inr (ids, props)
     /\ forall done k rest p s1,
          ups ft o = done ++ k :: rest -> In (k, p) (combine ids props) -> J done s1 ->
          snd (visit_branch dd red pct_cutoff o (k, p) s1) = inr tt
          /\ J (done ++ [k]) (fst (visit_branch dd red pct_cutoff o (k, p) s1))) ->
  J [] s ->
  snd (body dd ft red pct_cutoff sa o s) = inr tt
  /\ J (ups ft o) (fst (body dd ft red pct_cutoff sa o s)).
Proof.
  intros Hsingle Hbranch HJ. unfold body.
  destruct (ups ft o) as [|q0 [|q1 q]] eqn:Hq.
  - simpl. split; [reflexivity | exact HJ].
  - apply (Hsingle q0 s eq_refl HJ).
  - destruct Hbranch as [ids [props [Hs Hstep]]]; [simpl; lia|].
    rewrite Hs.
    pose proof (split_props_ids sa _ _ _ Hs) as [Hids Hlen]. subst ids.
    pose proof (for_each_safe_at (visit_branch dd red pct_cutoff o)
                  (fun done st => J (map fst done) st)
                  (combine (q0 :: q1 :: q) props) []) as Hfe.
    assert (Hpre : forall done a rest s1,
              [] ++ combine (q0 :: q1 :: q) props = done ++ a :: rest ->
              J (map fst done) s1 ->
              snd (visit_branch dd red pct_cutoff o a s1) = inr tt
              /\ J (map fst (done ++ [a])) (fst (visit_branch dd red pct_cutoff o a s1))).
    { intros done [k p] rest s1 Heq HJ1. rewrite map_app.
      cbn [app] in Heq.
      apply (Hstep (map fst done) k (map fst rest) p s1).
      - rewrite <- (map_fst_combine _ _ Hlen), Heq, map_app. reflexivity.
      - rewrite Heq. apply in_or_app. right. left. reflexivity.
      - exact HJ1. }
    specialize (Hfe Hpre s HJ).
    cbn [app map] in Hfe. rewrite (map_fst_combine _ _ Hlen) in Hfe. exact Hfe.
Qed.

Lemma NoDup_map_filter {X Y} (f : X -> Y) (p : X -> bool) (l : list X) :
  NoDup (map f l) -> NoDup (map f (filter p l)).
Proof.
  induction l as [|a l IH]; simpl; intros H; [constructor|].
  inversion H as [|? ? Hni Hnd]; subst.
  destruct (p a); simpl; [|apply IH; exact Hnd].
  constructor; [|apply IH; exact Hnd].
  intros Hin. apply Hni. apply in_map_iff in Hin. destruct Hin as [x [Hx Hxl]].
  apply filter_In in Hxl. apply in_map_iff. exists x. tauto.
Qed.

(** In a table with one row per "from" reach, a reach flows into one
    reach only. *)
Lemma single_downstream (ft : ft_table) k o o' :
  NoDup (map fst ft) -> In (k, o) ft -> In (k, o') ft -> o = o'.
Proof.
  induction ft as [|[f t] ft IH]; simpl; intros Hnd H1 H2; [contradiction|].
  inversion Hnd as [|? ? Hni Hrest]; subst.
  destruct H1 as [H1|H1], H2 as [H2|H2].
  - congruence.
  - exfalso. inversion H1; subst. apply Hni. apply in_map_iff. exists (k, o'). auto.
  - exfalso. inversion H2; subst. apply Hni. apply in_map_iff. exists (k, o). auto.
  - apply (IH Hrest H1 H2).
Qed.

Lemma branch_attrs_defined rows q :
  (forall k, In k q -> attr_lookup rows k <> None) ->
  exists attrs, branch_attrs rows q = inr attrs.
Proof.
  induction q as [|a q IH]; intros H; [exists []; reflexivity|].
  destruct IH as [attrs Hb]; [intros k Hk; apply H; right; exact Hk|].
  simpl. destruct (attr_lookup rows a) as [v|] eqn:Ha.
  - rewrite Hb. eauto.
  - exfalso. apply (H a (or_introl eq_refl) Ha).
Qed.

Lemma split_props_defined ft sa o :
  sa_covers ft sa -> exists props, split_props sa (ups ft o) = inr (ups ft o, props).
Proof.
  unfold split_props. destruct sa as [col rows|s|]; simpl; intros H.
  - destruct (branch_attrs_defined rows (ups ft o)) as [attrs Hb].
    + intros k Hk. apply ups_In in Hk. apply (proj2 H k o Hk).
    + rewrite Hb. eauto.
  - eauto.
  - contradiction.
Qed.

Section TreeRun.

Variable dd : dam_table.
Variable ft : ft_table.
Variable red : Q.
Variable pct_cutoff : Q.
Variable sa : sa_arg.
Variable origin : reach.

Hypothesis ft_acyclic : acyclic ft.
Hypothesis ft_single : NoDup (map fst ft).
Hypothesis sa_ok : sa_covers ft sa.

#[local] Abbreviation tree_state := (tree_state ft origin).
#[local] Abbreviation tree_step := (tree_step ft origin).

Lemma NoDup_ups o : NoDup (ups ft o).
Proof. unfold ups. apply NoDup_map_filter. exact ft_single. Qed.

Lemma NoDup_split_fresh {X} (done rest : list X) (k : X) :
  NoDup (done ++ k :: rest) -> ~ In k done.
Proof.
  intros H Hin. apply NoDup_remove_2 in H. apply H. apply in_or_app. left. exact Hin.
Qed.

(** The reach about to be visited has never been appended. *)
Lemma tree_fresh s o done k rest s1 :
  nth_error (o_up_ids s) (pos s) = Some o -> NoDup (o_up_ids s) ->
  from_origin ft origin o ->
  ups ft o = done ++ k :: rest -> tree_step s done s1 ->
  ~ In k (enq s1) /\ k <> o /\ from_origin ft origin k.
Proof.
  intros Hn Hnd Hfo Hq [_ [_ [_ [H4 _]]]].
  assert (Hk : In k (ups ft o)) by (rewrite Hq; apply in_or_app; right; left; reflexivity).
  pose proof (from_origin_ups ft origin o k Hfo Hk) as Hup.
  assert (Hko : In (k, o) ft) by (apply ups_In; exact Hk).
  split; [|split; [|right; exact Hup]].
  - intros Hin. destruct (H4 k Hin) as [E|[[i [o' [Hi [Hnth Hko']]]]|Hd]].
    + subst k. apply (ft_acyclic origin Hup).
    + pose proof (single_downstream ft k o o' ft_single Hko Hko') as E. subst o'.
      assert (Hlen : (pos s < length (o_up_ids s))%nat)
        by (apply nth_error_Some; congruence).
      pose proof (proj1 (NoDup_nth_error (o_up_ids s)) Hnd i (pos s) ltac:(lia)
                    (eq_trans Hnth (eq_sym Hn))) as E.
      lia.
    + pose proof (NoDup_ups o) as Hnu. rewrite Hq in Hnu.
      apply (NoDup_split_fresh done rest k Hnu Hd).
  - intros E. subst k. apply (ft_acyclic o). apply up_edge. exact Hko.
Qed.

Lemma tree_step_recorded s done s1 k y :
  ~ In k (enq s1) -> from_origin ft origin k -> tree_step s done s1 ->
  tree_step s (done ++ [k]) (recorded k (Some y) s1).
Proof.
  intros Hfresh Hfk [H1 [H2 [H3 [H4 [H5 [H6 [ext H7]]]]]]].
  assert (HkL : ~ In k (o_up_ids s1)) by (intros H; apply Hfresh; apply H5; exact H).
  unfold tree_step, recorded. cbn [o_up_ids o_dict enq pos].
  split; [|split; [|split; [|split; [|split; [|split]]]]].
  - intros r Hr. destruct (ident_eq_dec r k) as [->|Hne].
    + exists y. apply dict_get_set_same.
    + rewrite dict_get_set_other by exact Hne. apply H1.
      apply in_app_or in Hr. destruct Hr as [Hr|[Hr|[]]]; [exact Hr | congruence].
  - apply NoDup_app; [exact H2 | repeat constructor; intros [] |].
    intros x Hx [Hk|[]]. subst x. apply HkL. exact Hx.
  - intros r Hr. apply in_app_or in Hr.
    destruct Hr as [Hr|[Hr|[]]]; [apply H3; exact Hr | subst r; exact Hfk].
  - intros r Hr. apply in_app_or in Hr. destruct Hr as [Hr|[Hr|[]]].
    + destruct (H4 r Hr) as [E|[E|E]]; [left; exact E | right; left; exact E|].
      right. right. apply in_or_app. left. exact E.
    + subst r. right. right. apply in_or_app. right. left. reflexivity.
  - intros r Hr. apply in_or_app. apply in_app_or in Hr.
    destruct Hr as [Hr|Hr]; [left; apply H5; exact Hr | right; exact Hr].
  - exact H6.
  - exists (ext ++ [k]). rewrite H7, app_assoc. reflexivity.
Qed.

Lemma tree_step_dropped s done s1 k :
  ~ In k (enq s1) -> tree_step s done s1 -> tree_step s (done ++ [k]) (dropped k s1).
Proof.
  intros Hfresh [H1 [H2 [H3 [H4 [H5 [H6 [ext H7]]]]]]].
  assert (HkL : ~ In k (o_up_ids s1)) by (intros H; apply Hfresh; apply H5; exact H).
  unfold tree_step, dropped. cbn [o_up_ids o_dict enq pos].
  unfold reach in *. rewrite (remove_first_app_fresh k _ HkL).
  split; [|split; [|split; [|split; [|split; [|split]]]]].
  - intros r Hr.
    assert (Hne : r <> k) by (intros E; subst r; apply HkL; exact Hr).
    rewrite dict_get_del_other by exact Hne.
    rewrite dict_get_set_other by exact Hne. apply H1. exact Hr.
  - exact H2.
  - exact H3.
  - intros r Hr. apply in_app_or in Hr. destruct Hr as [Hr|[Hr|[]]].
    + destruct (H4 r Hr) as [E|[E|E]]; [left; exact E | right; left; exact E|].
      right. right. apply in_or_app. left. exact E.
    + subst r. right. right. apply in_or_app. right. left. reflexivity.
  - intros r Hr. apply in_or_app. left. apply H5. exact Hr.
  - exact H6.
  - exists ext. exact H7.
Qed.

Lemma tree_get s done s1 o k :
  In o (o_up_ids s) -> k <> o -> tree_step s done s1 ->
  exists x, dict_get o (o_dict (opened k s1)) = Some (Some x).
Proof.
  intros Ho Hne [H1 [_ [_ [_ [_ [_ [ext H7]]]]]]].
  destruct (H1 o) as [x Hx]; [rewrite H7; apply in_or_app; left; exact Ho|].
  exists x. simpl.
  rewrite dict_get_set_other by (intros E; apply Hne; symmetry; exact E). exact Hx.
Qed.

Lemma body_tree o s :
  nth_error (o_up_ids s) (pos s) = Some o -> tree_state s ->
  snd (body dd ft red pct_cutoff sa o s) = inr tt
  /\ tree_state (advance (fst (body dd ft red pct_cutoff sa o s))).
Proof.
  intros Hn [T1 [T2 [T3 [T4 [T5 T6]]]]].
  pose proof (nth_error_In _ _ Hn) as Ho.
  pose proof (T3 o Ho) as Hfo.
  destruct (body_safe_at dd ft red pct_cutoff sa (tree_step s) o s) as [Hok HJ].
  - intros k s1 Hq HJ1.
    destruct (tree_fresh s o [] k [] s1 Hn T2 Hfo Hq HJ1) as [Hfresh [Hne Hfk]].
    destruct (tree_get s [] s1 o k Ho Hne HJ1) as [x Hget].
    rewrite (visit_single_get dd red pct_cutoff o k s1 x Hget). cbv zeta.
    destruct (has_dams dd k); [destruct (Qgtb _ _)|]; simpl;
      (split; [reflexivity|]);
      try apply (tree_step_recorded s [] s1 k _ Hfresh Hfk HJ1).
    apply (tree_step_dropped s [] s1 k Hfresh HJ1).
  - intros _. destruct (split_props_defined ft sa o sa_ok) as [props Hs].
    exists (ups ft o), props. split; [exact Hs|].
    intros done k rest p s1 Hq _ HJ1.
    destruct (tree_fresh s o done k rest s1 Hn T2 Hfo Hq HJ1) as [Hfresh [Hne Hfk]].
    destruct (tree_get s done s1 o k Ho Hne HJ1) as [x Hget].
    rewrite (visit_branch_get dd red pct_cutoff o k p s1 x Hget). cbv zeta.
    destruct (Qgtb _ _); simpl; (split; [reflexivity|]).
    + apply (tree_step_recorded s done s1 k _ Hfresh Hfk HJ1).
    + apply (tree_step_dropped s done s1 k Hfresh HJ1).
  - split; [exact T1|]. split; [exact T2|]. split; [exact T3|]. split.
    { intros r Hr. destruct (T4 r Hr) as [E|E]; [left; exact E | right; left; exact E]. }
    split; [exact T5|]. split; [reflexivity|]. exists []. rewrite app_nil_r. reflexivity.
  - split; [exact Hok|].
    destruct HJ as [H1 [H2 [H3 [H4 [H5 [H6 [ext H7]]]]]]].
    set (s' := fst (body dd ft red pct_cutoff sa o s)) in *.
    assert (Hlen : (pos s < length (o_up_ids s))%nat)
      by (apply nth_error_Some; congruence).
    unfold tree_state, advance. cbn [o_up_ids o_dict enq pos].
    split; [exact H1|]. split; [exact H2|]. split; [exact H3|]. split.
    { intros r Hr. destruct (H4 r Hr) as [E|[[i [o' [Hi [Hnth Hro]]]]|Hd]].
      - left. exact E.
      - right. exists i, o'. split; [lia|]. split; [|exact Hro].
        rewrite H7, nth_error_app1 by lia. exact Hnth.
      - right. exists (pos s), o. split; [lia|]. split.
        + rewrite H7, nth_error_app1 by lia. exact Hn.
        + apply ups_In. exact Hd. }
    split; [exact H5|]. rewrite H7. apply in_or_app. left. exact T6.
Qed.

Lemma init_tree : tree_state (init dd red origin).
Proof.
  unfold init, tree_state. cbn [o_up_ids o_dict enq pos]. rewrite dict_set_set.
  split; [|split; [|split; [|split; [|split]]]].
  - intros r [<-|[]]. exists (origin_pop dd red origin). simpl.
    destruct (ident_eq_dec origin origin); [reflexivity | congruence].
  - repeat constructor. intros [].
  - intros r [<-|[]]. left. reflexivity.
  - intros r [<-|[]]. left. reflexivity.
  - auto.
  - left. reflexivity.
Qed.

(** On a tree, the loop of an origin ends normally once the fuel covers
    the weight of the origin, and the dict it leaves is not empty. *)
Lemma traverse_tree fuel :
  (weight ft origin <= fuel)%nat ->
  snd (traverse dd ft red pct_cutoff sa fuel origin) = Done
  /\ o_dict (fst (traverse dd ft red pct_cutoff sa fuel origin)) <> [].
Proof.
  intros Hfuel. unfold traverse.
  destruct (run_safe dd ft red pct_cutoff sa tree_state
              (fun s o => body_tree o s) fuel
              (init dd red origin) init_tree) as [Hraise Hinv].
  pose proof (run_enough dd ft red pct_cutoff sa fuel (init dd red origin) ft_acyclic)
    as Hend.
  rewrite pending_init in Hend. specialize (Hend ltac:(lia)).
  split.
  - destruct (snd (run dd ft red pct_cutoff sa fuel (init dd red origin)))
      as [|e|]; [reflexivity | | congruence].
    exfalso. apply (Hraise e). reflexivity.
  - destruct Hinv as [T1 [_ [_ [_ [_ T6]]]]]. destruct (T1 origin T6) as [x Hx].
    intros E. rewrite E in Hx. discriminate.
Qed.

End TreeRun.

(** X6: on a tree-shaped network the call returns.  When the from-to
    table has no cycle and one row per "from" reach, the tables and the
    origin list are not empty, the origins are strings, the percentages
    are in range, and [sa] is the string "NONE" or a table with a row for
    every "from" reach, [fish_passage] raises nothing and returns its list
    of DataFrames. *)
Theorem tree_network_returns dd ori ft pct_pass pct_cutoff sa :
  acyclic ft -> NoDup (map fst ft) -> sa_covers ft sa ->
  dd <> [] -> ori <> [] -> ft <> [] ->
  (forall origin, In origin ori -> exists name, origin = IStr name) ->
  0 <= pct_pass -> pct_pass <= 100 -> 1 <= pct_cutoff -> pct_cutoff <= 100 ->
  exists fuel out dfs,
    fish_passage fuel (Given dd) (Given ori) (Given ft) pct_pass pct_cutoff sa
      = (out, Ok dfs).
Proof.
  intros Hac Hsingle Hsa Hdd Hori Hft Hstr Hp0 Hp1 Hc0 Hc1.
  exists (list_sum (map (weight ft) ori)).
  apply fish_passage_returns; try assumption.
  - destruct sa; simpl in *; tauto.
  - intros col E. subst sa. simpl in Hsa. apply (proj1 Hsa). reflexivity.
  - intros origin Hin.
    apply (traverse_tree dd ft (pct_pass / 100) pct_cutoff sa origin Hac Hsingle Hsa).
    apply (list_sum_member (weight ft) ori origin Hin).
Qed.

Lemma tree_network_returns_witness :
  exists fuel out dfs,
    fish_passage fuel (Given Net.fork_dd) (Given [Net.A]) (Given Net.fork_ft) 50 1
      Net.fork_sa = (out, Ok dfs).
Proof.
  apply (tree_network_returns Net.fork_dd [Net.A] Net.fork_ft 50 1 Net.fork_sa).
  - exact fork_acyclic.
  - repeat constructor; simpl; intuition discriminate.
  - split; [discriminate|].
    intros f t [H|[H|[H|[]]]]; inversion H; subst; discriminate.
  - discriminate.
  - discriminate.
  - discriminate.
  - intros origin [<-|[]]. exists "A". reflexivity.
  - lra.
  - lra.
  - lra.
  - lra.
Defined.

(* --------------------------------------------------------------------- *)
(** *** One origin at a time *)

Lemma passage_loop_iff fuel dd ft red pct_cutoff sa ori :
  forall acc ods,
  (exists out, passage_loop fuel dd ft red pct_cutoff sa ori acc = (out, Ok ods))
  <-> exists ds, ods = acc ++ ds /\
        Forall2 (fun origin d =>
                   (exists name, origin = IStr name)
                   /\ exists s, traverse dd ft red pct_cutoff sa fuel origin = (s, Done)
                                /\ d = o_dict s) ori ds.
Proof.
  induction ori as [|origin ori IH]; intros acc ods.
  - simpl. split.
    + intros [out H]. inversion H. exists []. rewrite app_nil_r.
      split; [reflexivity | constructor].
    + intros [ds [-> Hall]]. inversion Hall. rewrite app_nil_r. eauto.
  - split.
    + intros [out H]. simpl in H. destruct origin as [name|z]; [|inversion H].
      destruct (traverse dd ft red pct_cutoff sa fuel (IStr name)) as [s st] eqn:Ht.
      destruct st; try (inversion H; fail).
      destruct (passage_loop fuel dd ft red pct_cutoff sa ori (acc ++ [o_dict s]))
        as [out' r] eqn:Hl.
      inversion H. subst r.
      destruct (proj1 (IH _ _) (ex_intro _ out' Hl)) as [ds [Hods Hall]].
      exists (o_dict s :: ds). split; [rewrite Hods, <- app_assoc; reflexivity|].
      constructor; [|exact Hall]. split; [eauto|]. exists s. auto.
    + intros [ds [-> Hall]].
      inversion Hall as [|? d ? ds' [[name ->] [s [Ht ->]]] Hrest]; subst.
      destruct (proj2 (IH (acc ++ [o_dict s]) ((acc ++ [o_dict s]) ++ ds')))
        as [out Hout]; [exists ds'; auto|].
      simpl. rewrite Ht, Hout. rewrite <- app_assoc. simpl. eauto.
Qed.

Lemma to_frames_iff ods dfs :
  to_frames ods = Ok dfs
  <-> Forall2 (fun d df => df_rows df = d
                           /\ exists v rest, d = (df_name df, v) :: rest) ods dfs.
Proof.
  split; [apply to_frames_named|].
  intros H. induction H as [|d df ods dfs [Hrows [v [rest Hd]]] Hall IH].
  - reflexivity.
  - simpl. rewrite Hd, IH. destruct df as [name rows]. simpl in *.
    subst rows. rewrite Hd. reflexivity.
Qed.

(** When a call returns, and what it returns then. *)
Lemma fish_passage_iff fuel dd ori ft pct_pass pct_cutoff sa dfs :
  (exists out,
     fish_passage fuel (Given dd) (Given ori) (Given ft) pct_pass pct_cutoff sa
       = (out, Ok dfs))
  <-> valid_call dd ft pct_pass pct_cutoff sa /\ ori <> []
      /\ Forall2 (origin_result fuel dd ft (pct_pass / 100) pct_cutoff sa) ori dfs.
Proof.
  unfold fish_passage, valid_call. pose proof (check_sa_accepted sa) as Hck.
  destruct (check_sa sa) as [e|line].
  { split; [intros [out H]; inversion H | intros [[H _] _]; tauto]. }
  pose proof (some_empty dd ori ft sa Hck) as Hemp.
  pose proof (out_of_range pct_pass 0 100) as Hpass.
  pose proof (out_of_range pct_cutoff 1 100) as Hcut.
  destruct (_ || _ || _ || _).
  { split; [intros [out H]; inversion H|].
    intros [[_ [H1 [H2 [H3 _]]]] [H4 _]]. exfalso.
    destruct (proj1 Hemp eq_refl) as [H|[H|[H|[col H]]]]; try contradiction.
    apply (H3 col H). }
  destruct (Qgtb pct_pass 100 || Qltb pct_pass 0).
  { split; [intros [out H]; inversion H|].
    intros [[_ [_ [_ [_ [H1 [H2 _]]]]]] _]. exfalso.
    destruct (proj1 Hpass eq_refl) as [H|H]; lra. }
  destruct (Qgtb pct_cutoff 100 || Qltb pct_cutoff 1).
  { split; [intros [out H]; inversion H|].
    intros [[_ [_ [_ [_ [_ [_ [H1 H2]]]]]]] _]. exfalso.
    destruct (proj1 Hcut eq_refl) as [H|H]; lra. }
  assert (Hvalid : (sa_accepted sa /\ dd <> [] /\ ft <> []
                    /\ (forall col, sa <> SaFrame col [])
                    /\ 0 <= pct_pass /\ pct_pass <= 100
                    /\ 1 <= pct_cutoff /\ pct_cutoff <= 100) /\ ori <> []).
  { assert (Hne : ~ (dd = [] \/ ori = [] \/ ft = [] \/ exists col, sa = SaFrame col []))
      by (intros C; apply Hemp in C; discriminate).
    assert (Hnp : ~ (100 < pct_pass \/ pct_pass < 0))
      by (intros C; apply Hpass in C; discriminate).
    assert (Hnc : ~ (100 < pct_cutoff \/ pct_cutoff < 1))
      by (intros C; apply Hcut in C; discriminate).
    repeat split; try (intros E; apply Hne; tauto); try exact Hck;
      try (apply Qnot_lt_le; intros C; tauto).
    intros col E. apply Hne. right. right. right. exists col. exact E. }
  pose proof (passage_loop_iff fuel dd ft (pct_pass / 100) pct_cutoff sa ori []) as Hloop.
  split.
  - intros [out H].
    destruct (passage_loop fuel dd ft (pct_pass / 100) pct_cutoff sa ori [])
      as [out2 [ods|e|]] eqn:Hl; inversion H.
    destruct (proj1 (Hloop ods) (ex_intro _ out2 eq_refl)) as [ds [Hods Hall]].
    simpl in Hods. subst ds.
    match goal with Hf : to_frames ods = Ok dfs |- _ => apply to_frames_iff in Hf;
      rename Hf into Hfr end.
    split; [exact (proj1 Hvalid)|]. split; [exact (proj2 Hvalid)|].
    clear - Hall Hfr. revert dfs Hfr.
    induction Hall as [|origin d ori ods [Hname [s [Ht Hd]]] Hall IH]; intros dfs Hfr.
    + inversion Hfr. constructor.
    + inversion Hfr as [|d' df ods' dfs' [Hrows Hhd] Hrest]; subst.
      constructor; [|apply IH; exact Hrest].
      split; [exact Hname|]. exists s. auto.
  - intros [_ [_ Hall]].
    assert (Hods : exists ods,
               Forall2 (fun origin d =>
                          (exists name, origin = IStr name)
                          /\ exists s, traverse dd ft (pct_pass / 100) pct_cutoff sa fuel origin
                                         = (s, Done) /\ d = o_dict s) ori ods
               /\ to_frames ods = Ok dfs).
    { clear - Hall. induction Hall as [|origin df ori dfs [Hname [s [Ht [Hrows Hhd]]]] Hall IH].
      - exists []. split; [constructor | reflexivity].
      - destruct IH as [ods [Hf Hto]]. exists (o_dict s :: ods). split.
        + constructor; [|exact Hf]. split; [exact Hname|]. exists s. auto.
        + apply to_frames_iff. constructor; [auto|]. apply to_frames_iff. exact Hto. }
    destruct Hods as [ods [Hf Hto]].
    destruct (proj2 (Hloop ods)) as [out2 Hout]; [exists ods; auto|].
    rewrite Hout, Hto. eauto.
Qed.

(** X7: the origins are processed independently.  A call on a list of
    origins returns exactly when the call on each origin alone returns,
    and its DataFrames are then those of the single calls, in the order of
    the list: one failing origin leaves the caller with no result at
    all. *)
Theorem origins_independent fuel dd ori ft pct_pass pct_cutoff sa dfs :
  ori <> [] ->
  ((exists out,
      fish_passage fuel (Given dd) (Given ori) (Given ft) pct_pass pct_cutoff sa
        = (out, Ok dfs))
   <-> Forall2 (fun origin df =>
                  exists out,
                    fish_passage fuel (Given dd) (Given [origin]) (Given ft)
                      pct_pass pct_cutoff sa = (out, Ok [df])) ori dfs).
Proof.
  intros Hne. rewrite fish_passage_iff. split.
  - intros [Hv [_ Hall]]. refine (Forall2_impl_In _ _ _ _ _ Hall).
    intros origin df _ Hr. apply fish_passage_iff.
    split; [exact Hv|]. split; [discriminate|]. constructor; [exact Hr | constructor].
  - intros Hall.
    assert (Hv : valid_call dd ft pct_pass pct_cutoff sa).
    { destruct Hall as [|origin df ori dfs H _]; [congruence|].
      apply fish_passage_iff in H. apply H. }
    split; [exact Hv|]. split; [exact Hne|].
    refine (Forall2_impl_In _ _ _ _ _ Hall).
    intros origin df _ H. apply fish_passage_iff in H.
    destruct H as [_ [_ H]]. inversion H. assumption.
Qed.

Lemma origins_independent_witness :
  exists dfs,
    ((exists out,
        fish_passage 10 (Given Net.fork_dd) (Given [Net.A; Net.B]) (Given Net.fork_ft)
          50 1 Net.fork_sa = (out, Ok dfs))
     <-> Forall2 (fun origin df =>
                    exists out,
                      fish_passage 10 (Given Net.fork_dd) (Given [origin])
                        (Given Net.fork_ft) 50 1 Net.fork_sa = (out, Ok [df]))
                 [Net.A; Net.B] dfs)
    /\ exists out,
         fish_passage 10 (Given Net.fork_dd) (Given [Net.A; Net.B]) (Given Net.fork_ft)
           50 1 Net.fork_sa = (out, Ok dfs).
Proof.
  eexists. split.
  2:{ eexists. vm_compute. reflexivity. }
  apply (origins_independent 10 Net.fork_dd [Net.A; Net.B] Net.fork_ft 50 1 Net.fork_sa).
  discriminate.
Defined.

(* ===================================================================== *)
(** ** Further properties of [find_main_stems] *)
(* ===================================================================== *)

Lemma unique_from_In seen l x :
  In x (unique_from seen l) <-> In x l /\ ~ In x seen.
Proof.
  revert seen. induction l as [|a l IH]; intros seen; simpl; [tauto|].
  destruct (mem a seen) eqn:Hm.
  - apply mem_In in Hm. rewrite IH. split.
    + intros [H1 H2]. auto.
    + intros [[->|H1] H2]; [contradiction | auto].
  - apply mem_false in Hm. simpl. rewrite IH. simpl. split.
    + intros [->|[H1 H2]]; [auto|]. split; [auto|]. intros H. apply H2. right. exact H.
    + intros [[->|H1] H2]; [auto|].
      destruct (ident_eq_dec a x) as [->|Hne]; [auto|].
      right. split; [exact H1|]. intros [E|E]; [congruence | contradiction].
Qed.

Lemma unique_In l x : In x (unique l) <-> In x l.
Proof. unfold unique. rewrite unique_from_In. simpl. tauto. Qed.

Lemma first_down_In ft_sub n d : first_down ft_sub n = Some d -> In (n, d) ft_sub.
Proof.
  induction ft_sub as [|[f t] rest IH]; simpl; [discriminate|].
  destruct (ident_eq_dec f n) as [->|Hne].
  - intros H. inversion H. left. reflexivity.
  - intros H. right. apply IH. exact H.
Qed.

Lemma first_down_defined ft_sub n :
  In n (map fst ft_sub) -> exists d, first_down ft_sub n = Some d.
Proof.
  induction ft_sub as [|[f t] rest IH]; simpl; [contradiction|].
  destruct (ident_eq_dec f n) as [->|Hne]; [eauto|].
  intros [H|H]; [contradiction | apply IH; exact H].
Qed.

Lemma trib_ft_sub_In ft reaches row :
  In row (trib_ft_sub ft reaches)
  <-> In row ft /\ (In (fst row) reaches \/ In (snd row) reaches).
Proof.
  unfold trib_ft_sub. rewrite in_flat_map. split.
  - intros [r [Hr Hin]]. apply filter_In in Hin. destruct Hin as [Hin Hm].
    split; [exact Hin|]. apply orb_true_iff in Hm.
    destruct Hm as [Hm|Hm]; apply ident_eqb_true in Hm; subst r; auto.
  - intros [Hin [Hr|Hr]].
    + exists (fst row). split; [exact Hr|]. apply filter_In. split; [exact Hin|].
      rewrite ident_eqb_refl. reflexivity.
    + exists (snd row). split; [exact Hr|]. apply filter_In. split; [exact Hin|].
      rewrite ident_eqb_refl. apply orb_true_r.
Qed.

(** The walk adds to the main stems only the two reaches of rows of the
    subset, and raises nothing but [IndexError]. *)
Lemma main_stem_walk_rows fuel reaches ft_sub :
  forall not_term_list i main,
    match main_stem_walk fuel reaches ft_sub not_term_list i main with
    | Ok res => forall r, In r res -> In r main \/ in_table ft_sub r
    | Raise e => e = IndexError
    | OutOfFuel => True
    end.
Proof.
  induction fuel as [|fuel IH]; intros L i main; simpl.
  - destruct (nth_error L i); [exact I | auto].
  - destruct (nth_error L i) as [n|]; [|auto].
    destruct (first_down ft_sub n) as [d|] eqn:Hd; [|reflexivity].
    apply first_down_In in Hd.
    destruct (mem d reaches).
    + specialize (IH (L ++ [d]) (S i) (main ++ [n])).
      destruct (main_stem_walk fuel reaches ft_sub (L ++ [d]) (S i) (main ++ [n]));
        try exact IH.
      intros r Hr. destruct (IH r Hr) as [H|H]; [|right; exact H].
      apply in_app_or in H. destruct H as [H|[<-|[]]]; [left; exact H|].
      right. exists d. left. exact Hd.
    + specialize (IH L (S i) (main ++ [n; d])).
      destruct (main_stem_walk fuel reaches ft_sub L (S i) (main ++ [n; d]));
        try exact IH.
      intros r Hr. destruct (IH r Hr) as [H|H]; [|right; exact H].
      apply in_app_or in H. destruct H as [H|[<-|[<-|[]]]]; [left; exact H| |].
      * right. exists d. left. exact Hd.
      * right. exists n. right. exact Hd.
Qed.

Lemma trib_main_stems_rows fuel tr ft trib :
  match trib_main_stems fuel tr ft trib with
  | Some (Ok res) => forall r, In r res -> in_table ft r
  | Some (Raise e) => e = IndexError
  | _ => True
  end.
Proof.
  unfold trib_main_stems. destruct (Nat.ltb 0 _); [|exact I].
  pose proof (main_stem_walk_rows fuel (trib_reaches tr trib)
                (trib_ft_sub ft (trib_reaches tr trib))
                (filter (fun i => negb (mem i (trib_reaches tr trib)))
                        (map fst (trib_ft_sub ft (trib_reaches tr trib)))) 0 []) as H.
  destruct (main_stem_walk _ _ _ _ _ _) as [res|e|]; [|exact H | exact I].
  intros r Hr. destruct (H r Hr) as [[]|[x Hx]].
  exists x. destruct Hx as [Hx|Hx]; apply trib_ft_sub_In in Hx; tauto.
Qed.

Lemma trib_loop_rows fuel tr ft tribs :
  forall acc,
    match trib_loop fuel tr ft tribs acc with
    | Ok all => (forall r, In r acc -> in_table ft r) -> forall r, In r all -> in_table ft r
    | Raise e => e = IndexError
    | OutOfFuel => True
    end.
Proof.
  induction tribs as [|trib tribs IH]; intros acc; simpl; [auto|].
  pose proof (trib_main_stems_rows fuel tr ft trib) as Ht.
  destruct (trib_main_stems fuel tr ft trib) as [[main|e|]|]; try exact Ht; try exact I.
  - specialize (IH (acc ++ main)).
    destruct (trib_loop fuel tr ft tribs (acc ++ main)); try exact IH.
    intros Hacc. apply IH. intros r Hr. apply in_app_or in Hr.
    destruct Hr as [Hr|Hr]; [apply Hacc; exact Hr | apply Ht; exact Hr].
  - specialize (IH []).
    destruct (trib_loop fuel tr ft tribs []); try exact IH.
    intros _. apply IH. intros r [].
Qed.

(** X8: [find_main_stems] leaves through [sys.exit] exactly when one of
    its two arguments is not a DataFrame or is empty; any other exception
    it raises is an [IndexError] (the walk has come to a reach of the
    tributary with no row in the "from" column). *)
Theorem find_main_stems_errors fuel tr ft :
  ((exists msg, find_main_stems fuel tr ft = Raise (SystemExit msg))
   <-> (tr = Mistyped \/ ft = Mistyped \/ tr = Given [] \/ ft = Given []))
  /\ (forall e, find_main_stems fuel tr ft = Raise e -> is_exit e \/ e = IndexError).
Proof.
  unfold find_main_stems.
  destruct tr as [tr'|]; [|split; [split; eauto | intros e H; inversion H; left; exact I]].
  destruct ft as [ft'|];
    [|split; [split; eauto | intros e H; inversion H; left; exact I]].
  destruct tr' as [|row tr'].
  { simpl. split; [split; eauto 6 | intros e H; inversion H; left; exact I]. }
  destruct ft' as [|row' ft'].
  { simpl. split; [split; eauto 6 | intros e H; inversion H; left; exact I]. }
  cbn [length Nat.eqb orb].
  pose proof (trib_loop_rows fuel (row :: tr') (row' :: ft')
                (unique (map fst (row :: tr'))) []) as Hl.
  destruct (trib_loop fuel (row :: tr') (row' :: ft') (unique (map fst (row :: tr'))) [])
    as [all|e|].
  - split; [split|]; [intros [msg H]; discriminate | | intros e H; discriminate].
    intros [H|[H|[H|H]]]; discriminate.
  - subst e. split; [split|].
    + intros [msg H]. discriminate.
    + intros [H|[H|[H|H]]]; discriminate.
    + intros e H. inversion H. right. reflexivity.
  - split; [split|]; [intros [msg H]; discriminate | | intros e H; discriminate].
    intros [H|[H|[H|H]]]; discriminate.
Qed.

(** X9: every reach [find_main_stems] returns is a reach of a row of the
    from-to table. *)
Theorem main_stems_in_table fuel tr ft ms :
  find_main_stems fuel (Given tr) (Given ft) = Ok ms ->
  forall r, In r ms -> in_table ft r.
Proof.
  unfold find_main_stems.
  destruct (_ || _); [discriminate|].
  pose proof (trib_loop_rows fuel tr ft (unique (map fst tr)) []) as Hl.
  destruct (trib_loop fuel tr ft (unique (map fst tr)) []) as [all|e|]; try discriminate.
  intros H r Hr. inversion H. subst ms. unfold to_set in Hr.
  apply nodup_In in Hr. apply Hl; [intros x []| exact Hr].
Qed.

Lemma main_stems_in_table_witness :
  find_main_stems 10 (Given (rev Net.units_tr)) (Given Net.units_ft)
    = Ok [Net.A; Net.B; Net.C]
  /\ in_table Net.units_ft Net.B.
Proof.
  split; [vm_compute; reflexivity|].
  apply (main_stems_in_table 10 (rev Net.units_tr) Net.units_ft [Net.A; Net.B; Net.C]).
  - vm_compute. reflexivity.
  - right. left. reflexivity.
Defined.

(* --------------------------------------------------------------------- *)
(** *** The master list across tributaries *)

(** As long as no tributary is without a non-terminal reach, the master
    list grows by the main stems of each tributary. *)
Lemma trib_loop_union fuel tr ft tribs :
  (forall trib, In trib tribs -> trib_main_stems fuel tr ft trib <> None) ->
  forall acc all,
    trib_loop fuel tr ft tribs acc = Ok all ->
    forall r, In r all <-> In r acc \/ stem_of_units fuel tr ft tribs r.
Proof.
  induction tribs as [|trib tribs IH]; intros Hsome acc all Hrun r; simpl in Hrun.
  - inversion Hrun. subst. split; [auto|]. intros [H|[t [m [[] _]]]]. exact H.
  - destruct (trib_main_stems fuel tr ft trib) as [[main|e|]|] eqn:Ht; try discriminate.
    + rewrite (IH (fun t Hin => Hsome t (or_intror Hin)) _ _ Hrun r).
      rewrite in_app_iff. split.
      * intros [[H|H]|[t [m [Hin [Hm Hr]]]]].
        -- left. exact H.
        -- right. exists trib, main. split; [left; reflexivity | auto].
        -- right. exists t, m. split; [right; exact Hin | auto].
      * intros [H|[t [m [[<-|Hin] [Hm Hr]]]]].
        -- left. left. exact H.
        -- rewrite Ht in Hm. inversion Hm. subst m. left. right. exact Hr.
        -- right. exists t, m. auto.
    + exfalso. apply (Hsome trib (or_introl eq_refl) Ht).
Qed.

(** A tributary without a non-terminal reach empties the master list. *)
Lemma trib_loop_reset fuel tr ft pre trib post :
  trib_main_stems fuel tr ft trib = None ->
  forall acc all,
    trib_loop fuel tr ft (pre ++ trib :: post) acc = Ok all ->
    trib_loop fuel tr ft post [] = Ok all.
Proof.
  intros Hnone. induction pre as [|t pre IH]; intros acc all Hrun; simpl in Hrun.
  - rewrite Hnone in Hrun. exact Hrun.
  - destruct (trib_main_stems fuel tr ft t) as [[main|e|]|]; try discriminate;
      apply (IH _ _ Hrun).
Qed.





(* --------------------------------------------------------------------- *)
(** *** Termination of the walk down a tributary *)

Lemma sum_skipn_nth {X} (f : X -> nat) (l : list X) (n : nat) (x : X) :
  nth_error l n = Some x ->
  list_sum (map f (skipn n l)) = (f x + list_sum (map f (skipn (S n) l)))%nat.
Proof.
  revert n. induction l as [|a l IH]; intros n H.
  - destruct n; discriminate.
  - destruct n; simpl in H.
    + inversion H. reflexivity.
    + apply (IH n H).
Qed.

Lemma sum_skipn_app {X} (f : X -> nat) (l : list X) (n : nat) (x : X) :
  (n <= length l)%nat ->
  list_sum (map f (skipn n (l ++ [x]))) = (list_sum (map f (skipn n l)) + f x)%nat.
Proof.
  intros Hn. rewrite skipn_app. replace (n - length l)%nat with O by lia.
  simpl skipn. rewrite map_app, list_sum_app. simpl. lia.
Qed.

Section WalkTermination.

Variable reaches : list reach.
Variable ft_sub : ft_table.
Variable ft : ft_table.

Hypothesis sub_rows : forall row, In row ft_sub -> In row ft.
Hypothesis ft_acyclic : acyclic ft.

Lemma out_chain_tail a t : out_chain ft_sub (a :: t) -> out_chain ft_sub t.
Proof. simpl. tauto. Qed.

Lemma out_chain_reach a t :
  out_chain ft_sub (a :: t) -> forall x, In x t -> up_reach ft x a.
Proof.
  revert a. induction t as [|b t IH]; intros a Hc x Hx; [contradiction|].
  destruct Hc as [Hab Hc].
  assert (Hba : up_reach ft b a) by (apply up_edge; apply sub_rows; exact Hab).
  destruct Hx as [<-|Hx]; [exact Hba|].
  apply (up_reach_trans ft x b a (IH b Hc x Hx) Hba).
Qed.

Lemma out_chain_NoDup l : out_chain ft_sub l -> NoDup l.
Proof.
  induction l as [|a t IH]; intros Hc; constructor.
  - intros Hin. apply (ft_acyclic a). apply (out_chain_reach a t Hc a Hin).
  - apply IH. apply (out_chain_tail a t Hc).
Qed.

Lemma out_chain_from l : out_chain ft_sub l -> incl l (map fst ft_sub).
Proof.
  induction l as [|a t IH]; intros Hc x Hx; [contradiction|].
  destruct Hx as [<-|Hx]; [|apply (IH (out_chain_tail a t Hc) x Hx)].
  apply in_map_iff. destruct Hc as [Hc _]. destruct t as [|b t].
  - destruct Hc as [b Hb]. exists (a, b). auto.
  - exists (a, b). auto.
Qed.

Lemma down_len_grow d : forall n,
  down_len reaches ft_sub (S d) n <> down_len reaches ft_sub d n ->
  exists l, length l = d /\ out_chain ft_sub (n :: l).
Proof.
  induction d as [|d IH]; intros n H.
  - exists []. split; [reflexivity|]. simpl in H.
    destruct (first_down ft_sub n) as [dn|] eqn:Hd; [|congruence].
    simpl. split; [|exact I]. exists dn. apply first_down_In. exact Hd.
  - change (down_len reaches ft_sub (S (S d)) n)
      with (match first_down ft_sub n with
            | Some dn => if mem dn reaches
                         then S (down_len reaches ft_sub (S d) dn) else 1%nat
            | None => 1%nat
            end) in H.
    change (down_len reaches ft_sub (S d) n)
      with (match first_down ft_sub n with
            | Some dn => if mem dn reaches
                         then S (down_len reaches ft_sub d dn) else 1%nat
            | None => 1%nat
            end) in H.
    destruct (first_down ft_sub n) as [dn|] eqn:Hd; [|congruence].
    destruct (mem dn reaches); [|congruence].
    destruct (IH dn) as [l [Hlen Hc]]; [intros E; apply H; rewrite E; reflexivity|].
    exists (dn :: l). split; [simpl; rewrite Hlen; reflexivity|].
    split; [apply first_down_In; exact Hd | exact Hc].
Qed.

Lemma down_len_stable d n :
  (length ft_sub <= d)%nat ->
  down_len reaches ft_sub (S d) n = down_len reaches ft_sub d n.
Proof.
  intros Hd.
  destruct (Nat.eq_dec (down_len reaches ft_sub (S d) n) (down_len reaches ft_sub d n))
    as [E|E]; [exact E|].
  exfalso. apply down_len_grow in E. destruct E as [l [Hlen Hc]].
  pose proof (NoDup_incl_length (out_chain_NoDup _ Hc) (out_chain_from _ Hc)) as Hle.
  rewrite length_map in Hle. simpl in Hle. lia.
Qed.

Lemma walk_weight_pos n : (1 <= walk_weight reaches ft_sub n)%nat.
Proof.
  unfold walk_weight. simpl.
  destruct (first_down ft_sub n); [destruct (mem _ _)|]; lia.
Qed.

Lemma walk_weight_down n dn :
  first_down ft_sub n = Some dn -> mem dn reaches = true ->
  walk_weight reaches ft_sub n = S (walk_weight reaches ft_sub dn).
Proof.
  intros Hd Hm. unfold walk_weight.
  rewrite (down_len_stable (length ft_sub) dn (Nat.le_refl _)).
  simpl. rewrite Hd, Hm. reflexivity.
Qed.

(** With fuel for the weight left in the list, and a row in the "from"
    column for every listed reach and every reach of the tributary, the
    walk returns. *)
Lemma main_stem_walk_total fuel : forall not_term_list i main,
  (forall n, In n not_term_list -> In n (map fst ft_sub)) ->
  (forall r, In r reaches -> In r (map fst ft_sub)) ->
  (list_sum (map (walk_weight reaches ft_sub) (skipn i not_term_list)) <= fuel)%nat ->
  exists res, main_stem_walk fuel reaches ft_sub not_term_list i main = Ok res.
Proof.
  induction fuel as [|fuel IH]; intros L i main HL Hr Hm; simpl.
  - destruct (nth_error L i) as [n|] eqn:Hn; [|eauto].
    exfalso. rewrite (sum_skipn_nth _ _ _ _ Hn) in Hm.
    pose proof (walk_weight_pos n). lia.
  - destruct (nth_error L i) as [n|] eqn:Hn; [|eauto].
    rewrite (sum_skipn_nth _ _ _ _ Hn) in Hm.
    destruct (first_down_defined ft_sub n (HL n (nth_error_In _ _ Hn))) as [d Hd].
    rewrite Hd.
    assert (Hlen : (S i <= length L)%nat) by (apply nth_error_Some; congruence).
    destruct (mem d reaches) eqn:Hmem.
    + apply IH; [|exact Hr|].
      * intros x Hx. apply in_app_or in Hx. destruct Hx as [Hx|[<-|[]]]; [auto|].
        apply Hr. apply mem_In. exact Hmem.
      * rewrite sum_skipn_app by exact Hlen.
        rewrite (walk_weight_down n d Hd Hmem) in Hm. lia.
    + apply IH; [exact HL | exact Hr|]. pose proof (walk_weight_pos n). lia.
Qed.

End WalkTermination.

Lemma trib_reaches_In tr trib r : In r (trib_reaches tr trib) <-> In (trib, r) tr.
Proof.
  unfold trib_reaches. rewrite in_map_iff. split.
  - intros [[t r'] [Hr Hin]]. simpl in Hr. subst r'.
    apply filter_In in Hin. destruct Hin as [Hin Ht]. simpl in Ht.
    apply ident_eqb_true in Ht. subst t. exact Hin.
  - intros H. exists (trib, r). split; [reflexivity|].
    apply filter_In. split; [exact H | apply ident_eqb_refl].
Qed.

Lemma trib_main_stems_total fuel tr ft trib :
  acyclic ft ->
  (forall t r, In (t, r) tr -> exists d, In (r, d) ft) ->
  (trib_bound tr ft trib <= fuel)%nat ->
  trib_main_stems fuel tr ft trib = None
  \/ exists main, trib_main_stems fuel tr ft trib = Some (Ok main).
Proof.
  intros Hac Hflow Hfuel. unfold trib_main_stems.
  destruct (Nat.ltb 0 _); [|left; reflexivity]. right.
  set (reaches := trib_reaches tr trib) in *.
  set (ft_sub := trib_ft_sub ft reaches) in *.
  destruct (main_stem_walk_total reaches ft_sub ft
              (fun row Hrow => proj1 (proj1 (trib_ft_sub_In ft reaches row) Hrow))
              Hac fuel
              (filter (fun i => negb (mem i reaches)) (map fst ft_sub)) 0 [])
    as [res Hres].
  - intros n Hn. apply filter_In in Hn. apply Hn.
  - intros r Hr. destruct (Hflow trib r (proj1 (trib_reaches_In tr trib r) Hr)) as [d Hd].
    apply in_map_iff. exists (r, d). split; [reflexivity|].
    apply trib_ft_sub_In. split; [exact Hd | left; exact Hr].
  - exact Hfuel.
  - exists res. rewrite Hres. reflexivity.
Qed.

Lemma trib_loop_total fuel tr ft tribs :
  acyclic ft ->
  (forall t r, In (t, r) tr -> exists d, In (r, d) ft) ->
  (forall trib, In trib tribs -> (trib_bound tr ft trib <= fuel)%nat) ->
  forall acc, exists all, trib_loop fuel tr ft tribs acc = Ok all.
Proof.
  intros Hac Hflow. induction tribs as [|trib tribs IH]; intros Hfuel acc; simpl.
  - eauto.
  - destruct (trib_main_stems_total fuel tr ft trib Hac Hflow
                (Hfuel trib (or_introl eq_refl))) as [Hn|[main Hm]].
    + rewrite Hn. apply IH. intros t Ht. apply Hfuel. right. exact Ht.
    + rewrite Hm. apply IH. intros t Ht. apply Hfuel. right. exact Ht.
Qed.

(** X12: [find_main_stems] returns on a well-formed network: when the
    from-to table has no cycle, both tables are non-empty and every reach
    of the tributary table flows into some reach, the walks down the
    tributaries end and no lookup fails. *)
Theorem find_main_stems_returns tr ft :
  acyclic ft -> tr <> [] -> ft <> [] ->
  (forall t r, In (t, r) tr -> exists d, In (r, d) ft) ->
  exists fuel ms, find_main_stems fuel (Given tr) (Given ft) = Ok ms.
Proof.
  intros Hac Htr Hft Hflow.
  set (fuel := list_sum (map (trib_bound tr ft) (unique (map fst tr)))).
  exists fuel. unfold find_main_stems.
  destruct tr as [|row tr]; [congruence|]. destruct ft as [|row' ft]; [congruence|].
  cbn [length Nat.eqb orb].
  destruct (trib_loop_total fuel (row :: tr) (row' :: ft) (unique (map fst (row :: tr)))
              Hac Hflow) with (acc := @nil reach) as [all Hall].
  - intros trib Hin. apply (list_sum_member _ _ trib Hin).
  - rewrite Hall. eauto.
Qed.

Lemma find_main_stems_returns_witness :
  exists fuel ms,
    find_main_stems fuel (Given [(Net.T1, Net.B)]) (Given [(Net.A, Net.B); (Net.B, Net.C)])
    = Ok ms.
Proof.
  apply (find_main_stems_returns [(Net.T1, Net.B)] [(Net.A, Net.B); (Net.B, Net.C)]).
  - apply (ranked_acyclic _
             (fun r => if ident_eqb r Net.A then 2
                       else if ident_eqb r Net.B then 1 else 0)%nat).
    intros f t [H|[H|[]]]; inversion H; subst; vm_compute; lia.
  - discriminate.
  - discriminate.
  - intros t r [H|[]]. inversion H. subst. exists Net.C. right. left. reflexivity.
Defined.

(* ===================================================================== *)
(** ** Further properties of [find_origins] *)
(* ===================================================================== *)

Lemma mem_same_set (ms ms' : list reach) (x : reach) :
  (forall y, In y ms <-> In y ms') -> mem x ms = mem x ms'.
Proof.
  intros H. destruct (mem x ms') eqn:E.
  - apply mem_In. apply H. apply mem_In. exact E.
  - apply mem_false. intros Hin. apply H in Hin. apply mem_In in Hin. congruence.
Qed.

(** X13: [find_origins] reads its main-stem list as a set: two lists with
    the same members, in any order and with any repetitions, give the same
    outcome.  So the order in which [list(set(...))] hands over the main
    stems of [find_main_stems] does not matter. *)
Theorem find_origins_set_only (ms ms' : list reach) (ft : pyarg ft_table) :
  (forall x, In x ms <-> In x ms') ->
  find_origins (Given ms) ft = find_origins (Given ms') ft.
Proof.
  intros Hset. unfold find_origins. destruct ft as [ft'|]; [|reflexivity].
  assert (Hlen : Nat.eqb (length ms) 0 = Nat.eqb (length ms') 0).
  { destruct ms as [|a ms], ms' as [|b ms']; try reflexivity; exfalso.
    - apply (proj2 (Hset b)). left. reflexivity.
    - apply (proj1 (Hset a)). left. reflexivity. }
  rewrite Hlen. destruct (_ || _); [reflexivity|].
  unfold origins_scan. f_equal. f_equal. f_equal. apply filter_ext.
  intros row. rewrite (mem_same_set ms ms' (snd row) Hset),
    (mem_same_set ms ms' (fst row) Hset). reflexivity.
Qed.

Lemma find_origins_set_only_witness :
  find_origins (Given [Net.A; Net.B; Net.C]) (Given Net.units_ft)
  = find_origins (Given [Net.C; Net.A; Net.B; Net.A]) (Given Net.units_ft).
Proof.
  apply (find_origins_set_only [Net.A; Net.B; Net.C] [Net.C; Net.A; Net.B; Net.A]).
  intros x. simpl. tauto.
Defined.

(* ===================================================================== *)
(** ** Further properties of [fish_passage]: decay along a tree *)
(* ===================================================================== *)

Section TreeDecay.

Variable dd : dam_table.
Variable ft : ft_table.
Variable red : Q.
Variable pct_cutoff : Q.
Variable sa : sa_arg.
Variable origin : reach.

Hypothesis ft_acyclic : acyclic ft.
Hypothesis ft_single : NoDup (map fst ft).
Hypothesis sa_ok : sa_covers ft sa.
Hypothesis sa_pos : sa_positive sa.
Hypothesis red_lo : 0 <= red.
Hypothesis red_hi : red <= 1.

#[local] Abbreviation decaying := (decaying ft origin).

Lemma decaying_recorded o k x y s :
  ~ In k (enq s) -> k <> o -> In (k, o) ft ->
  dict_get o (o_dict s) = Some (Some x) -> 0 <= y -> y <= x ->
  decaying s -> decaying (recorded k (Some y) s).
Proof.
  intros Hfresh Hne Hko Hget Hy0 Hyx [D1 [D2 D3]].
  unfold decaying, recorded. cbn [o_dict enq].
  assert (Hother : forall o', (exists v, dict_get o' (o_dict s) = Some v) ->
            dict_get o' (dict_set k (Some y) (o_dict s)) = dict_get o' (o_dict s)).
  { intros o' [v Hv]. apply dict_get_set_other. intros E. subst o'.
    apply Hfresh. apply (D1 k v). apply dict_get_In. exact Hv. }
  split; [|split].
  - intros r v Hin. apply In_dict_set in Hin. apply in_or_app.
    destruct Hin as [Hin|Hin]; [inversion Hin; right; left; reflexivity|].
    left. apply (D1 r v Hin).
  - intros r x' Hin. apply In_dict_set in Hin.
    destruct Hin as [Hin|Hin]; [inversion Hin; subst; exact Hy0 | apply (D2 r x' Hin)].
  - intros r y' Hin. apply In_dict_set in Hin. destruct Hin as [Hin|Hin].
    + inversion Hin. subst. right. exists o, x.
      split; [exact Hko|]. split; [|exact Hyx].
      rewrite Hother; [exact Hget | eauto].
    + destruct (D3 r y' Hin) as [E|[o' [x' [H1 [H2 H3]]]]]; [left; exact E|].
      right. exists o', x'. split; [exact H1|]. split; [|exact H3].
      rewrite Hother; [exact H2 | eauto].
Qed.

Lemma decaying_dropped k s :
  ~ In k (enq s) -> decaying s -> decaying (dropped k s).
Proof.
  intros Hfresh [D1 [D2 D3]]. unfold decaying, dropped. cbn [o_dict enq].
  split; [|split].
  - intros r v Hin. apply In_dict_del_set in Hin. apply in_or_app. left.
    apply (D1 r v Hin).
  - intros r x Hin. apply In_dict_del_set in Hin. apply (D2 r x Hin).
  - intros r y Hin. apply In_dict_del_set in Hin.
    destruct (D3 r y Hin) as [E|[o' [x' [H1 [H2 H3]]]]]; [left; exact E|].
    right. exists o', x'. split; [exact H1|]. split; [|exact H3].
    assert (Hne : o' <> k).
    { intros E. subst o'. apply Hfresh. apply (D1 k (Some x')).
      apply dict_get_In. exact H2. }
    rewrite dict_get_del_other by exact Hne.
    rewrite dict_get_set_other by exact Hne. exact H2.
Qed.

Lemma opened_get_other o k s x :
  k <> o -> dict_get o (o_dict (opened k s)) = Some (Some x) ->
  dict_get o (o_dict s) = Some (Some x).
Proof.
  intros Hne. simpl.
  rewrite dict_get_set_other by (intros E; apply Hne; symmetry; exact E). auto.
Qed.

Lemma body_decay o s :
  nth_error (o_up_ids s) (pos s) = Some o ->
  tree_state ft origin s /\ decaying s ->
  snd (body dd ft red pct_cutoff sa o s) = inr tt
  /\ (tree_state ft origin (advance (fst (body dd ft red pct_cutoff sa o s)))
      /\ decaying (advance (fst (body dd ft red pct_cutoff sa o s)))).
Proof.
  intros Hn [HT HD].
  pose proof (body_tree dd ft red pct_cutoff sa origin ft_acyclic ft_single sa_ok
                o s Hn HT) as [Hok HT'].
  split; [exact Hok|]. split; [exact HT'|].
  destruct HT as [T1 [T2 [T3 [T4 [T5 T6]]]]].
  pose proof (nth_error_In _ _ Hn) as Ho.
  pose proof (T3 o Ho) as Hfo.
  assert (Hstart : tree_step ft origin s [] s).
  { split; [exact T1|]. split; [exact T2|]. split; [exact T3|]. split.
    { intros r Hr. destruct (T4 r Hr) as [E|E]; [left; exact E | right; left; exact E]. }
    split; [exact T5|]. split; [reflexivity|]. exists []. rewrite app_nil_r. reflexivity. }
  pose proof (attenuation_unit dd red red_lo red_hi) as Hatt.
  destruct (body_safe_at dd ft red pct_cutoff sa
              (fun done s1 => tree_step ft origin s done s1 /\ decaying s1) o s)
    as [_ [_ HD']].
  - intros k s1 Hq [HJ1 HD1].
    destruct (tree_fresh ft origin ft_acyclic ft_single s o [] k [] s1 Hn T2 Hfo Hq HJ1)
      as [Hfresh [Hne Hfk]].
    destruct (tree_get ft origin s [] s1 o k Ho Hne HJ1) as [x Hget].
    pose proof (opened_get_other o k s1 x Hne Hget) as Hget0.
    pose proof (proj1 (proj2 HD1) o x (dict_get_In _ _ _ Hget0)) as Hx0.
    assert (Hko : In (k, o) ft) by (apply ups_In; rewrite Hq; left; reflexivity).
    destruct (Hatt k) as [Ha0 Ha1].
    rewrite (visit_single_get dd red pct_cutoff o k s1 x Hget). cbv zeta.
    destruct (has_dams dd k); [destruct (Qgtb _ _)|]; simpl;
      (split; [reflexivity|]).
    + split; [apply (tree_step_recorded ft origin s [] s1 k _ Hfresh Hfk HJ1)|].
      apply (decaying_recorded o k x _ s1 Hfresh Hne Hko Hget0); [nra | nra | exact HD1].
    + split; [apply (tree_step_dropped ft origin s [] s1 k Hfresh HJ1)|].
      apply (decaying_dropped k s1 Hfresh HD1).
    + split; [apply (tree_step_recorded ft origin s [] s1 k _ Hfresh Hfk HJ1)|].
      apply (decaying_recorded o k x _ s1 Hfresh Hne Hko Hget0);
        [exact Hx0 | apply Qle_refl | exact HD1].
  - intros _. destruct (split_props_defined ft sa o sa_ok) as [props Hs].
    exists (ups ft o), props. split; [exact Hs|].
    intros done k rest p s1 Hq Hin [HJ1 HD1].
    destruct (tree_fresh ft origin ft_acyclic ft_single s o done k rest s1 Hn T2 Hfo Hq HJ1)
      as [Hfresh [Hne Hfk]].
    destruct (tree_get ft origin s done s1 o k Ho Hne HJ1) as [x Hget].
    pose proof (opened_get_other o k s1 x Hne Hget) as Hget0.
    pose proof (proj1 (proj2 HD1) o x (dict_get_In _ _ _ Hget0)) as Hx0.
    assert (Hko : In (k, o) ft)
      by (apply ups_In; rewrite Hq; apply in_or_app; right; left; reflexivity).
    destruct (Hatt k) as [Ha0 Ha1].
    pose proof (split_props_share sa _ _ _ p sa_pos Hs
                  (proj2 (in_combine_fst _ _ _ _ Hin))) as [Hp0 Hp1].
    rewrite (visit_branch_get dd red pct_cutoff o k p s1 x Hget). cbv zeta.
    assert (Hxp : 0 <= x * p /\ x * p <= x) by (split; nra).
    destruct (Qgtb _ _); simpl; (split; [reflexivity|]).
    + split; [apply (tree_step_recorded ft origin s done s1 k _ Hfresh Hfk HJ1)|].
      apply (decaying_recorded o k x _ s1 Hfresh Hne Hko Hget0); [| |exact HD1];
        destruct (has_dams dd k); try nra; tauto.
    + split; [apply (tree_step_dropped ft origin s done s1 k Hfresh HJ1)|].
      apply (decaying_dropped k s1 Hfresh HD1).
  - split; [exact Hstart | exact HD].
  - exact HD'.
Qed.

Lemma init_decaying : decaying (init dd red origin).
Proof.
  unfold init, decaying. cbn [o_dict enq]. rewrite dict_set_set. simpl.
  split; [|split].
  - intros r v [H|[]]. inversion H. left. reflexivity.
  - intros r x [H|[]]. injection H as _ Hx. subst x. unfold origin_pop.
    destruct (attenuation_unit dd red red_lo red_hi origin) as [Ha0 Ha1].
    destruct (has_dams dd origin); lra.
  - intros r y [H|[]]. left. inversion H. reflexivity.
Qed.

Lemma traverse_decay fuel :
  decaying (fst (traverse dd ft red pct_cutoff sa fuel origin)).
Proof.
  unfold traverse.
  destruct (run_safe dd ft red pct_cutoff sa
              (fun st => tree_state ft origin st /\ decaying st)
              (fun s o => body_decay o s) fuel (init dd red origin)
              (conj (init_tree dd ft red origin) init_decaying)) as [_ [_ H]].
  exact H.
Qed.

End TreeDecay.

(** X14: on a tree-shaped network the results are connected and decay
    upstream.  With a from-to table without cycles and with one row per
    "from" reach, and [sa] the string "NONE" or a table with a positive
    value for every "from" reach, every reach of a result other than the
    origin flows into a reach of the same result, and its fraction is not
    greater than the fraction of that reach. *)
Theorem fractions_decay_upstream fuel dd ori ft pct_pass pct_cutoff sa out dfs :
  acyclic ft -> NoDup (map fst ft) -> sa_covers ft sa -> sa_positive sa ->
  fish_passage fuel (Given dd) (Given ori) (Given ft) pct_pass pct_cutoff sa
    = (out, Ok dfs) ->
  Forall2 (fun origin df =>
             forall r y, In (r, Some y) (df_rows df) -> r <> origin ->
                         exists o x, In (r, o) ft /\ In (o, Some x) (df_rows df) /\ y <= x)
          ori dfs.
Proof.
  intros Hac Hsingle Hcov Hpos Hcall.
  pose proof (fish_passage_ok_valid _ _ _ _ _ _ _ _ _ Hcall) as [_ [Hp0 [Hp1 _]]].
  pose proof (pass_rate_unit pct_pass Hp0 Hp1) as [Hr0 Hr1].
  apply fish_passage_ok in Hcall.
  refine (Forall2_impl_In _ _ _ _ _ Hcall).
  intros origin df _ [s [Ht Hrows]] r y Hin Hne. rewrite Hrows in *.
  pose proof (traverse_decay dd ft (pct_pass / 100) pct_cutoff sa origin
                Hac Hsingle Hcov Hpos Hr0 Hr1 fuel) as [_ [_ HD]].
  rewrite Ht in HD. simpl in HD.
  destruct (HD r y Hin) as [E|[o [x [H1 [H2 H3]]]]]; [contradiction|].
  exists o, x. split; [exact H1|]. split; [apply dict_get_In; exact H2 | exact H3].
Qed.

Lemma fractions_decay_upstream_witness :
  exists out dfs,
    fish_passage 10 (Given Net.fork_dd) (Given [Net.A]) (Given Net.fork_ft) 50 1
      Net.fork_sa = (out, Ok dfs)
    /\ Forall2 (fun origin df =>
                  forall r y, In (r, Some y) (df_rows df) -> r <> origin ->
                              exists o x, In (r, o) Net.fork_ft
                                          /\ In (o, Some x) (df_rows df) /\ y <= x)
               [Net.A] dfs.
Proof.
  eexists. eexists. split.
  - vm_compute. reflexivity.
  - refine (fractions_decay_upstream 10 Net.fork_dd [Net.A] Net.fork_ft 50 1
              Net.fork_sa _ _ _ _ _ _ _).
    + exact fork_acyclic.
    + repeat constructor; simpl; intuition discriminate.
    + split; [discriminate|].
      intros f t [H|[H|[H|[]]]]; inversion H; subst; discriminate.
    + intros k v [H|[H|[H|[]]]]; inversion H; reflexivity.
    + vm_compute. reflexivity.
Defined.

(* ===================================================================== *)
(** ** Further properties of [fish_passage]: confluences on a tree *)
(* ===================================================================== *)

Lemma Qsum_snoc (l : list Q) (a : Q) : Qsum (l ++ [a]) == Qsum l + a.
Proof. unfold Qsum. rewrite fold_left_app. simpl. reflexivity. Qed.

Lemma held_snoc d l k : held d (l ++ [k]) == held d l + fraction d k.
Proof. unfold held. rewrite map_app. simpl. apply Qsum_snoc. Qed.

Lemma dict_get_absent k (d : odict) :
  (forall v, ~ In (k, v) d) -> dict_get k d = None.
Proof.
  intros H. destruct (dict_get k d) as [v|] eqn:E; [|reflexivity].
  exfalso. apply (H v). apply dict_get_In. exact E.
Qed.

Lemma held_absent d l :
  (forall b, In b l -> dict_get b d = None) -> held d l == 0.
Proof.
  unfold held. intros H. rewrite Qsum_fold_right.
  induction l as [|a l IH]; simpl; [reflexivity|].
  unfold fraction at 1. rewrite (H a (or_introl eq_refl)).
  rewrite IH by (intros b Hb; apply H; right; exact Hb). ring.
Qed.

Lemma held_set_other k v d l :
  ~ In k l -> held (dict_set k v d) l = held d l.
Proof.
  intros Hni. unfold held. f_equal. apply map_ext_in. intros r Hr.
  unfold fraction. rewrite dict_get_set_other; [reflexivity|].
  intros E. subst r. apply Hni. exact Hr.
Qed.

Lemma branch_attrs_map rows q attrs :
  branch_attrs rows q = inr attrs -> attrs = map (attr_of rows) q.
Proof.
  revert attrs. induction q as [|a q IH]; simpl; intros attrs H.
  - inversion H. reflexivity.
  - unfold attr_of at 1. destruct (attr_lookup rows a) as [v|]; [|discriminate].
    destruct (branch_attrs rows q) as [e|vs]; [discriminate|].
    inversion H. rewrite (IH vs eq_refl). reflexivity.
Qed.

Lemma split_props_frame col rows q ids props :
  split_props (SaFrame col rows) q = inr (ids, props) ->
  ids = q
  /\ props = map (fun k => attr_of rows k / Qsum (map (attr_of rows) q)) q.
Proof.
  unfold split_props. destruct (branch_attrs rows q) as [e|attrs] eqn:Hb; [discriminate|].
  intros H. injection H as Hids Hprops. subst ids props. split; [reflexivity|].
  rewrite (branch_attrs_map _ _ _ Hb), map_map. reflexivity.
Qed.

Lemma in_combine_map {X Y} (g : X -> Y) (l : list X) k p :
  In (k, p) (combine l (map g l)) -> p = g k.
Proof.
  induction l as [|a l IH]; simpl; [contradiction|].
  intros [H|H]; [inversion H; reflexivity | apply IH; exact H].
Qed.

(** The shares of positive attribute values add up to 1. *)
Lemma share_total rows (q : list reach) :
  q <> [] -> (forall k, In k q -> 0 < attr_of rows k) ->
  Qsum (map (fun k => attr_of rows k / Qsum (map (attr_of rows) q)) q) == 1.
Proof.
  intros Hne Hpos.
  rewrite <- (map_map (attr_of rows) (fun val => val / Qsum (map (attr_of rows) q)) q).
  rewrite Qsum_scaled.
  assert (HT : 0 < Qsum (map (attr_of rows) q)).
  { apply Qsum_pos.
    - destruct q; [congruence | discriminate].
    - intros v Hv. apply in_map_iff in Hv. destruct Hv as [k [<- Hk]]. apply Hpos. exact Hk. }
  unfold Qdiv. apply Qmult_inv_r. intros E. rewrite E in HT. apply (Qlt_irrefl 0 HT).
Qed.

Section TreeConfluence.

Variable dd : dam_table.
Variable ft : ft_table.
Variable red : Q.
Variable pct_cutoff : Q.
Variable col : string.
Variable rows : list (reach * Q).
Variable origin : reach.

Hypothesis ft_acyclic : acyclic ft.
Hypothesis ft_single : NoDup (map fst ft).
Hypothesis sa_ok : sa_covers ft (SaFrame col rows).
Hypothesis sa_pos : sa_positive (SaFrame col rows).
Hypothesis red_lo : 0 <= red.
Hypothesis red_hi : red <= 1.

#[local] Abbreviation share := (share ft rows).
#[local] Abbreviation conserving := (conserving ft).
#[local] Abbreviation conserving_step := (conserving_step ft rows).

Lemma attr_of_pos k o : In (k, o) ft -> 0 < attr_of rows k.
Proof.
  intros Hko. unfold attr_of.
  destruct (attr_lookup rows k) as [v|] eqn:E.
  - apply (sa_pos k v). apply attr_lookup_In. exact E.
  - exfalso. apply (proj2 sa_ok k o Hko E).
Qed.

Lemma share_unit o k : In (k, o) ft -> 0 <= share o k /\ share o k <= 1.
Proof.
  intros Hko. unfold share.
  assert (Hall : forall v, In v (map (attr_of rows) (ups ft o)) -> 0 < v).
  { intros v Hv. apply in_map_iff in Hv. destruct Hv as [b [<- Hb]].
    apply (attr_of_pos b o). apply ups_In. exact Hb. }
  assert (Hin : In (attr_of rows k) (map (attr_of rows) (ups ft o))).
  { apply in_map. apply ups_In. exact Hko. }
  pose proof (Hall _ Hin) as Hk0.
  pose proof (Qsum_member _ _ Hall Hin) as Hle.
  assert (HT : 0 < Qsum (map (attr_of rows) (ups ft o))) by lra.
  split.
  - apply Qle_shift_div_l; [exact HT | lra].
  - apply Qle_shift_div_r; [exact HT | lra].
Qed.

Lemma share_ups_total o : ups ft o <> [] -> Qsum (map (share o) (ups ft o)) == 1.
Proof.
  intros Hne. unfold share. apply share_total; [exact Hne|].
  intros k Hk. apply (attr_of_pos k o). apply ups_In. exact Hk.
Qed.

(** No branch of a reach about to be visited has ever been appended. *)
Lemma tree_branch_fresh s o done k rest s1 b :
  ups ft o = done ++ k :: rest -> tree_step ft origin s done s1 ->
  ~ In k (enq s1) -> k <> o -> from_origin ft origin k ->
  In (b, k) ft -> ~ In b (enq s1).
Proof.
  intros Hq [_ [_ [_ [H4 [H5 [_ [ext H7]]]]]]] Hfresh Hne Hfk Hbk Hin.
  assert (Hko : In (k, o) ft)
    by (apply ups_In; rewrite Hq; apply in_or_app; right; left; reflexivity).
  destruct (H4 b Hin) as [E|[[i [o' [Hi [Hnth Hbo]]]]|Hd]].
  - subst b. apply (ft_acyclic origin).
    destruct Hfk as [E|Hup].
    + subst k. apply up_edge. exact Hbk.
    + apply (up_reach_snoc _ _ _ _ Hup Hbk).
  - pose proof (single_downstream ft b k o' ft_single Hbk Hbo) as E. subst o'.
    apply Hfresh. apply H5. rewrite H7. apply in_or_app. left.
    apply (nth_error_In _ _ Hnth).
  - assert (Hbo : In (b, o) ft)
      by (apply ups_In; rewrite Hq; apply in_or_app; left; exact Hd).
    apply Hne. apply (single_downstream ft b k o ft_single Hbk Hbo).
Qed.

Lemma conserving_recorded s o x0 done k rest s1 y :
  ups ft o = done ++ k :: rest -> tree_step ft origin s done s1 ->
  decaying ft origin s1 ->
  ~ In k (enq s1) -> k <> o -> from_origin ft origin k ->
  0 <= y -> y <= x0 * share o k ->
  conserving_step o x0 done s1 ->
  conserving_step o x0 (done ++ [k]) (recorded k (Some y) s1).
Proof.
  intros Hq HT1 [D1 _] Hfresh Hne Hfk Hy0 Hyx [Hst [HC HP]].
  assert (Hko : In (k, o) ft)
    by (apply ups_In; rewrite Hq; apply in_or_app; right; left; reflexivity).
  assert (Hnd : ~ In k done).
  { pose proof (NoDup_ups ft ft_single o) as Hnu. rewrite Hq in Hnu.
    apply (NoDup_split_fresh done rest k Hnu). }
  unfold conserving_step, recorded. cbn [o_dict].
  split; [|split].
  - rewrite dict_get_set_other by (intros E; apply Hne; symmetry; exact E). exact Hst.
  - intros o' x' Hne' Hget. destruct (ident_eq_dec o' k) as [E|Hne2].
    + subst o'. rewrite dict_get_set_same in Hget. injection Hget as Hx. subst x'.
      rewrite held_absent; [exact Hy0|].
      intros b Hb. apply ups_In in Hb.
      assert (Hbk : b <> k).
      { intros E. subst b. apply (ft_acyclic k). apply up_edge. exact Hb. }
      rewrite dict_get_set_other by exact Hbk.
      apply dict_get_absent. intros v Hv.
      apply (tree_branch_fresh s o done k rest s1 b Hq HT1 Hfresh Hne Hfk Hb).
      apply (D1 b v Hv).
    + rewrite dict_get_set_other in Hget by exact Hne2.
      rewrite held_set_other; [apply (HC o' x' Hne' Hget)|].
      intros Hk. apply ups_In in Hk. apply Hne'.
      apply (single_downstream ft k o' o ft_single Hk Hko).
  - rewrite held_snoc, map_app. simpl map. rewrite Qsum_snoc.
    rewrite held_set_other by exact Hnd.
    unfold fraction. rewrite dict_get_set_same. lra.
Qed.

Lemma conserving_dropped o x0 done k rest s1 :
  ups ft o = done ++ k :: rest -> decaying ft origin s1 ->
  ~ In k (enq s1) -> 0 <= x0 ->
  conserving_step o x0 done s1 ->
  conserving_step o x0 (done ++ [k]) (dropped k s1).
Proof.
  intros Hq [D1 _] Hfresh Hx0 [Hst [HC HP]].
  assert (Hko : In (k, o) ft)
    by (apply ups_In; rewrite Hq; apply in_or_app; right; left; reflexivity).
  assert (Habs : dict_get k (o_dict s1) = None).
  { apply dict_get_absent. intros v Hv. apply Hfresh. apply (D1 k v Hv). }
  unfold conserving_step, dropped. cbn [o_dict].
  rewrite (dict_del_set_absent k None (o_dict s1) Habs).
  split; [exact Hst|]. split; [exact HC|].
  rewrite held_snoc, map_app. simpl map. rewrite Qsum_snoc.
  unfold fraction. rewrite Habs.
  destruct (share_unit o k Hko) as [Hs0 _].
  assert (0 <= x0 * share o k) by nra. lra.
Qed.

Lemma body_conserving o s :
  nth_error (o_up_ids s) (pos s) = Some o ->
  tree_state ft origin s /\ decaying ft origin s /\ conserving s ->
  snd (body dd ft red pct_cutoff (SaFrame col rows) o s) = inr tt
  /\ (tree_state ft origin (advance (fst (body dd ft red pct_cutoff (SaFrame col rows) o s)))
      /\ decaying ft origin (advance (fst (body dd ft red pct_cutoff (SaFrame col rows) o s)))
      /\ conserving (advance (fst (body dd ft red pct_cutoff (SaFrame col rows) o s)))).
Proof.
  intros Hn [HT [HD HC]].
  pose proof (body_decay dd ft red pct_cutoff (SaFrame col rows) origin
                ft_acyclic ft_single sa_ok sa_pos red_lo red_hi o s Hn (conj HT HD))
    as [Hok [HT' HD']].
  split; [exact Hok|]. split; [exact HT'|]. split; [exact HD'|].
  destruct HT as [T1 [T2 [T3 [T4 [T5 T6]]]]].
  pose proof (nth_error_In _ _ Hn) as Ho.
  pose proof (T3 o Ho) as Hfo.
  destruct (T1 o Ho) as [x0 Hx0].
  pose proof (proj1 (proj2 HD) o x0 (dict_get_In _ _ _ Hx0)) as Hx0pos.
  assert (Hstart : tree_step ft origin s [] s).
  { split; [exact T1|]. split; [exact T2|]. split; [exact T3|]. split.
    { intros r Hr. destruct (T4 r Hr) as [E|E]; [left; exact E | right; left; exact E]. }
    split; [exact T5|]. split; [reflexivity|]. exists []. rewrite app_nil_r. reflexivity. }
  pose proof (attenuation_unit dd red red_lo red_hi) as Hatt.
  assert (Hopen : forall k s1, k <> o -> dict_get o (o_dict s1) = Some (Some x0) ->
            dict_get o (o_dict (opened k s1)) = Some (Some x0)).
  { intros k s1 Hne Hg. simpl.
    rewrite dict_get_set_other by (intros E; apply Hne; symmetry; exact E). exact Hg. }
  destruct (body_safe_at dd ft red pct_cutoff (SaFrame col rows)
              (fun done s1 => tree_step ft origin s done s1 /\ decaying ft origin s1
                              /\ conserving_step o x0 done s1) o s)
    as [_ [_ [_ [Hst [HCo HP]]]]].
  - intros k s1 Hq [HJ1 [HD1 HC1]].
    destruct (tree_fresh ft origin ft_acyclic ft_single s o [] k [] s1 Hn T2 Hfo Hq HJ1)
      as [Hfresh [Hne Hfk]].
    pose proof (Hopen k s1 Hne (proj1 HC1)) as Hget.
    assert (Hko : In (k, o) ft) by (apply ups_In; rewrite Hq; left; reflexivity).
    destruct (Hatt k) as [Ha0 Ha1].
    assert (Hone : share o k == 1).
    { pose proof (share_ups_total o) as Hs. rewrite Hq in Hs.
      specialize (Hs ltac:(discriminate)). simpl in Hs.
      rewrite Qsum_fold_right in Hs. simpl in Hs. lra. }
    rewrite (visit_single_get dd red pct_cutoff o k s1 x0 Hget). cbv zeta.
    destruct (has_dams dd k); [destruct (Qgtb _ _)|]; simpl;
      (split; [reflexivity|]).
    + split; [apply (tree_step_recorded ft origin s [] s1 k _ Hfresh Hfk HJ1)|].
      split.
      * apply (decaying_recorded ft origin o k x0 _ s1 Hfresh Hne Hko (proj1 HC1));
          [nra | nra | exact HD1].
      * apply (conserving_recorded s o x0 [] k [] s1 _ Hq HJ1 HD1 Hfresh Hne Hfk);
          [nra | rewrite Hone; nra | exact HC1].
    + split; [apply (tree_step_dropped ft origin s [] s1 k Hfresh HJ1)|].
      split; [apply (decaying_dropped ft origin k s1 Hfresh HD1)|].
      apply (conserving_dropped o x0 [] k [] s1 Hq HD1 Hfresh Hx0pos HC1).
    + split; [apply (tree_step_recorded ft origin s [] s1 k _ Hfresh Hfk HJ1)|].
      split.
      * apply (decaying_recorded ft origin o k x0 _ s1 Hfresh Hne Hko (proj1 HC1));
          [exact Hx0pos | apply Qle_refl | exact HD1].
      * apply (conserving_recorded s o x0 [] k [] s1 _ Hq HJ1 HD1 Hfresh Hne Hfk);
          [exact Hx0pos | rewrite Hone; lra | exact HC1].
  - intros _. destruct (split_props_defined ft (SaFrame col rows) o sa_ok) as [props Hs].
    exists (ups ft o), props. split; [exact Hs|].
    intros done k rest p s1 Hq Hin [HJ1 [HD1 HC1]].
    destruct (tree_fresh ft origin ft_acyclic ft_single s o done k rest s1 Hn T2 Hfo Hq HJ1)
      as [Hfresh [Hne Hfk]].
    pose proof (Hopen k s1 Hne (proj1 HC1)) as Hget.
    assert (Hko : In (k, o) ft)
      by (apply ups_In; rewrite Hq; apply in_or_app; right; left; reflexivity).
    destruct (Hatt k) as [Ha0 Ha1].
    assert (Hp : p = share o k).
    { destruct (split_props_frame col rows _ _ _ Hs) as [_ Hprops]. subst props.
      apply (in_combine_map _ _ _ _ Hin). }
    subst p. destruct (share_unit o k Hko) as [Hp0 Hp1].
    rewrite (visit_branch_get dd red pct_cutoff o k (share o k) s1 x0 Hget). cbv zeta.
    assert (Hxp : 0 <= x0 * share o k) by nra.
    destruct (Qgtb _ _); simpl; (split; [reflexivity|]).
    + split; [apply (tree_step_recorded ft origin s done s1 k _ Hfresh Hfk HJ1)|].
      split.
      * apply (decaying_recorded ft origin o k x0 _ s1 Hfresh Hne Hko (proj1 HC1));
          [| |exact HD1]; destruct (has_dams dd k); nra.
      * apply (conserving_recorded s o x0 done k rest s1 _ Hq HJ1 HD1 Hfresh Hne Hfk);
          [| |exact HC1]; destruct (has_dams dd k); nra.
    + split; [apply (tree_step_dropped ft origin s done s1 k Hfresh HJ1)|].
      split; [apply (decaying_dropped ft origin k s1 Hfresh HD1)|].
      apply (conserving_dropped o x0 done k rest s1 Hq HD1 Hfresh Hx0pos HC1).
  - split; [exact Hstart|]. split; [exact HD|].
    split; [exact Hx0|]. split.
    + intros o' x' _ Hg. apply (HC o' x' Hg).
    + unfold held. simpl. unfold Qsum. simpl. lra.
  - unfold conserving, advance. cbn [o_dict].
    intros o' x' Hg. destruct (ident_eq_dec o' o) as [E|Hne'].
    + subst o'. rewrite Hst in Hg. injection Hg as Hx. subst x'.
      destruct (ups ft o) as [|q0 q] eqn:Hq.
      * unfold held. simpl. unfold Qsum. simpl. exact Hx0pos.
      * rewrite <- Hq in HP. rewrite share_ups_total in HP by (rewrite Hq; discriminate).
        rewrite <- Hq. lra.
    + apply (HCo o' x' Hne' Hg).
Qed.

Lemma init_conserving : conserving (init dd red origin).
Proof.
  unfold init, conserving. cbn [o_dict]. rewrite dict_set_set. simpl.
  intros o x. destruct (ident_eq_dec origin o) as [E|Hne]; [|discriminate].
  subst o. intros H. injection H as Hx. subst x.
  rewrite held_absent.
  - unfold origin_pop.
    destruct (attenuation_unit dd red red_lo red_hi origin) as [Ha0 Ha1].
    destruct (has_dams dd origin); lra.
  - intros b Hb. simpl. destruct (ident_eq_dec origin b) as [E|_]; [|reflexivity].
    subst b. exfalso. apply (ft_acyclic origin). apply up_edge. apply ups_In. exact Hb.
Qed.

Lemma traverse_conserving fuel :
  conserving (fst (traverse dd ft red pct_cutoff (SaFrame col rows) fuel origin)).
Proof.
  unfold traverse.
  destruct (run_safe dd ft red pct_cutoff (SaFrame col rows)
              (fun st => tree_state ft origin st /\ decaying ft origin st /\ conserving st)
              (fun s o => body_conserving o s) fuel (init dd red origin)
              (conj (init_tree dd ft red origin)
                    (conj (init_decaying dd ft red origin red_lo red_hi) init_conserving)))
    as [_ [_ [_ H]]].
  exact H.
Qed.

End TreeConfluence.



(* ===================================================================== *)
(** ** Further properties of [fish_passage]: the results of a tree *)
(* ===================================================================== *)

Lemma visit_single_handed dd ft red pct_cutoff sa o k s x :
  ups ft o = [k] -> dict_get o (o_dict (opened k s)) = Some (Some x) ->
  visit_single dd red pct_cutoff o k s
    = (after_visit k (handed_up dd ft red pct_cutoff sa o k x) s, inr tt).
Proof.
  intros Hq Hget. rewrite (visit_single_get dd red pct_cutoff o k s x Hget).
  unfold handed_up. rewrite Hq. cbv zeta.
  destruct (has_dams dd k); [|reflexivity].
  destruct (Qgtb _ _); reflexivity.
Qed.

Lemma split_props_branch_share ft sa o ids props k p :
  split_props sa (ups ft o) = inr (ids, props) -> In (k, p) (combine ids props) ->
  p = branch_share ft sa o k.
Proof.
  intros Hs Hin. destruct sa as [col rows|str|].
  - destruct (split_props_frame col rows _ _ _ Hs) as [Hids Hprops]. subst ids props.
    apply (in_combine_map _ _ _ _ Hin).
  - unfold split_props in Hs. injection Hs as Hids Hprops. subst ids props.
    apply (in_combine_map (fun _ => 1) _ _ _ Hin).
  - discriminate.
Qed.

Lemma visit_branch_handed dd ft red pct_cutoff sa o ids props k p s x :
  (1 < length (ups ft o))%nat ->
  split_props sa (ups ft o) = inr (ids, props) -> In (k, p) (combine ids props) ->
  dict_get o (o_dict (opened k s)) = Some (Some x) ->
  visit_branch dd red pct_cutoff o (k, p) s
    = (after_visit k (handed_up dd ft red pct_cutoff sa o k x) s, inr tt).
Proof.
  intros Hlen Hs Hin Hget.
  rewrite (split_props_branch_share ft sa o ids props k p Hs Hin).
  rewrite (visit_branch_get dd red pct_cutoff o k _ s x Hget).
  unfold handed_up. destruct (ups ft o) as [|a [|b l]]; simpl in Hlen; try lia.
  cbv zeta. destruct (Qgtb _ _); reflexivity.
Qed.

Section TreeExact.

Variable dd : dam_table.
Variable ft : ft_table.
Variable red : Q.
Variable pct_cutoff : Q.
Variable sa : sa_arg.
Variable origin : reach.

Hypothesis ft_acyclic : acyclic ft.
Hypothesis ft_single : NoDup (map fst ft).
Hypothesis sa_ok : sa_covers ft sa.

#[local] Abbreviation handed := (handed_up dd ft red pct_cutoff sa).
#[local] Abbreviation settled := (settled dd ft red pct_cutoff sa).
#[local] Abbreviation settled_step := (settled_step dd ft red pct_cutoff sa).

Lemma tree_step_after s done s1 k h :
  ~ In k (enq s1) -> from_origin ft origin k -> tree_step ft origin s done s1 ->
  tree_step ft origin s (done ++ [k]) (after_visit k h s1).
Proof.
  intros Hfresh Hfk HJ. destruct h as [y|]; simpl.
  - apply (tree_step_recorded ft origin s done s1 k y Hfresh Hfk HJ).
  - apply (tree_step_dropped ft origin s done s1 k Hfresh HJ).
Qed.

Lemma settled_after s o x0 done k rest s1 :
  nth_error (o_up_ids s) (pos s) = Some o -> NoDup (o_up_ids s) ->
  ups ft o = done ++ k :: rest -> tree_step ft origin s done s1 ->
  ~ In k (enq s1) -> k <> o ->
  settled_step s o x0 done s1 ->
  settled_step s o x0 (done ++ [k]) (after_visit k (handed o k x0) s1).
Proof.
  intros Hn Hnd Hq [_ [_ [_ [_ [H5 [_ [ext H7]]]]]]] Hfresh Hne [Hst [HK [HB HD]]].
  assert (Hko : In (k, o) ft)
    by (apply ups_In; rewrite Hq; apply in_or_app; right; left; reflexivity).
  assert (HkL : ~ In k (o_up_ids s1)) by (intros H; apply Hfresh; apply H5; exact H).
  assert (Habs : dict_get k (o_dict s1) = None).
  { apply dict_get_absent. intros v Hv. apply HkL. apply (HK k v Hv). }
  assert (Hkd : ~ In k done).
  { pose proof (NoDup_ups ft ft_single o) as Hnu. rewrite Hq in Hnu.
    apply (NoDup_split_fresh done rest k Hnu). }
  destruct (handed o k x0) as [y|] eqn:Hh; simpl.
  - unfold settled_step, recorded. cbn [o_dict o_up_ids].
    split; [|split; [|split]].
    + rewrite dict_get_set_other by (intros E; apply Hne; symmetry; exact E). exact Hst.
    + intros r v Hin. apply In_dict_set in Hin. apply in_or_app.
      destruct Hin as [Hin|Hin]; [inversion Hin; right; left; reflexivity|].
      left. apply (HK r v Hin).
    + intros i o' x' k' Hi Hnth Hget Hk'.
      assert (Ho' : o' <> k).
      { intros E. subst o'. apply HkL. rewrite H7. apply in_or_app. left.
        apply (nth_error_In _ _ Hnth). }
      assert (Hk'k : k' <> k).
      { intros E. subst k'. apply ups_In in Hk'.
        pose proof (single_downstream ft k o o' ft_single Hko Hk') as E. subst o'.
        assert (Hlen : (pos s < length (o_up_ids s))%nat)
          by (apply nth_error_Some; congruence).
        pose proof (proj1 (NoDup_nth_error (o_up_ids s)) Hnd i (pos s) ltac:(lia)
                      (eq_trans Hnth (eq_sym Hn))) as E.
        lia. }
      rewrite dict_get_set_other in Hget by exact Ho'.
      rewrite dict_get_set_other by exact Hk'k.
      apply (HB i o' x' k' Hi Hnth Hget Hk').
    + intros k' Hk'. apply in_app_or in Hk'. destruct Hk' as [Hk'|[Hk'|[]]].
      * rewrite dict_get_set_other by (intros E; subst k'; apply Hkd; exact Hk').
        apply (HD k' Hk').
      * subst k'. rewrite dict_get_set_same, Hh. reflexivity.
  - unfold settled_step, dropped. cbn [o_dict o_up_ids].
    rewrite (dict_del_set_absent k None (o_dict s1) Habs).
    unfold keys_listed. cbn [o_dict o_up_ids].
    unfold reach in *. rewrite (remove_first_app_fresh k _ HkL).
    split; [exact Hst|]. split; [exact HK|]. split; [exact HB|].
    intros k' Hk'. apply in_app_or in Hk'. destruct Hk' as [Hk'|[Hk'|[]]].
    + apply (HD k' Hk').
    + subst k'. rewrite Habs, Hh. reflexivity.
Qed.

Lemma body_settled o s :
  nth_error (o_up_ids s) (pos s) = Some o ->
  tree_state ft origin s /\ keys_listed s /\ settled s ->
  snd (body dd ft red pct_cutoff sa o s) = inr tt
  /\ (tree_state ft origin (advance (fst (body dd ft red pct_cutoff sa o s)))
      /\ keys_listed (advance (fst (body dd ft red pct_cutoff sa o s)))
      /\ settled (advance (fst (body dd ft red pct_cutoff sa o s)))).
Proof.
  intros Hn [HT [HK HS]].
  pose proof (body_tree dd ft red pct_cutoff sa origin ft_acyclic ft_single sa_ok
                o s Hn HT) as [Hok HT'].
  split; [exact Hok|]. split; [exact HT'|].
  destruct HT as [T1 [T2 [T3 [T4 [T5 T6]]]]].
  pose proof (nth_error_In _ _ Hn) as Ho.
  pose proof (T3 o Ho) as Hfo.
  destruct (T1 o Ho) as [x0 Hx0].
  assert (Hstart : tree_step ft origin s [] s).
  { split; [exact T1|]. split; [exact T2|]. split; [exact T3|]. split.
    { intros r Hr. destruct (T4 r Hr) as [E|E]; [left; exact E | right; left; exact E]. }
    split; [exact T5|]. split; [reflexivity|]. exists []. rewrite app_nil_r. reflexivity. }
  assert (Hopen : forall k s1, k <> o -> dict_get o (o_dict s1) = Some (Some x0) ->
            dict_get o (o_dict (opened k s1)) = Some (Some x0)).
  { intros k s1 Hne Hg. simpl.
    rewrite dict_get_set_other by (intros E; apply Hne; symmetry; exact E). exact Hg. }
  destruct (body_safe_at dd ft red pct_cutoff sa
              (fun done s1 => tree_step ft origin s done s1 /\ settled_step s o x0 done s1)
              o s)
    as [_ [HJT [Hst [HK' [HB HD]]]]].
  - intros k s1 Hq [HJ1 HS1].
    destruct (tree_fresh ft origin ft_acyclic ft_single s o [] k [] s1 Hn T2 Hfo Hq HJ1)
      as [Hfresh [Hne Hfk]].
    rewrite (visit_single_handed dd ft red pct_cutoff sa o k s1 x0 Hq
               (Hopen k s1 Hne (proj1 HS1))).
    cbn [fst snd]. split; [reflexivity|]. split.
    + apply (tree_step_after s [] s1 k _ Hfresh Hfk HJ1).
    + apply (settled_after s o x0 [] k [] s1 Hn T2 Hq HJ1 Hfresh Hne HS1).
  - intros Hlen. destruct (split_props_defined ft sa o sa_ok) as [props Hs].
    exists (ups ft o), props. split; [exact Hs|].
    intros done k rest p s1 Hq Hin [HJ1 HS1].
    destruct (tree_fresh ft origin ft_acyclic ft_single s o done k rest s1 Hn T2 Hfo Hq HJ1)
      as [Hfresh [Hne Hfk]].
    rewrite (visit_branch_handed dd ft red pct_cutoff sa o _ _ k p s1 x0 Hlen Hs Hin
               (Hopen k s1 Hne (proj1 HS1))).
    cbn [fst snd]. split; [reflexivity|]. split.
    + apply (tree_step_after s done s1 k _ Hfresh Hfk HJ1).
    + apply (settled_after s o x0 done k rest s1 Hn T2 Hq HJ1 Hfresh Hne HS1).
  - split; [exact Hstart|]. split; [exact Hx0|]. split; [exact HK|]. split.
    + intros i o' x' k' Hi Hnth Hget Hk'. apply (HS i o' x' k' Hi Hnth Hget Hk').
    + intros k' [].
  - destruct HJT as [_ [_ [_ [_ [_ [H6 [ext H7]]]]]]].
    assert (Hlen : (pos s < length (o_up_ids s))%nat)
      by (apply nth_error_Some; congruence).
    split; [exact HK'|].
    unfold settled, advance. cbn [o_dict o_up_ids pos].
    intros i o' x' k' Hi Hnth Hget Hk'. rewrite H6 in Hi.
    rewrite H7 in Hnth. rewrite nth_error_app1 in Hnth by lia.
    destruct (Nat.eq_dec i (pos s)) as [E|Hneq].
    + subst i. rewrite Hn in Hnth. injection Hnth as E. subst o'.
      rewrite Hst in Hget. injection Hget as E. subst x'. apply (HD k' Hk').
    + apply (HB i o' x' k' ltac:(lia) Hnth Hget Hk').
Qed.

Lemma init_settled : keys_listed (init dd red origin) /\ settled (init dd red origin).
Proof.
  unfold init, keys_listed, settled. cbn [o_dict o_up_ids pos]. rewrite dict_set_set.
  split.
  - intros r v [H|[]]. inversion H. left. reflexivity.
  - intros i o x k Hi. lia.
Qed.

(** When the loop of an origin has ended, every reach that holds a number
    has been processed. *)
Lemma traverse_settled fuel s :
  traverse dd ft red pct_cutoff sa fuel origin = (s, Done) ->
  forall o x k, dict_get o (o_dict s) = Some (Some x) -> In (k, o) ft ->
                dict_get k (o_dict s) = option_map Some (handed o k x).
Proof.
  intros Ht. unfold traverse in Ht.
  pose proof (run_done dd ft red pct_cutoff sa fuel _ _ Ht) as Hend.
  destruct (run_safe dd ft red pct_cutoff sa
              (fun st => tree_state ft origin st /\ keys_listed st /\ settled st)
              (fun s o => body_settled o s) fuel (init dd red origin)
              (conj (init_tree dd ft red origin) init_settled)) as [_ [_ [HK HS]]].
  rewrite Ht in HK, HS. cbn [fst] in HK, HS.
  intros o x k Hget Hko.
  pose proof (HK o _ (dict_get_In _ _ _ Hget)) as Hin.
  apply In_nth_error in Hin. destruct Hin as [i Hi].
  assert (i < length (o_up_ids s))%nat by (apply nth_error_Some; congruence).
  apply (HS i o x k ltac:(lia) Hi Hget). apply ups_In. exact Hko.
Qed.

End TreeExact.


